(** * imagedownloader / imgdl: a shallow embedding of the download pipeline

    The repository ships two near-duplicate downloaders:
    - [imagedownloader/downloader.py] (originals and thumbnails, result keyed
      by URL), embedded in [Module Imagedownloader];
    - [imgdl/downloader.py] (originals only, result aligned by index),
      embedded in [Module Imgdl].
    What both share (path derivation, the Pillow calls of [convert_image],
    [_persist_file]) is embedded once, ahead of the two modules. *)

From Stdlib Require Import ZArith QArith Lia Lqa Ascii String.
From stdpp Require Import base gmap strings list fin_maps pretty.

#[local] Open Scope Z_scope.

(** ** Byte strings and SHA-1 (hashlib.sha1)

    A Python [bytes] value is a list of integers in [0, 256).  [hashlib.sha1]
    is the FIPS 180-4 function on 32-bit words, wrap-around written out. *)

Abbreviation bytes := (list Z).

Module SHA1.

Definition w32 (x : Z) : Z := x mod 2 ^ 32.
Definition add32 (x y : Z) : Z := w32 (x + y).
Definition rotl (n x : Z) : Z :=
  Z.lor (w32 (Z.shiftl x n)) (Z.shiftr x (32 - n)).
Definition not32 (x : Z) : Z := Z.lxor x (2 ^ 32 - 1).

Definition Ch (b c d : Z) : Z := Z.lor (Z.land b c) (Z.land (not32 b) d).
Definition Parity (b c d : Z) : Z := Z.lxor (Z.lxor b c) d.
Definition Maj (b c d : Z) : Z :=
  Z.lor (Z.lor (Z.land b c) (Z.land b d)) (Z.land c d).

(** Round function and constant of round [t]. *)
Definition f (t : nat) (b c d : Z) : Z :=
  if (t <? 20)%nat then Ch b c d
  else if (t <? 40)%nat then Parity b c d
  else if (t <? 60)%nat then Maj b c d
  else Parity b c d.

Definition K (t : nat) : Z :=
  if (t <? 20)%nat then 0x5A827999
  else if (t <? 40)%nat then 0x6ED9EBA1
  else if (t <? 60)%nat then 0x8F1BBCDC
  else 0xCA62C1D6.

(** Padding: a 1 bit, zeros up to 56 mod 64, the bit length on 64 bits. *)
Fixpoint be_bytes (n : nat) (x : Z) : bytes :=
  match n with
  | O => []
  | S n' => Z.land (Z.shiftr x (8 * Z.of_nat n')) 255 :: be_bytes n' x
  end.

Definition pad (msg : bytes) : bytes :=
  let len := Z.of_nat (length msg) in
  let zeros := Z.to_nat ((55 - len) mod 64) in
  msg ++ [128] ++ replicate zeros 0 ++ be_bytes 8 (8 * len).

Fixpoint words (fuel : nat) (bs : bytes) : list Z :=
  match fuel, bs with
  | S fuel', b0 :: b1 :: b2 :: b3 :: rest =>
      (b0 * 2 ^ 24 + b1 * 2 ^ 16 + b2 * 2 ^ 8 + b3) :: words fuel' rest
  | _, _ => []
  end.

(** Message schedule, most recent word first: [W_t] is at the head. *)
Fixpoint schedule (n : nat) (rev_w : list Z) : list Z :=
  match n with
  | O => rev_w
  | S n' =>
      let x := Z.lxor (Z.lxor (nth 2 rev_w 0) (nth 7 rev_w 0))
                      (Z.lxor (nth 13 rev_w 0) (nth 15 rev_w 0)) in
      schedule n' (rotl 1 x :: rev_w)
  end.

Definition state : Type := Z * Z * Z * Z * Z.

Fixpoint rounds (t : nat) (ws : list Z) (s : state) : state :=
  match ws with
  | [] => s
  | wt :: ws' =>
      let '(a, b, c, d, e) := s in
      let T := add32 (add32 (add32 (add32 (rotl 5 a) (f t b c d)) e) (K t)) wt in
      rounds (S t) ws' (T, a, rotl 30 b, c, d)
  end.

Definition block (h : state) (blk : list Z) : state :=
  let '(h0, h1, h2, h3, h4) := h in
  let '(a, b, c, d, e) := rounds 0 (rev (schedule 64 (rev blk))) h in
  (add32 h0 a, add32 h1 b, add32 h2 c, add32 h3 d, add32 h4 e).

Fixpoint blocks (fuel : nat) (h : state) (ws : list Z) : state :=
  match fuel with
  | O => h
  | S fuel' =>
      match ws with
      | [] => h
      | _ => blocks fuel' (block h (take 16 ws)) (drop 16 ws)
      end
  end.

Definition H0 : state :=
  (0x67452301, 0xEFCDAB89, 0x98BADCFE, 0x10325476, 0xC3D2E1F0).

Definition digest (msg : bytes) : state :=
  let p := pad msg in
  let ws := words (length p) p in
  blocks (length ws) H0 ws.

(** [hexdigest]: eight lowercase hexadecimal digits per word. *)
Definition hex_digit (n : Z) : ascii :=
  default "0"%char (String.get (Z.to_nat n) "0123456789abcdef").

Fixpoint hex_word (n : nat) (x : Z) : string :=
  match n with
  | O => EmptyString
  | S n' => String (hex_digit (Z.land (Z.shiftr x (4 * Z.of_nat n')) 15))
                   (hex_word n' x)
  end.

Definition hexdigest (msg : bytes) : string :=
  let '(h0, h1, h2, h3, h4) := digest msg in
  hex_word 8 h0 +:+ hex_word 8 h1 +:+ hex_word 8 h2 +:+ hex_word 8 h3
    +:+ hex_word 8 h4.

End SHA1.

(** ** Strings and [to_bytes]

    A Python [str] is modelled by a [string] whose characters are the code
    points U+0000..U+00FF, one [ascii] per code point. *)

(** Modelled from the spec: [to_bytes] lives in [utils.py], which is not among
    the sources; the spec describes its result as the UTF-8 bytes of the URL.
    A code point below U+0080 is one byte, the others here are two. *)
Definition utf8_encode_cp (c : Z) : bytes :=
  if c <? 128 then [c]
  else [Z.lor 192 (Z.shiftr c 6); Z.lor 128 (Z.land c 63)].

Fixpoint to_bytes (s : string) : bytes :=
  match s with
  | EmptyString => []
  | String a r => utf8_encode_cp (Z.of_N (N_of_ascii a)) ++ to_bytes r
  end.




(** ** Paths (pathlib)

    A [Path] is the sequence of segments it was built from; [Path(a, b, c)]
    appends segments.  The segments are kept as passed. *)

Abbreviation Path := (list string).

Definition Path_join (base : Path) (segs : list string) : Path := base ++ segs.

(** [str(path)] *)
Definition Path_str (p : Path) : string := String.concat "/" p.

(** [Path(base, s)] for a relative string [s] appends the parts of [s]:
    its pieces between slashes, the empty ones and "." left out. *)
Fixpoint split_slash (s : string) : list string :=
  match s with
  | EmptyString => [EmptyString]
  | String c r =>
      if Ascii.eqb c "/" then EmptyString :: split_slash r
      else match split_slash r with
           | seg :: segs => String c seg :: segs
           | [] => [String c EmptyString]
           end
  end.

Definition Path_parts (s : string) : list string :=
  filter (λ seg, seg ≠ EmptyString ∧ seg ≠ "."%string) (split_slash s).

(** [path.parent] *)
Definition Path_parent (p : Path) : Path := removelast p.

(** A name that is one path segment: not empty, not ".", no slash in it. *)
Definition plain_name (s : string) : Prop :=
  s ≠ EmptyString ∧ s ≠ "."%string ∧ "/"%char ∉ list_ascii_of_string s.

(** ** Pillow

    An image object carries the attributes the downloader reads ([format],
    [mode], [size]) and its raster, one list of band values per pixel. *)

Abbreviation Pixel := (list Z).

Module PIL.

Record Image := mkImage {
  format : option string;
  mode : string;
  size : Z * Z;
  data : list Pixel
}.

(** The ink [Image.new] fills with: an RGBA image given three components
    gets an opaque alpha. *)
Definition ink (mode : string) (color : list Z) : Pixel :=
  if bool_decide (mode = "RGBA") && bool_decide (length color = 3%nat)
  then color ++ [255] else color.

(** [Image.new(mode, size, color)] *)
Definition new (mode : string) (size : Z * Z) (color : list Z) : Image :=
  {| format := None; mode := mode; size := size;
     data := replicate (Z.to_nat (fst size * snd size)) (ink mode color) |}.

(** The matte blend of [Image.paste] with a mask: per band,
    [(in1 * (255 - mask) + in2 * mask) / 255], rounded to nearest. *)
Definition blend (mask in1 in2 : Z) : Z :=
  (in1 * (255 - mask) + in2 * mask + 127) / 255.

(** The alpha band of an RGBA mask pixel. *)
Definition alpha (p : Pixel) : Z := nth 3 p 255.

Definition paste_px (out inp mask : Pixel) : Pixel :=
  zip_with (blend (alpha mask)) out inp.

Fixpoint paste_data (out inp mask : list Pixel) : list Pixel :=
  match out, inp, mask with
  | o :: out', i :: inp', m :: mask' =>
      paste_px o i m :: paste_data out' inp' mask'
  | _, _, _ => out
  end.

(** [self.paste(im, mask)] with images of one size: the new value of
    [self]. *)
Definition paste (self im mask : Image) : Image :=
  {| format := format self; mode := mode self; size := size self;
     data := paste_data (data self) (data im) (data mask) |}.

(** [self.copy()] *)
Definition copy (self : Image) : Image :=
  {| format := None; mode := mode self; size := size self;
     data := data self |}.

(** The size [Image.thumbnail] resizes to (the releases that still export
    [Image.ANTIALIAS]); Python's [int(max(y * w / x, 1))] is the floor of
    the exact quotient for rasters that fit in memory. *)
Definition thumbnail_size (self_size size : Z * Z) : Z * Z :=
  let '(x, y) := self_size in
  let '(x, y) := if x >? fst size then (fst size, Z.max (y * fst size / x) 1)
                 else (x, y) in
  let '(x, y) := if y >? snd size then (Z.max (x * snd size / y) 1, snd size)
                 else (x, y) in
  (x, y).

(** Modes the JPEG writer accepts. *)
Definition jpeg_modes : list string :=
  ["1"; "L"; "RGB"; "RGBX"; "CMYK"; "YCbCr"].

End PIL.

(** ** The outside world

    What the code gets from collaborators is read from an [Env]: the remote
    hosts, Pillow's decoder, resampler, mode conversions and JPEG encoder, the
    operating system's answer to opening and writing a file, and the stream
    of the [random] module. *)

Abbreviation Proxy := (gmap string string).
Abbreviation Headers := (gmap string string).

Inductive PersistMode :=
| OpenFails      (* [path.open('wb')] raises: nothing is touched *)
| WriteFails     (* the file is opened (truncated), [f.write] raises *)
| WriteOk.

Record Env := mkEnv {
(** [requests.get(url, timeout, proxies, headers).content], [None] when
    the request raises *)
http_get : string → Q → option Proxy → Headers → option bytes;
(** [Image.open] on a byte stream, [None] when it raises *)
image_decode : bytes → option PIL.Image;
(** [im.convert(mode)] between two different modes other than RGBA to RGB,
    [None] when Pillow has no such conversion *)
pil_convert : PIL.Image → string → option (list Pixel);
(** the raster [im.resize(size, ANTIALIAS)] computes *)
pil_resize : PIL.Image → Z * Z → list Pixel;
(** the JPEG stream of an image in an accepted mode, [None] when the
    encoder raises *)
jpeg_encode : PIL.Image → option bytes;
persist_mode : Path → bytes → PersistMode;
(** the [k]-th 53-bit output of the generator behind [random] *)
random_bits : nat → Z
}.

Inductive Exc :=
| RequestException (url : string)
| UnidentifiedImageError
| FileNotFoundError (p : Path)
| PermissionError (p : Path)
| OSError (msg : string)
| ValueError (msg : string)
| IndexError
| TypeError
| AssertionError (msg : string)
| Exception (msg : string).

Inductive Event :=
| EvGet (url : string) (proxy : option Proxy)
| EvWrite (p : Path) (buf : bytes)
| EvSleep (d : Q).

(** Image objects live in a heap and are passed by reference. *)
Abbreviation loc := nat.

Record State := mkState {
  fs : gmap Path bytes;
  heap : list PIL.Image;
  rng : nat;
  trace : list Event
}.

Inductive Result (A : Type) :=
| Ok (a : A)
| Raise (e : Exc).
Arguments Ok {A} a.
Arguments Raise {A} e.

#[global] Instance Result_ret : MRet Result := @Ok.
#[global] Instance Result_bind : MBind Result :=
  λ A B k r, match r with Ok a => k a | Raise e => Raise e end.

(** Statements run in a state, may raise, and keep their effects when they
    do. *)
Definition M (A : Type) : Type := State → State * Result A.

Definition ret {A} (a : A) : M A := λ st, (st, Ok a).
Definition raise {A} (e : Exc) : M A := λ st, (st, Raise e).
Definition bind {A B} (m : M A) (k : A → M B) : M B :=
  λ st, match m st with
        | (st', Ok a) => k a st'
        | (st', Raise e) => (st', Raise e)
        end.

#[global] Instance M_ret : MRet M := @ret.
#[global] Instance M_bind : MBind M := λ A B k m, bind m k.

Definition get_state : M State := λ st, (st, Ok st).
Definition set_fs (f : gmap Path bytes) : M unit :=
  λ st, (mkState f (heap st) (rng st) (trace st), Ok tt).
Definition set_heap (h : list PIL.Image) : M unit :=
  λ st, (mkState (fs st) h (rng st) (trace st), Ok tt).
Definition emit (ev : Event) : M unit :=
  λ st, (mkState (fs st) (heap st) (rng st) (trace st ++ [ev]), Ok tt).
Definition next_random (env : Env) : M Z :=
  λ st, (mkState (fs st) (heap st) (S (rng st)) (trace st),
         Ok (random_bits env (rng st) mod 2 ^ 53)).

(** *** Primitive statements *)

Definition path_exists (p : Path) : M bool :=
  st ← get_state; mret (bool_decide (is_Some (fs st !! p))).

Definition alloc (im : PIL.Image) : M loc :=
  st ← get_state; set_heap (heap st ++ [im]);; mret (length (heap st)).

Definition deref (l : loc) : M PIL.Image :=
  st ← get_state;
  match heap st !! l with
  | Some im => mret im
  | None => raise (Exception "dangling image reference")
  end.

Definition store (l : loc) (im : PIL.Image) : M unit :=
  st ← get_state; set_heap (<[l := im]> (heap st)).


(** ** Directories

    The directories that exist are a set of paths next to the files; the
    working directory [[]] always exists.  [os.mkdir] is refused by the
    operating system where [denied] says so. *)
Definition is_dir (dirs : gset Path) (p : Path) : bool :=
  bool_decide (p = [] ∨ p ∈ dirs).

(** [Path(base, *segs).mkdir(exist_ok=True, parents=True)], [base] being a
    directory: what is missing is created from the outermost ancestor
    inwards; a file in the way raises. *)
Fixpoint mkdir_from (files : gmap Path bytes) (denied : Path → bool)
    (base : Path) (segs : list string) (dirs : gset Path)
    : gset Path * Result unit :=
  match segs with
  | [] => (dirs, Ok tt)
  | seg :: segs' =>
      let p := base ++ [seg] in
      if is_dir dirs p then mkdir_from files denied p segs' dirs
      else if bool_decide (is_Some (files !! p)) then
        (dirs, Raise (OSError (match segs' with
                               | [] => "File exists"
                               | _ => "Not a directory"
                               end)))
      else if denied p then (dirs, Raise (PermissionError p))
      else mkdir_from files denied p segs' ({[p]} ∪ dirs)
  end.

Definition mkdir (files : gmap Path bytes) (denied : Path → bool)
    (p : Path) (dirs : gset Path) : gset Path * Result unit :=
  mkdir_from files denied [] p dirs.

(** [for p in paths: p.mkdir(exist_ok=True, parents=True)] *)
Fixpoint mkdir_all (files : gmap Path bytes) (denied : Path → bool)
    (paths : list Path) (dirs : gset Path) : gset Path * Result unit :=
  match paths with
  | [] => (dirs, Ok tt)
  | p :: paths' =>
      match mkdir files denied p dirs with
      | (dirs', Ok _) => mkdir_all files denied paths' dirs'
      | (dirs', Raise e) => (dirs', Raise e)
      end
  end.

(** ** What the two downloaders share *)

Section Shared.

Context (env : Env).

(** *** Pillow calls on image objects *)

Definition Image_new (mode : string) (size : Z * Z) (color : list Z) : M loc :=
  alloc (PIL.new mode size color).

(** [self.paste(im, mask)]: [self] is changed in place. *)
Definition Image_paste (self im mask : loc) : M unit :=
  s ← deref self; i ← deref im; m ← deref mask;
  store self (PIL.paste s i m).

(** [self.convert(mode)]: a new image; RGBA to RGB drops the alpha band. *)
Definition Image_convert (self : loc) (mode : string) : M loc :=
  im ← deref self;
  if bool_decide (PIL.mode im = mode) then alloc (PIL.copy im)
  else if bool_decide (PIL.mode im = "RGBA") && bool_decide (mode = "RGB")
  then alloc (PIL.mkImage None mode (PIL.size im) (take 3 <$> PIL.data im))
  else match pil_convert env im mode with
       | Some d => alloc (PIL.mkImage None mode (PIL.size im) d)
       | None => raise (ValueError "conversion not supported")
       end.

Definition Image_copy (self : loc) : M loc :=
  im ← deref self; alloc (PIL.copy im).

(** [self.thumbnail(size, Image.ANTIALIAS)]: [self] is changed in place. *)
Definition Image_thumbnail (self : loc) (size : Z * Z) : M unit :=
  im ← deref self;
  let sz := PIL.thumbnail_size (PIL.size im) size in
  if bool_decide (sz = PIL.size im) then mret tt
  else if (fst sz <? 1) || (snd sz <? 1)
  then raise (ValueError "height and width must be > 0")
  else store self (PIL.mkImage (PIL.format im) (PIL.mode im) sz
                               (pil_resize env im sz)).

(** [buf = BytesIO(); self.save(buf, fmt)]: the value of [buf]. *)
Definition Image_save (self : loc) (fmt : string) : M bytes :=
  im ← deref self;
  if bool_decide (fmt = "JPEG") then
    if bool_decide (PIL.mode im ∈ PIL.jpeg_modes) then
      match jpeg_encode env im with
      | Some b => mret b
      | None => raise (OSError "encoder error")
      end
    else raise (OSError "cannot write mode as JPEG")
  else raise (ValueError "unknown file extension").

(** [Image.open(BytesIO(content))] *)
Definition Image_open (content : bytes) : M loc :=
  match image_decode env content with
  | Some im => alloc im
  | None => raise UnidentifiedImageError
  end.

(** [Image.open(str(path))] *)
Definition Image_open_path (path : Path) : M loc :=
  st ← get_state;
  match fs st !! path with
  | Some content => Image_open content
  | None => raise (FileNotFoundError path)
  end.

(** *** [random] and [time.sleep] *)

(** [random.choice(seq)] *)
Definition random_choice {A} (seq : list A) : M A :=
  match seq with
  | [] => raise IndexError
  | _ =>
      r ← next_random env;
      match seq !! Z.to_nat (r mod Z.of_nat (length seq)) with
      | Some x => mret x
      | None => raise IndexError
      end
  end.

(** [random.uniform(a, b)] is [a + (b - a) * random()] *)
Definition random_uniform (a b : Q) : M Q :=
  r ← next_random env;
  mret (a + (b - a) * (r # 9007199254740992))%Q.

Definition sleep (d : Q) : M unit :=
  if Qle_bool 0 d then emit (EvSleep d)
  else raise (ValueError "sleep length must be non-negative").

(** *** [requests.get] *)
Definition requests_get (url : string) (timeout : Q)
    (proxies : option Proxy) (headers : Headers) : M bytes :=
  emit (EvGet url proxies);;
  match http_get env url timeout proxies headers with
  | Some content => mret content
  | None => raise (RequestException url)
  end.

(** *** [convert_image] *)
Definition convert_image (img : loc) (size : option (Z * Z))
    : M (loc * bytes) :=
  im ← deref img;
  img ← (if bool_decide (PIL.format im = Some "PNG")
            && bool_decide (PIL.mode im = "RGBA") then
           background ← Image_new "RGBA" (PIL.size im) [255; 255; 255];
           Image_paste background img img;;
           Image_convert background "RGB"
         else if bool_decide (PIL.mode im = "P") then
           img ← Image_convert img "RGBA";
           im ← deref img;
           background ← Image_new "RGBA" (PIL.size im) [255; 255; 255];
           Image_paste background img img;;
           Image_convert background "RGB"
         else if bool_decide (PIL.mode im ≠ "RGB") then
           Image_convert img "RGB"
         else mret img);
  img ← (match size with
         | Some size => img ← Image_copy img; Image_thumbnail img size;; mret img
         | None => mret img
         end);
  buf ← Image_save img "JPEG";
  mret (img, buf).

(** *** [_persist_file] *)
Definition _persist_file (path : Path) (buf : bytes) : M unit :=
  match persist_mode env path buf with
  | OpenFails => raise (PermissionError path)
  | WriteFails =>
      st ← get_state; set_fs (<[path := []]> (fs st));;
      raise (OSError "write failed")
  | WriteOk =>
      st ← get_state; set_fs (<[path := buf]> (fs st));;
      emit (EvWrite path buf)
  end.

(** *** [file_path], given [self.store_path] *)
Definition file_path_of (store_path : Path) (url : string) : Path :=
  let image_guid := SHA1.hexdigest (to_bytes url) in
  Path_join store_path [image_guid +:+ ".jpg"].

End Shared.

(** ** [convert_image] as a function of the image

    The same statements read as equations on image values: which image
    objects a call creates and what it returns. *)

Definition with_heap (st : State) (h : list PIL.Image) : State :=
  mkState (fs st) h (rng st) (trace st).

Section ConvertValue.

Context (env : Env).

Definition drop_alpha (im : PIL.Image) : PIL.Image :=
  PIL.mkImage None "RGB" (PIL.size im) (take 3 <$> PIL.data im).

(** [background = Image.new('RGBA', im.size, (255, 255, 255));
    background.paste(im, im); background.convert('RGB')]: the two objects
    created. *)
Definition flatten (im : PIL.Image) : list PIL.Image :=
  let background :=
    PIL.paste (PIL.new "RGBA" (PIL.size im) [255; 255; 255]) im im in
  [background; drop_alpha background].

(** The objects the mode step creates, oldest first; none for an RGB
    image. *)
Definition canon_objects (im : PIL.Image) : Result (list PIL.Image) :=
  if bool_decide (PIL.format im = Some "PNG")
     && bool_decide (PIL.mode im = "RGBA") then Ok (flatten im)
  else if bool_decide (PIL.mode im = "P") then
    match pil_convert env im "RGBA" with
    | Some d =>
        let rgba := PIL.mkImage None "RGBA" (PIL.size im) d in
        Ok (rgba :: flatten rgba)
    | None => Raise (ValueError "conversion not supported")
    end
  else if bool_decide (PIL.mode im ≠ "RGB") then
    if bool_decide (PIL.mode im = "RGBA") then Ok [drop_alpha im]
    else match pil_convert env im "RGB" with
         | Some d => Ok [PIL.mkImage None "RGB" (PIL.size im) d]
         | None => Raise (ValueError "conversion not supported")
         end
  else Ok [].

(** The image the mode step hands on. *)
Definition canonical (im : PIL.Image) : Result PIL.Image :=
  objs ← canon_objects im; Ok (List.last objs im).

(** What [copy] followed by [thumbnail(size)] leaves in the copy. *)
Definition thumb_object (im : PIL.Image) (size : Z * Z) : Result PIL.Image :=
  let c := PIL.copy im in
  let sz := PIL.thumbnail_size (PIL.size c) size in
  if bool_decide (sz = PIL.size c) then Ok c
  else if (fst sz <? 1) || (snd sz <? 1)
  then Raise (ValueError "height and width must be > 0")
  else Ok (PIL.mkImage None (PIL.mode c) sz (pil_resize env c sz)).

Definition save_value (im : PIL.Image) : Result bytes :=
  if bool_decide (PIL.mode im ∈ PIL.jpeg_modes) then
    match jpeg_encode env im with
    | Some b => Ok b
    | None => Raise (OSError "encoder error")
    end
  else Raise (OSError "cannot write mode as JPEG").

(** The JPEG stream of [convert_image(im)], no size given. *)
Definition encoded (im : PIL.Image) : Result bytes :=
  c ← canonical im; save_value c.


(** The whole call on a heap [h] holding [im] at [img]: the heap it
    leaves and what it returns or raises. *)
Definition convert_value (h : list PIL.Image) (img : loc) (im : PIL.Image)
    (size : option (Z * Z)) : list PIL.Image * Result (loc * bytes) :=
  match canon_objects im with
  | Raise e => (h, Raise e)
  | Ok objs =>
      let h1 := h ++ objs in
      let img1 := match objs with [] => img | _ => pred (length h1) end in
      let im1 := List.last objs im in
      match size with
      | None => (h1, buf ← save_value im1; Ok (img1, buf))
      | Some size =>
          match thumb_object im1 size with
          | Raise e => (h1 ++ [PIL.copy im1], Raise e)
          | Ok t => (h1 ++ [t], buf ← save_value t; Ok (length h1, buf))
          end
      end
  end.

End ConvertValue.

(** ** The colour step in the spec's words *)

(** One RGBA pixel composited on opaque white, alpha dropped. *)
Definition on_white (p : Pixel) : Pixel :=
  match p with
  | [r; g; b; a] => [PIL.blend a 255 r; PIL.blend a 255 g; PIL.blend a 255 b]
  | _ => take 3 p
  end.

(** A raster of four-band pixels filling the image. *)
Definition rgba_raster (im : PIL.Image) : Prop :=
  length (PIL.data im) = Z.to_nat (fst (PIL.size im) * snd (PIL.size im))
  ∧ Forall (λ p, length p = 4%nat) (PIL.data im).

(** ** Arguments of dynamic type *)

(** [proxies]: [None], a string, a list of strings or a dict. *)
Inductive ProxiesArg :=
| ProxiesNone
| ProxiesStr (s : string)
| ProxiesList (l : list string)
| ProxiesDict (d : Proxy).

(** [self.proxies] once resolved. *)
Inductive ProxiesAttr :=
| AttrNone
| AttrDict (d : Proxy)
| AttrList (l : list Proxy).

(** [thumbs_size]: [None], a dict name -> (width, height) in insertion order,
    a list of edge lengths, or a value of another type. *)
Inductive ThumbsArg :=
| ThumbsNone
| ThumbsDict (d : list (string * (Z * Z)))
| ThumbsList (l : list Z)
| ThumbsOther.

(** [urls]: a string, an iterable of strings, or neither. *)
Inductive UrlsArg :=
| UrlsStr (url : string)
| UrlsList (urls : list string)
| UrlsOther.

Definition is_none (proxies : ProxiesArg) : bool :=
  match proxies with ProxiesNone => true | _ => false end.
Definition is_list (proxies : ProxiesArg) : bool :=
  match proxies with ProxiesList _ => true | _ => false end.
Definition is_dict (proxies : ProxiesArg) : bool :=
  match proxies with ProxiesDict _ => true | _ => false end.
Definition thumbs_is_list (thumbs_size : ThumbsArg) : bool :=
  match thumbs_size with ThumbsList _ => true | _ => false end.

(** [{"http": proxy, "https": proxy}] *)
Definition format_as_dict (proxy : string) : Proxy :=
  <["https" := proxy]> (<["http" := proxy]> ∅).

(** [d[k] = v] on a dict kept in insertion order. *)
Fixpoint dict_set {V} (k : string) (v : V) (d : list (string * V))
    : list (string * V) :=
  match d with
  | [] => [(k, v)]
  | (k', v') :: d' =>
      if bool_decide (k' = k) then (k, v) :: d' else (k', v') :: dict_set k v d'
  end.

(** ** The worker pool

    [executor.submit(task, url, force)] for every URL creates one future per
    position of the input; a future keeps what its task returned or raised.
    Tasks are taken as atomic steps: [sched] is the order in which the pool
    runs them, [done] the order in which [as_completed] hands them back. *)

Record Pool := mkPool { sched : list nat; done_order : list nat }.

Fixpoint run_pool {A} (task : string → M A) (urls : list string)
    (order : list nat) (futures : gmap nat (Result A)) (st : State)
    : State * gmap nat (Result A) :=
  match order with
  | [] => (st, futures)
  | i :: order' =>
      match urls !! i with
      | Some url =>
          let '(st', r) := task url st in
          run_pool task urls order' (<[i := r]> futures) st'
      | None => run_pool task urls order' futures st
      end
  end.

(** ** imagedownloader/downloader.py *)

Module Imagedownloader.

Record ImageDownloader := mkImageDownloader {
  store_path : Path;
  timeout : Q;
  min_wait : Q;
  max_wait : Q;
  n_workers : Z;
  notebook : bool;
  headers : Headers;
  proxies : ProxiesAttr;
  thumbs_size : list (string * (Z * Z))
}.

(** [thumbs_size or {}] *)
Definition or_empty (thumbs_size : ThumbsArg) : ThumbsArg :=
  match thumbs_size with
  | ThumbsNone | ThumbsDict [] | ThumbsList [] => ThumbsDict []
  | _ => thumbs_size
  end.

Definition __init__ (store_path : Path) (n_workers : Z) (thumbs : bool)
    (thumbs_size : ThumbsArg) (timeout min_wait max_wait : Q)
    (proxies : ProxiesArg) (headers : Headers) (user_agent : option string)
    (notebook : bool) : Result ImageDownloader :=
  let headers :=
    match user_agent with
    | Some ua => <["User-Agent" := ua]> headers
    | None => headers
    end in
  (if is_none proxies || is_list proxies || is_dict proxies then Ok tt
   else Raise (AssertionError
                 "proxies should be either a list or a list of dicts"));;
  self_proxies ←
    (if is_dict proxies then
       match proxies with ProxiesDict d => Ok (AttrDict d) | _ => Ok AttrNone end
     else if thumbs_is_list thumbs_size then
       match proxies with
       | ProxiesList l => Ok (AttrList (format_as_dict <$> l))
       | _ => Raise TypeError
       end
     else Ok AttrNone);
  let thumbs_size := or_empty thumbs_size in
  self_thumbs_size ←
    (if thumbs then
       match thumbs_size with
       | ThumbsDict d => Ok d
       | ThumbsList l =>
           Ok (foldl (λ d thumb, dict_set (pretty thumb) (thumb, thumb) d) [] l)
       | _ => Raise (Exception "thumbs_size must be a dictionary or a list")
       end
     else Ok []);
  Ok (mkImageDownloader store_path timeout min_wait max_wait n_workers
        notebook headers self_proxies self_thumbs_size).

Section Methods.

Context (env : Env) (self : ImageDownloader).

Definition get_proxy : M (option Proxy) :=
  match proxies self with
  | AttrList l => p ← random_choice env l; mret (Some p)
  | AttrDict d => mret (Some d)
  | AttrNone => mret None
  end.

Definition file_path (url : string) : Path :=
  file_path_of (store_path self) url.

Definition thumb_path (url : string) (thumb_id : string) : Path :=
  let thumb_guid := SHA1.hexdigest (to_bytes url) in
  Path_join (store_path self) ["thumbs"; thumb_id; thumb_guid +:+ ".jpg"].

(** The loop over [self.thumbs_size.items()]; [orig_img] is the variable
    of that name, [None] until an image has been opened. *)
Fixpoint thumbs_loop (url : string) (force : bool) (path : Path)
    (items : list (string * (Z * Z))) (orig_img : option loc) : M unit :=
  match items with
  | [] => mret tt
  | (thumb_id, size) :: items' =>
      let thumb_path := thumb_path url thumb_id in
      ex ← path_exists thumb_path;
      orig_img ← (if negb ex || force then
                    orig_img ← (match orig_img with
                                | Some img => mret img
                                | None => Image_open_path env path
                                end);
                    '(thumb_image, thumb_buf) ←
                      convert_image env orig_img (Some size);
                    _persist_file env thumb_path thumb_buf;;
                    mret (Some orig_img)
                  else mret orig_img);
      thumbs_loop url force path items' orig_img
  end.

Definition download_image (url : string) (force : bool) : M Path :=
  let path := file_path url in
  ex ← path_exists path;
  orig_img ← (if negb ex || force then
                proxy ← get_proxy;
                content ← requests_get env url (timeout self) proxy
                            (headers self);
                orig_img ← Image_open env content;
                '(img, buf) ← convert_image env orig_img None;
                _persist_file env path buf;;
                d ← random_uniform env (min_wait self) (max_wait self);
                sleep d;;
                mret (Some orig_img)
              else mret None);
  thumbs_loop url force path (thumbs_size self) orig_img;;
  mret path.

Inductive CallResult :=
| RPath (p : Path)
| RDict (paths : gmap string (option Path)).

(** The loop over [as_completed(future_to_url)]. *)
Definition collect (urls : list string)
    (futures : gmap nat (Result Path)) (order : list nat)
    : gmap string (option Path) :=
  foldl (λ paths i,
           match urls !! i, futures !! i with
           | Some url, Some (Raise _) => <[url := None]> paths
           | Some url, Some (Ok p) => <[url := Some p]> paths
           | _, _ => paths
           end) ∅ order.

Definition __call__ (urls : UrlsArg) (force : bool) (pool : Pool)
    : M CallResult :=
  match urls with
  | UrlsStr url => p ← download_image url force; mret (RPath p)
  | UrlsOther => raise (AssertionError "urls should be str or iterable")
  | UrlsList urls =>
      λ st,
        let '(st', futures) :=
          run_pool (λ url, download_image url force) urls (sched pool) ∅ st in
        (st', Ok (RDict (collect urls futures (done_order pool))))
  end.

End Methods.

(** [_makedirs]: the store root and one directory per thumbnail spec. *)
Definition _makedirs (self : ImageDownloader) (files : gmap Path bytes)
    (denied : Path → bool) (dirs : gset Path) : gset Path * Result unit :=
  let subdirs :=
    "."%string :: ((λ size, "thumbs/" +:+ size) <$> (thumbs_size self).*1) in
  mkdir_all files denied
    ((λ subdir, Path_join (store_path self) (Path_parts subdir)) <$> subdirs)
    dirs.

(** The loop over [as_completed(future_to_url)] with [paths] as the dict it
    is: the keys in the order of their first insertion. *)
Definition collect_items (urls : list string)
    (futures : gmap nat (Result Path)) (order : list nat)
    : list (string * option Path) :=
  foldl (λ paths i,
           match urls !! i, futures !! i with
           | Some url, Some (Raise _) => dict_set url None paths
           | Some url, Some (Ok p) => dict_set url (Some p) paths
           | _, _ => paths
           end) [] order.

(** What [download] raises: an exception of the constructor or of the call,
    or the one of [results.items()] on a value that is no dict. *)
Inductive DownloadExc :=
| Raised (e : Exc)
| AttributeError (msg : string).

(** The module-level [download]: build a downloader, call it, and list
    [str(response)] (or [None]) over [results.items()]. *)
Definition download (env : Env) (iterator : UrlsArg) (store_path : Path)
    (thumbs : bool) (thumbs_size : ThumbsArg) (n_workers : Z)
    (timeout min_wait max_wait : Q) (proxies : ProxiesArg) (headers : Headers)
    (user_agent : option string) (force notebook : bool) (pool : Pool)
    : State → State * (DownloadExc + list (option string)) :=
  λ st,
    match __init__ store_path n_workers thumbs thumbs_size timeout min_wait
            max_wait proxies headers user_agent notebook with
    | Raise e => (st, inl (Raised e))
    | Ok downloader =>
        match iterator with
        | UrlsStr url =>
            match download_image env downloader url force st with
            | (st', Ok results) =>
                (st', inl (AttributeError
                             "'PosixPath' object has no attribute 'items'"))
            | (st', Raise e) => (st', inl (Raised e))
            end
        | UrlsOther =>
            (st, inl (Raised (AssertionError "urls should be str or iterable")))
        | UrlsList urls =>
            let '(st', futures) :=
              run_pool (λ url, download_image env downloader url force) urls
                       (sched pool) ∅ st in
            let results := collect_items urls futures (done_order pool) in
            (st', inr ((λ item : string * option Path,
                         let '(url, response) := item in Path_str <$> response)
                      <$> results))
        end
    end.

End Imagedownloader.

(** ** imgdl/downloader.py *)

Module Imgdl.

(** A [requests.Session] as far as the downloader configures it. *)
Record Session := mkSession {
  session_proxies : Proxy;
  session_headers : Headers
}.

(** [make_session(proxies, headers)] *)
Definition make_session (proxies : option Proxy) (headers : option Headers)
    : Session :=
  mkSession (default ∅ proxies) (default ∅ headers).

Record ImageDownloader := mkImageDownloader {
  store_path : Path;
  n_workers : Z;
  timeout : Q;
  min_wait : Q;
  max_wait : Q;
  proxies : option (list Proxy);
  headers : Headers;
  user_agent : string;
  notebook : bool;
  debug : bool
}.

(** The validator of [proxies]. *)
Definition resolve_proxies (value : ProxiesArg) : Result (option (list Proxy)) :=
  match value with
  | ProxiesStr s => Ok (Some [format_as_dict s])
  | ProxiesList ((_ :: _) as l) => Ok (Some (format_as_dict <$> l))
  | ProxiesNone => Ok None
  | _ => Raise (ValueError
                  "proxies should be either a string, a list of strings or None")
  end.

(** The generated [__init__]: converters, then the validators in the order
    of the attributes. *)
Definition __init__ (store_path : Path) (n_workers : Z)
    (timeout min_wait max_wait : Q) (proxies : ProxiesArg)
    (headers : Headers) (user_agent : option string) (notebook debug : bool)
    : Result ImageDownloader :=
  let user_agent := default "None"%string user_agent in
  self_proxies ← resolve_proxies proxies;
  let headers := <["User-Agent" := user_agent]> headers in
  Ok (mkImageDownloader store_path n_workers timeout min_wait max_wait
        self_proxies headers user_agent notebook debug).

Section Methods.

Context (env : Env) (self : ImageDownloader).

Definition get_proxy : M (option Proxy) :=
  match proxies self with
  | Some l => p ← random_choice env l; mret (Some p)
  | None => mret None
  end.

Definition file_path (url : string) : Path :=
  file_path_of (store_path self) url.

(** [session.get(url, timeout=timeout)] *)
Definition session_get (session : Session) (url : string) (timeout : Q)
    : M bytes :=
  let proxy := if bool_decide (session_proxies session = ∅) then None
               else Some (session_proxies session) in
  requests_get env url timeout proxy (session_headers session).

Definition _download_image (url : string) (force : bool)
    (session : option Session) (timeout : option Q) : M Path :=
  session ← (match session with
             | Some s => mret s
             | None =>
                 proxy ← get_proxy;
                 mret (make_session proxy (Some (headers self)))
             end);
  let timeout :=
    match timeout with
    | Some t => if Qeq_bool t 0 then Imgdl.timeout self else t
    | None => Imgdl.timeout self
    end in
  let path := file_path url in
  ex ← path_exists path;
  (if negb ex || force then
     content ← session_get session url timeout;
     orig_img ← Image_open env content;
     '(img, buf) ← convert_image env orig_img None;
     _persist_file env path buf;;
     d ← random_uniform env (min_wait self) (max_wait self);
     sleep d
   else mret tt);;
  mret path.

Inductive CallResult :=
| RStr (p : string)
| RList (paths : list (option string)).

(** The loop over [as_completed(future_to_url)]. *)
Definition collect (futures : gmap nat (Result Path)) (order : list nat)
    (paths : list (option string)) : list (option string) :=
  foldl (λ paths i,
           match futures !! i with
           | Some (Ok p) => <[i := Some (Path_str p)]> paths
           | _ => paths
           end) paths order.

Definition __call__ (urls : UrlsArg) (force : bool) (pool : Pool)
    : M CallResult :=
  match urls with
  | UrlsOther => raise (ValueError "urls should be str or iterable")
  | UrlsStr url =>
      p ← _download_image url force None None; mret (RStr (Path_str p))
  | UrlsList urls =>
      λ st,
        let '(st', futures) :=
          run_pool (λ url, _download_image url force None None) urls
                   (sched pool) ∅ st in
        let total := length urls in
        (st', Ok (RList (collect futures (done_order pool)
                                 (replicate total None))))
  end.

End Methods.

(** The module-level [download]: build a downloader and call it. *)
Definition download (env : Env) (urls : UrlsArg) (store_path : Path)
    (n_workers : Z) (timeout min_wait max_wait : Q) (proxies : ProxiesArg)
    (headers : Headers) (user_agent : option string)
    (notebook debug force : bool) (pool : Pool) : M CallResult :=
  match __init__ store_path n_workers timeout min_wait max_wait proxies
          headers user_agent notebook debug with
  | Raise e => raise e
  | Ok downloader => __call__ env downloader urls force pool
  end.

End Imgdl.

(** ** imagedownloader/cli.py: reading the list of URLs

    [main] reads the file named on the command line with
    [[url.strip('\n') for url in fh.readlines()]].  The text is the content
    of the file as Python hands it out in text mode, line ends already
    translated to the newline character. *)

Module Cli.

Definition newline : ascii := "010"%char.

(** [fh.readlines()]: the lines in order, each with the newline that ends
    it; the last one has none when the text does not end in one. *)
Fixpoint readlines (text : string) : list string :=
  match text with
  | EmptyString => []
  | String c rest =>
      if Ascii.eqb c newline then String c EmptyString :: readlines rest
      else match readlines rest with
           | line :: lines => String c line :: lines
           | [] => [String c EmptyString]
           end
  end.

(** [s.lstrip('\n')] and [s.rstrip('\n')] *)
Fixpoint lstrip (s : string) : string :=
  match s with
  | EmptyString => EmptyString
  | String c rest => if Ascii.eqb c newline then lstrip rest else s
  end.

Fixpoint rstrip (s : string) : string :=
  match s with
  | EmptyString => EmptyString
  | String c rest =>
      match rstrip rest with
      | EmptyString => if Ascii.eqb c newline then EmptyString
                       else String c EmptyString
      | rest' => String c rest'
      end
  end.

(** [s.strip('\n')] *)
Definition strip (s : string) : string := rstrip (lstrip s).

(** [urls = [url.strip('\n') for url in fh.readlines()]] *)
Definition read_urls (text : string) : list string :=
  strip <$> readlines text.

End Cli.

(** ** The fetch-decode-persist sequence

    Both downloaders run the same statements once a proxy is chosen.
    [fetch_outcome] lists the ways one run of them can end. *)

Section Fetch.

Context (env : Env).
Context (url : string) (timeout : Q) (proxy : option Proxy)
        (headers : Headers) (min_wait max_wait : Q) (path : Path).

Definition fetch_core : M loc :=
  content ← requests_get env url timeout proxy headers;
  orig_img ← Image_open env content;
  '(img, buf) ← convert_image env orig_img None;
  _persist_file env path buf;;
  d ← random_uniform env min_wait max_wait;
  sleep d;;
  mret orig_img.

(** The duration [random.uniform] draws in state [st]. *)
Definition wait_of (st : State) : Q :=
  (min_wait + (max_wait - min_wait)
              * ((random_bits env (rng st) mod 2 ^ 53) # 9007199254740992))%Q.

(** The heap and the result of [convert_image(orig_img)] on a freshly
    opened image. *)
Definition encode_fresh (st : State) (im : PIL.Image)
    : list PIL.Image * Result (loc * bytes) :=
  convert_value env (heap st ++ [im]) (length (heap st)) im None.

Inductive fetch_outcome (st : State) : State → Result loc → Prop :=
| FetchFailed :
    http_get env url timeout proxy headers = None →
    fetch_outcome st
      (mkState (fs st) (heap st) (rng st) (trace st ++ [EvGet url proxy]))
      (Raise (RequestException url))
| DecodeFailed content :
    http_get env url timeout proxy headers = Some content →
    image_decode env content = None →
    fetch_outcome st
      (mkState (fs st) (heap st) (rng st) (trace st ++ [EvGet url proxy]))
      (Raise UnidentifiedImageError)
| EncodeFailed content im e :
    http_get env url timeout proxy headers = Some content →
    image_decode env content = Some im →
    (encode_fresh st im).2 = Raise e →
    fetch_outcome st
      (mkState (fs st) (encode_fresh st im).1 (rng st)
               (trace st ++ [EvGet url proxy]))
      (Raise e)
| OpenFailed content im img buf :
    http_get env url timeout proxy headers = Some content →
    image_decode env content = Some im →
    (encode_fresh st im).2 = Ok (img, buf) →
    persist_mode env path buf = OpenFails →
    fetch_outcome st
      (mkState (fs st) (encode_fresh st im).1 (rng st)
               (trace st ++ [EvGet url proxy]))
      (Raise (PermissionError path))
| WriteFailed content im img buf :
    http_get env url timeout proxy headers = Some content →
    image_decode env content = Some im →
    (encode_fresh st im).2 = Ok (img, buf) →
    persist_mode env path buf = WriteFails →
    fetch_outcome st
      (mkState (<[path := []]> (fs st)) (encode_fresh st im).1 (rng st)
               (trace st ++ [EvGet url proxy]))
      (Raise (OSError "write failed"))
| SleepFailed content im img buf :
    http_get env url timeout proxy headers = Some content →
    image_decode env content = Some im →
    (encode_fresh st im).2 = Ok (img, buf) →
    persist_mode env path buf = WriteOk →
    Qle_bool 0 (wait_of st) = false →
    fetch_outcome st
      (mkState (<[path := buf]> (fs st)) (encode_fresh st im).1 (S (rng st))
               (trace st ++ [EvGet url proxy; EvWrite path buf]))
      (Raise (ValueError "sleep length must be non-negative"))
| FetchDone content im img buf :
    http_get env url timeout proxy headers = Some content →
    image_decode env content = Some im →
    (encode_fresh st im).2 = Ok (img, buf) →
    persist_mode env path buf = WriteOk →
    Qle_bool 0 (wait_of st) = true →
    fetch_outcome st
      (mkState (<[path := buf]> (fs st)) (encode_fresh st im).1 (S (rng st))
               (trace st ++ [EvGet url proxy; EvWrite path buf;
                             EvSleep (wait_of st)]))
      (Ok (length (heap st))).

End Fetch.

(** Fetch, decode and encode as a value: the buffer handed to
    [_persist_file], or the exception that keeps the code from reaching it. *)
Definition fresh_jpeg (env : Env) (url : string) (timeout : Q)
    (proxy : option Proxy) (headers : Headers) : Result bytes :=
  match http_get env url timeout proxy headers with
  | None => Raise (RequestException url)
  | Some content =>
      match image_decode env content with
      | None => Raise UnidentifiedImageError
      | Some im => encoded env im
      end
  end.

(** The proxies a session made by [make_session(proxies=proxy)] routes a
    request through. *)
Definition session_proxy (proxy : option Proxy) : option Proxy :=
  if bool_decide (default ∅ proxy = ∅) then None else Some (default ∅ proxy).

(** ** A task of [imgdl] that goes out direct, as a function of its file

    What [_download_image] returns and what it leaves at the URL's path when
    no proxy is configured and the wait is not negative, given the file
    found at the path ([None] when there is none). *)
Definition direct_result (env : Env) (self : Imgdl.ImageDownloader)
    (url : string) (force : bool) (file : option bytes) : Result Path :=
  let path := Imgdl.file_path self url in
  if negb (bool_decide (is_Some file)) || force then
    buf ← fresh_jpeg env url (Imgdl.timeout self) None (Imgdl.headers self);
    match persist_mode env path buf with
    | OpenFails => Raise (PermissionError path)
    | WriteFails => Raise (OSError "write failed")
    | WriteOk => Ok path
    end
  else Ok path.

Definition direct_file (env : Env) (self : Imgdl.ImageDownloader)
    (url : string) (force : bool) (file : option bytes) : option bytes :=
  let path := Imgdl.file_path self url in
  if negb (bool_decide (is_Some file)) || force then
    match fresh_jpeg env url (Imgdl.timeout self) None (Imgdl.headers self) with
    | Raise _ => file
    | Ok buf =>
        match persist_mode env path buf with
        | OpenFails => file
        | WriteFails => Some []
        | WriteOk => Some buf
        end
    end
  else file.

(** ** Footprints

    [touches P E st st']: from [st] to [st'] only files satisfying [P] were
    written, no file was removed, and the events logged satisfy [E]. *)
Definition touches (P : Path → Prop) (E : Event → Prop) (st st' : State)
    : Prop :=
  (∀ p, ¬ P p → fs st' !! p = fs st !! p)
  ∧ (∀ p, is_Some (fs st !! p) → is_Some (fs st' !! p))
  ∧ ∃ evs, trace st' = trace st ++ evs ∧ Forall E evs.

Definition outcome {A} (r : Result A) : option A :=
  match r with Ok a => Some a | Raise _ => None end.

Section UrlFootprint.

Context (self : Imagedownloader.ImageDownloader) (url : string).

Definition thumb_event (ev : Event) : Prop :=
  ∃ thumb_id buf,
    ev = EvWrite (Imagedownloader.thumb_path self url thumb_id) buf.

Definition thumb_file (p : Path) : Prop :=
  ∃ thumb_id, p = Imagedownloader.thumb_path self url thumb_id.

Definition url_file (p : Path) : Prop :=
  p = Imagedownloader.file_path self url ∨ thumb_file p.

Definition url_event (ev : Event) : Prop :=
  (∃ proxy, ev = EvGet url proxy)
  ∨ (∃ buf, ev = EvWrite (Imagedownloader.file_path self url) buf)
  ∨ (∃ d, ev = EvSleep d)
  ∨ thumb_event ev.

End UrlFootprint.

(** The events the fetch-decode-persist sequence of [url] can log. *)
Definition fetch_event (url : string) (path : Path) (ev : Event) : Prop :=
  (∃ proxy, ev = EvGet url proxy)
  ∨ (∃ buf, ev = EvWrite path buf)
  ∨ (∃ d, ev = EvSleep d).

(** What the result mapping may hold for [url]: the outcome of one of the
    futures submitted for it. *)
Definition recorded (urls : list string) (futures : gmap nat (Result Path))
    (url : string) (o : option Path) : Prop :=
  ∃ i r, urls !! i = Some url ∧ futures !! i = Some r ∧ o = outcome r.

(** What holds of future [i] once it is done, in a later state [s]: it
    belongs to a URL of the input, its result is what a run of that URL's
    task gave, and if that is a path it is the URL's path ([str] reads the
    result as a path) and the file exists. *)
Definition task_post {A} (task : string → M A) (urls : list string)
    (path_of : string → Path) (str : A → Path)
    (i : nat) (r : Result A) (s : State) : Prop :=
  ∃ url, urls !! i = Some url
         ∧ (∃ s0 s1, task url s0 = (s1, r))
         ∧ ∀ p, r = Ok p → str p = path_of url ∧ is_Some (fs s !! path_of url).

(** [self] with another [thumbs_size]. *)
Definition set_thumbs_size (self : Imagedownloader.ImageDownloader)
    (thumbs_size : list (string * (Z * Z))) : Imagedownloader.ImageDownloader :=
  Imagedownloader.mkImageDownloader
    (Imagedownloader.store_path self) (Imagedownloader.timeout self)
    (Imagedownloader.min_wait self) (Imagedownloader.max_wait self)
    (Imagedownloader.n_workers self) (Imagedownloader.notebook self)
    (Imagedownloader.headers self) (Imagedownloader.proxies self)
    thumbs_size.

(** ** Notions for the properties of tasks and batches *)

(** The files of [url] are on disk: the original and the thumbnail of
    every configured spec. *)
Definition stored (self : Imagedownloader.ImageDownloader) (url : string)
    (st : State) : Prop :=
  is_Some (fs st !! Imagedownloader.file_path self url)
  ∧ ∀ thumb_id size, (thumb_id, size) ∈ Imagedownloader.thumbs_size self →
      is_Some (fs st !! Imagedownloader.thumb_path self url thumb_id).

(** From [st] to [st'] no file that was there has changed. *)
Definition keeps_files (st st' : State) : Prop :=
  ∀ p, is_Some (fs st !! p) → fs st' !! p = fs st !! p.

(** The proxies a request of [imgdl] may go through, given the [proxies]
    argument of the constructor: none, the record of the string given, or
    the record of one of the strings of the list given. *)
Definition given_proxy (proxies : ProxiesArg) (proxy : option Proxy) : Prop :=
  match proxies with
  | ProxiesNone => proxy = None
  | ProxiesStr s => proxy = Some (format_as_dict s)
  | ProxiesList l => ∃ p, p ∈ l ∧ proxy = Some (format_as_dict p)
  | ProxiesDict _ => False
  end.

(** The dict comprehension of the constructor of [imagedownloader],
    [{str(thumb): (thumb, thumb) for thumb in thumbs_size}], continued
    from the entries [acc]. *)
Definition thumbs_of_list (acc : list (string * (Z * Z))) (l : list Z)
    : list (string * (Z * Z)) :=
  foldl (λ d thumb, dict_set (pretty thumb) (thumb, thumb) d) acc l.

(** A dict of square specs named by their edge length, no name twice. *)
Definition square_specs (d : list (string * (Z * Z))) : Prop :=
  NoDup d.*1 ∧ ∀ k size, (k, size) ∈ d → ∃ e : Z, k = pretty e ∧ size = (e, e).

(** One round of the loop over [as_completed(future_to_url)] of
    [imagedownloader], on the dict in insertion order and on the dict as a
    map. *)
Definition items_step (urls : list string) (futures : gmap nat (Result Path))
    (paths : list (string * option Path)) (i : nat)
    : list (string * option Path) :=
  match urls !! i, futures !! i with
  | Some url, Some (Raise _) => dict_set url None paths
  | Some url, Some (Ok p) => dict_set url (Some p) paths
  | _, _ => paths
  end.

Definition paths_step (urls : list string) (futures : gmap nat (Result Path))
    (paths : gmap string (option Path)) (i : nat) : gmap string (option Path) :=
  match urls !! i, futures !! i with
  | Some url, Some (Raise _) => <[url := None]> paths
  | Some url, Some (Ok p) => <[url := Some p]> paths
  | _, _ => paths
  end.

(** ** Two sentences of the spec, as written

    Both are refuted below; they are stated here on the model. *)

(** "The rate-limiting sleep is executed if and only if an actual network
    fetch was performed." *)
Definition sleeps_iff_fetched : Prop :=
  ∀ (env : Env) (self : Imagedownloader.ImageDownloader) (url : string)
    (force : bool) (st st' : State) (r : Result Path) (evs : list Event),
    Imagedownloader.download_image env self url force st = (st', r) →
    trace st' = trace st ++ evs →
    (∃ d, EvSleep d ∈ evs) ↔ (∃ proxy, EvGet url proxy ∈ evs).

(** "A failure on one thumbnail spec does not prevent attempting the
    others": a configured spec whose production succeeds when it is the
    only one configured has its thumbnail on disk after the task, whatever
    happens to the other specs. *)
Definition thumbs_independent : Prop :=
  ∀ (env : Env) (self : Imagedownloader.ImageDownloader) (url : string)
    (force : bool) (st st' st_alone : State) (r : Result Path)
    (thumb_id : string) (size : Z * Z) (p : Path),
    Imagedownloader.download_image env self url force st = (st', r) →
    (thumb_id, size) ∈ Imagedownloader.thumbs_size self →
    Imagedownloader.download_image env (set_thumbs_size self [(thumb_id, size)])
      url force st = (st_alone, Ok p) →
    is_Some (fs st' !! Imagedownloader.thumb_path self url thumb_id).

(** ** Sample worlds

    Concrete collaborators, states and downloaders on which the statements
    below are evaluated. *)

Module Samples.

(** A 2x1 RGBA PNG: one opaque pixel, one fully transparent. *)
Definition png_rgba : PIL.Image :=
  PIL.mkImage (Some "PNG"%string) "RGBA" (2, 1)
              [[10; 20; 30; 255]; [200; 100; 0; 0]].

Definition jpeg_rgb : PIL.Image :=
  PIL.mkImage (Some "JPEG"%string) "RGB" (500, 300) [].

(** Three hosts answer: a PNG, a JPEG and a payload that is no image;
    every other request fails.  A stored JPEG is three bytes: a tag and
    the two sides. *)
Definition env : Env := {|
  http_get := λ url _ _ _,
    if bool_decide (url = "https://x/a.png"%string) then Some [1]
    else if bool_decide (url = "https://x/b.jpg"%string) then Some [2]
    else if bool_decide (url = "https://x/junk"%string) then Some [3]
    else None;
  image_decode := λ content,
    match content with
    | [1] => Some png_rgba
    | [2] => Some jpeg_rgb
    | [74; w; h] => Some (PIL.mkImage (Some "JPEG"%string) "RGB" (w, h) [])
    | _ => None
    end;
  pil_convert := λ im mode, Some (PIL.data im);
  pil_resize := λ im size, [];
  jpeg_encode := λ im, Some [74; fst (PIL.size im); snd (PIL.size im)];
  persist_mode := λ path buf, WriteOk;
  random_bits := λ k, Z.of_nat k
|}.

(** The same world with the directory of thumbnail spec "a" read-only. *)
Definition env_ro : Env := {|
  http_get := http_get env;
  image_decode := image_decode env;
  pil_convert := pil_convert env;
  pil_resize := pil_resize env;
  jpeg_encode := jpeg_encode env;
  persist_mode := λ path buf,
    if bool_decide ("a"%string ∈ path) then OpenFails else WriteOk;
  random_bits := random_bits env
|}.

(** The same world with a full disk: files open, writes fail. *)
Definition env_full : Env := {|
  http_get := http_get env;
  image_decode := image_decode env;
  pil_convert := pil_convert env;
  pil_resize := pil_resize env;
  jpeg_encode := jpeg_encode env;
  persist_mode := λ path buf, WriteFails;
  random_bits := random_bits env
|}.

Definition st0 : State := mkState ∅ [] 0 [].

(** A state holding only the RGBA PNG, and one holding only the JPEG. *)
Definition st_png : State := mkState ∅ [png_rgba] 0 [].
Definition st_jpeg : State := mkState ∅ [jpeg_rgb] 0 [].

Definition dl : Imagedownloader.ImageDownloader :=
  Imagedownloader.mkImageDownloader ["imgs"%string] 5 0 0 2 false ∅ AttrNone [].

Definition dl_ab : Imagedownloader.ImageDownloader :=
  set_thumbs_size dl [("a"%string, (100, 100)); ("b"%string, (50, 50))].

Definition dl_b : Imagedownloader.ImageDownloader :=
  set_thumbs_size dl [("b"%string, (50, 50))].

Definition imgdl : Imgdl.ImageDownloader :=
  Imgdl.mkImageDownloader ["imgs"%string] 2 5 0 0 None ∅ "None" false false.

(** A store that already holds a file for the URL that serves no image. *)
Definition st_old : State :=
  mkState {[Imagedownloader.file_path dl "https://x/junk" := [9]]} [] 0 [].

Definition batch : list string :=
  ["https://x/a.png"; "https://x/bad"; "https://x/b.jpg"]%string.

Definition pool : Pool := mkPool [2; 0; 1]%nat [1; 2; 0]%nat.

End Samples.

(** * Properties *)

(** ** Running statements *)

Lemma bind_ok {A B} (m : M A) (k : A → M B) st st' a :
  m st = (st', Ok a) → (m ≫= k) st = k a st'.
Proof. intros H. unfold mbind, M_bind, bind. by rewrite H. Qed.

Lemma bind_raise {A B} (m : M A) (k : A → M B) st st' e :
  m st = (st', Raise e) → (m ≫= k) st = (st', Raise e).
Proof. intros H. unfold mbind, M_bind, bind. by rewrite H. Qed.

Lemma deref_ok st l im : heap st !! l = Some im → deref l st = (st, Ok im).
Proof. intros H. unfold deref, get_state, mbind, M_bind, bind. by rewrite H. Qed.

Lemma alloc_ok st im :
  alloc im st = (with_heap st (heap st ++ [im]), Ok (length (heap st))).
Proof. reflexivity. Qed.

Lemma store_ok st l im :
  store l im st = (with_heap st (<[l := im]> (heap st)), Ok tt).
Proof. reflexivity. Qed.

Lemma with_heap_heap st h : heap (with_heap st h) = h.
Proof. reflexivity. Qed.
Lemma with_heap_with_heap st h h' : with_heap (with_heap st h) h' = with_heap st h'.
Proof. reflexivity. Qed.
Lemma with_heap_id st : with_heap st (heap st) = st.
Proof. by destruct st. Qed.

Section Runs.

Context (env : Env).

Lemma flatten_run st (img : loc) (im : PIL.Image) :
  heap st !! img = Some im →
  (background ← Image_new "RGBA" (PIL.size im) [255; 255; 255];
   Image_paste background img img;;
   Image_convert env background "RGB") st
  = (with_heap st (heap st ++ flatten im), Ok (S (length (heap st)))).
Proof.
  intros Him.
  unfold Image_new. erewrite bind_ok by apply alloc_ok.
  unfold Image_paste.
  assert (Hlt : (img < length (heap st))%nat) by by eapply lookup_lt_Some.
  erewrite bind_ok; cycle 1.
  { erewrite bind_ok; cycle 1.
    { apply deref_ok. rewrite with_heap_heap. apply list_lookup_middle. done. }
    erewrite bind_ok; cycle 1.
    { apply deref_ok. rewrite with_heap_heap, lookup_app_l by done. done. }
    erewrite bind_ok; cycle 1.
    { apply deref_ok. rewrite with_heap_heap, lookup_app_l by done. done. }
    apply store_ok. }
  rewrite with_heap_heap, with_heap_with_heap.
  unfold Image_convert.
  erewrite bind_ok; cycle 1.
  { apply deref_ok. rewrite with_heap_heap.
    rewrite list_lookup_insert_eq; [done|]. rewrite length_app. simpl. lia. }
  cbn [PIL.mode PIL.paste PIL.new].
  rewrite bool_decide_eq_false_2 by done.
  rewrite !bool_decide_eq_true_2 by done. cbn [andb].
  rewrite alloc_ok, with_heap_heap, with_heap_with_heap.
  f_equal; [|by rewrite length_insert, length_app, Nat.add_comm].
  f_equal. 
  rewrite insert_app_r_alt by lia. rewrite Nat.sub_diag. cbn [insert list_insert].
  rewrite <- app_assoc. reflexivity.
Qed.


Lemma Image_convert_run st (img : loc) (im : PIL.Image) (mode : string) :
  heap st !! img = Some im →
  Image_convert env img mode st
  = if bool_decide (PIL.mode im = mode)
    then (with_heap st (heap st ++ [PIL.copy im]), Ok (length (heap st)))
    else if bool_decide (PIL.mode im = "RGBA") && bool_decide (mode = "RGB")
    then (with_heap st (heap st ++ [PIL.mkImage None mode (PIL.size im)
                                      (take 3 <$> PIL.data im)]),
          Ok (length (heap st)))
    else match pil_convert env im mode with
         | Some d => (with_heap st (heap st ++ [PIL.mkImage None mode (PIL.size im) d]),
                      Ok (length (heap st)))
         | None => (st, Raise (ValueError "conversion not supported"))
         end.
Proof.
  intros Him. unfold Image_convert.
  erewrite bind_ok by by apply deref_ok.
  repeat case_match; reflexivity.
Qed.

Lemma canon_run st (img : loc) (im : PIL.Image) :
  heap st !! img = Some im →
  (if bool_decide (PIL.format im = Some "PNG")
      && bool_decide (PIL.mode im = "RGBA") then
     background ← Image_new "RGBA" (PIL.size im) [255; 255; 255];
     Image_paste background img img;;
     Image_convert env background "RGB"
   else if bool_decide (PIL.mode im = "P") then
     img ← Image_convert env img "RGBA";
     im ← deref img;
     background ← Image_new "RGBA" (PIL.size im) [255; 255; 255];
     Image_paste background img img;;
     Image_convert env background "RGB"
   else if bool_decide (PIL.mode im ≠ "RGB") then
     Image_convert env img "RGB"
   else mret img) st
  = match canon_objects env im with
    | Raise e => (st, Raise e)
    | Ok objs =>
        (with_heap st (heap st ++ objs),
         Ok (match objs with [] => img | _ => pred (length (heap st ++ objs)) end))
    end.
Proof.
  intros Him. unfold canon_objects.
  destruct (bool_decide (PIL.format im = Some "PNG")
            && bool_decide (PIL.mode im = "RGBA")) eqn:Hpng.
  { rewrite flatten_run by done. cbn [flatten]. do 2 f_equal.
    rewrite length_app. cbn. lia. }
  destruct (decide (PIL.mode im = "P")) as [HP|HP];
    [rewrite !(bool_decide_eq_true_2 _ HP)|rewrite !(bool_decide_eq_false_2 _ HP)].
  { pose proof (Image_convert_run st img im "RGBA" Him) as Hrun.
    rewrite HP in Hrun. rewrite !bool_decide_eq_false_2 in Hrun by done.
    cbn [andb] in Hrun.
    destruct (pil_convert env im "RGBA") as [d|];
      [|by erewrite bind_raise by exact Hrun].
    erewrite bind_ok by exact Hrun.
    erewrite bind_ok; cycle 1.
    { apply deref_ok. rewrite with_heap_heap. by apply list_lookup_middle. }
    rewrite flatten_run; cycle 1.
    { rewrite with_heap_heap. by apply list_lookup_middle. }
    rewrite with_heap_heap, with_heap_with_heap.
    rewrite <- app_assoc. cbn [app]. do 2 f_equal.
    rewrite !length_app. cbn. lia. }
  destruct (decide (PIL.mode im ≠ "RGB")) as [HRGB|HRGB];
    [rewrite !(bool_decide_eq_true_2 _ HRGB)|rewrite !(bool_decide_eq_false_2 _ HRGB)].
  { rewrite (Image_convert_run _ _ im) by done.
    rewrite bool_decide_eq_false_2 by done.
    rewrite (bool_decide_eq_true_2 ("RGB" = "RGB")%string) by done.
    rewrite andb_true_r.
    destruct (decide (PIL.mode im = "RGBA")) as [HA|HA];
      [rewrite !(bool_decide_eq_true_2 _ HA)|rewrite !(bool_decide_eq_false_2 _ HA)].
    - do 2 f_equal. rewrite length_app. cbn. lia.
    - destruct (pil_convert env im "RGB"); [|done].
      do 2 f_equal. rewrite length_app. cbn. lia. }
  cbn. by rewrite app_nil_r, with_heap_id.
Qed.

Lemma thumb_run st (img : loc) (im : PIL.Image) (size : Z * Z) :
  heap st !! img = Some im →
  (img ← Image_copy img; Image_thumbnail env img size;; mret img) st
  = match thumb_object env im size with
    | Raise e => (with_heap st (heap st ++ [PIL.copy im]), Raise e)
    | Ok t => (with_heap st (heap st ++ [t]), Ok (length (heap st)))
    end.
Proof.
  intros Him. unfold Image_copy.
  erewrite bind_ok; cycle 1.
  { erewrite bind_ok by by apply deref_ok. apply alloc_ok. }
  unfold Image_thumbnail, thumb_object.
  assert (Hc : heap (with_heap st (heap st ++ [PIL.copy im])) !! length (heap st)
               = Some (PIL.copy im)).
  { rewrite with_heap_heap. by apply list_lookup_middle. }
  case_bool_decide as Hsame.
  { erewrite bind_ok; cycle 1.
    { erewrite bind_ok by by apply deref_ok.
      rewrite bool_decide_eq_true_2 by done. reflexivity. }
    reflexivity. }
  destruct ((_ <? 1) || (_ <? 1)) eqn:Hbad.
  { erewrite bind_raise; [reflexivity|].
    erewrite bind_ok by by apply deref_ok.
    rewrite bool_decide_eq_false_2 by done. rewrite Hbad. reflexivity. }
  erewrite bind_ok; cycle 1.
  { erewrite bind_ok by by apply deref_ok.
    rewrite bool_decide_eq_false_2 by done. rewrite Hbad. apply store_ok. }
  rewrite with_heap_heap, with_heap_with_heap.
  rewrite insert_app_r_alt by lia. rewrite Nat.sub_diag. reflexivity.
Qed.

Lemma save_run st (img : loc) (im : PIL.Image) :
  heap st !! img = Some im →
  Image_save env img "JPEG" st = (st, save_value env im).
Proof.
  intros Him. unfold Image_save, save_value.
  erewrite bind_ok by by apply deref_ok.
  rewrite bool_decide_eq_true_2 by done.
  repeat case_match; reflexivity.
Qed.

Lemma last_lookup_pred {A} (h objs : list A) (d : A) :
  objs ≠ [] → (h ++ objs) !! pred (length (h ++ objs)) = Some (List.last objs d).
Proof.
  intros Hne. destruct (exists_last Hne) as (l & y & ->).
  rewrite List.last_last, app_assoc, length_app. cbn.
  rewrite Nat.add_1_r. cbn. by apply list_lookup_middle.
Qed.

Lemma convert_image_run st (img : loc) (im : PIL.Image) (size : option (Z * Z)) :
  heap st !! img = Some im →
  convert_image env img size st
  = (with_heap st (convert_value env (heap st) img im size).1,
     (convert_value env (heap st) img im size).2).
Proof.
  intros Him. unfold convert_image, convert_value.
  erewrite bind_ok by by apply deref_ok.
  destruct (canon_objects env im) as [objs|e] eqn:Hc.
  2: { erewrite bind_raise; [by rewrite with_heap_id|].
       rewrite canon_run by done. by rewrite Hc. }
  erewrite bind_ok; cycle 1.
  { rewrite canon_run by done. by rewrite Hc. }
  set (h1 := heap st ++ objs).
  set (img1 := match objs with [] => img | _ => pred (length h1) end).
  assert (H1 : heap (with_heap st h1) !! img1 = Some (List.last objs im)).
  { rewrite with_heap_heap. subst img1 h1. destruct objs as [|o objs].
    - by rewrite app_nil_r.
    - by apply last_lookup_pred. }
  destruct size as [size|].
  - pose proof (thumb_run (with_heap st h1) img1 _ size H1) as Ht.
    rewrite with_heap_heap, !with_heap_with_heap in Ht.
    destruct (thumb_object env (List.last objs im) size) as [t|e] eqn:Hto.
    2: { by erewrite bind_raise by exact Ht. }
    erewrite bind_ok by exact Ht. rewrite with_heap_with_heap.
    assert (Hs : Image_save env (length h1) "JPEG" (with_heap st (h1 ++ [t]))
                 = (with_heap st (h1 ++ [t]), save_value env t)).
    { apply save_run. rewrite with_heap_heap. by apply list_lookup_middle. }
    destruct (save_value env t) as [buf|e].
    + by erewrite bind_ok by exact Hs.
    + by erewrite bind_raise by exact Hs.
  - erewrite bind_ok by reflexivity.
    pose proof (save_run _ _ _ H1) as Hs.
    destruct (save_value env _) as [buf|e].
    + by erewrite bind_ok by exact Hs.
    + by erewrite bind_raise by exact Hs.
Qed.
End Runs.

Section FetchRuns.

Context (env : Env).

Lemma requests_get_run url timeout proxy headers st :
  requests_get env url timeout proxy headers st
  = (mkState (fs st) (heap st) (rng st) (trace st ++ [EvGet url proxy]),
     match http_get env url timeout proxy headers with
     | Some content => Ok content
     | None => Raise (RequestException url)
     end).
Proof.
  unfold requests_get. erewrite bind_ok by reflexivity.
  by destruct (http_get env url timeout proxy headers).
Qed.

Lemma Image_open_run content st :
  Image_open env content st
  = match image_decode env content with
    | Some im => (with_heap st (heap st ++ [im]), Ok (length (heap st)))
    | None => (st, Raise UnidentifiedImageError)
    end.
Proof. unfold Image_open. by destruct (image_decode env content). Qed.

Lemma _persist_file_run path buf st :
  _persist_file env path buf st
  = match persist_mode env path buf with
    | OpenFails => (st, Raise (PermissionError path))
    | WriteFails =>
        (mkState (<[path := []]> (fs st)) (heap st) (rng st) (trace st),
         Raise (OSError "write failed"))
    | WriteOk =>
        (mkState (<[path := buf]> (fs st)) (heap st) (rng st)
                 (trace st ++ [EvWrite path buf]), Ok tt)
    end.
Proof. unfold _persist_file. by destruct (persist_mode env path buf). Qed.

Lemma fetch_core_outcome url timeout proxy headers min_wait max_wait path st st' r :
  fetch_core env url timeout proxy headers min_wait max_wait path st = (st', r) →
  fetch_outcome env url timeout proxy headers min_wait max_wait path st st' r.
Proof.
  unfold fetch_core.
  pose proof (requests_get_run url timeout proxy headers st) as Hget.
  destruct (http_get env url timeout proxy headers) as [content|] eqn:Hhttp.
  2: { erewrite bind_raise by exact Hget. intros [= <- <-]. by constructor. }
  erewrite bind_ok by exact Hget. clear Hget.
  rewrite (bind_ok _ _ _ _ _ eq_refl) || idtac.
  pose proof (Image_open_run content
    (mkState (fs st) (heap st) (rng st) (trace st ++ [EvGet url proxy]))) as Hopen.
  destruct (image_decode env content) as [im|] eqn:Hdec.
  2: { erewrite bind_raise by exact Hopen. intros [= <- <-].
       by eapply DecodeFailed. }
  erewrite bind_ok by exact Hopen. clear Hopen.
  set (tr1 := trace st ++ [EvGet url proxy]).
  pose proof (convert_image_run env
    (with_heap (mkState (fs st) (heap st) (rng st) tr1) (heap st ++ [im]))
    (length (heap st)) im None) as Hconv.
  cbn [heap with_heap fs rng trace] in Hconv.
  specialize (Hconv (list_lookup_middle _ _ _ _ eq_refl)).
  fold (encode_fresh env st im) in Hconv.
  unfold with_heap in Hconv. cbn [heap fs rng trace] in Hconv.
  destruct (encode_fresh env st im).2 as [[img buf]|e] eqn:Henc.
  2: { erewrite bind_raise by exact Hconv. intros [= <- <-].
       subst tr1. by eapply EncodeFailed. }
  erewrite bind_ok by exact Hconv. clear Hconv.
  pose proof (_persist_file_run path buf
    (mkState (fs st) (encode_fresh env st im).1 (rng st) tr1)) as Hper.
  cbn [heap with_heap fs rng trace] in Hper.
  destruct (persist_mode env path buf) eqn:Hmode.
  { erewrite bind_raise by exact Hper. intros [= <- <-].
    subst tr1. by eapply OpenFailed. }
  { erewrite bind_raise by exact Hper. intros [= <- <-].
    subst tr1. by eapply WriteFailed. }
  erewrite bind_ok by exact Hper. clear Hper.
  erewrite bind_ok by reflexivity. cbn [heap with_heap fs rng trace].
  unfold sleep. fold (wait_of env min_wait max_wait st).
  destruct (Qle_bool 0 (wait_of env min_wait max_wait st)) eqn:Hw.
  - erewrite bind_ok by reflexivity. intros [= <- <-].
    subst tr1. rewrite <- !app_assoc. cbn [app]. by eapply FetchDone.
  - erewrite bind_raise by reflexivity. intros [= <- <-].
    subst tr1. rewrite <- !app_assoc. by eapply SleepFailed.
Qed.

End FetchRuns.

(** ** Paths *)






Lemma hex_word_length (n : nat) (x : Z) : String.length (SHA1.hex_word n x) = n.
Proof. induction n; cbn; congruence. Qed.


Lemma string_length_app (s t : string) :
  String.length (s +:+ t) = (String.length s + String.length t)%nat.
Proof.
  induction s as [|a s IH]; [done|].
  change (String a s +:+ t) with (String a (s +:+ t)). cbn. by rewrite IH.
Qed.

Lemma hexdigest_length (msg : bytes) : String.length (SHA1.hexdigest msg) = 40%nat.
Proof.
  unfold SHA1.hexdigest. destruct (SHA1.digest msg) as [[[[h0 h1] h2] h3] h4].
  rewrite !string_length_app, !hex_word_length. reflexivity.
Qed.


Lemma string_app_inj_length (a b s t : string) :
  String.length a = String.length b → a +:+ s = b +:+ t → a = b.
Proof.
  revert b. induction a as [|x a IH]; intros [|y b]; cbn; try done.
  change (String x a +:+ s) with (String x (a +:+ s)).
  change (String y b +:+ t) with (String y (b +:+ t)).
  intros [= Hl] [= -> Happ]. f_equal. by apply IH.
Qed.

Lemma file_path_inj (sp : Path) (u1 u2 : string) :
  file_path_of sp u1 = file_path_of sp u2 →
  SHA1.hexdigest (to_bytes u1) = SHA1.hexdigest (to_bytes u2).
Proof.
  unfold file_path_of, Path_join. intros [= H]%app_inv_head.
  eapply string_app_inj_length; [|exact H].
  by rewrite !hexdigest_length.
Qed.

(** ** Pillow: colour and size *)

Lemma paste_data_self (d : list Pixel) (ink : Pixel) (n : nat) :
  n = length d →
  PIL.paste_data (replicate n ink) d d = (λ p, PIL.paste_px ink p p) <$> d.
Proof.
  intros ->. induction d as [|p d IH]; [done|]. cbn. by rewrite IH.
Qed.

Lemma flatten_on_white (im : PIL.Image) :
  rgba_raster im →
  drop_alpha (PIL.paste (PIL.new "RGBA" (PIL.size im) [255; 255; 255]) im im)
  = PIL.mkImage None "RGB" (PIL.size im) (on_white <$> PIL.data im).
Proof.
  intros [Hlen Hpx]. unfold drop_alpha, PIL.paste, PIL.new. cbn.
  f_equal. rewrite paste_data_self by done.
  rewrite <- list_fmap_compose. apply Forall_fmap_ext_1.
  eapply Forall_impl; [exact Hpx|]. intros p Hp. cbn.
  destruct p as [|r [|g [|b [|a [|]]]]]; try done.
Qed.

Lemma blend_opaque (c : Z) : PIL.blend 255 255 c = c.
Proof. unfold PIL.blend. rewrite Z.sub_diag, Z.mul_0_r, Z.add_0_l.
  rewrite Z.div_add_l by lia. change (127 / 255) with 0. lia. Qed.

Lemma blend_transparent (c : Z) : PIL.blend 0 255 c = 255.
Proof. unfold PIL.blend. by rewrite Z.mul_0_r. Qed.

Lemma blend_range (a c : Z) :
  0 ≤ a ≤ 255 → 0 ≤ c ≤ 255 → c ≤ PIL.blend a 255 c ≤ 255.
Proof.
  intros Ha Hc. unfold PIL.blend. split.
  - apply Z.div_le_lower_bound; [lia|].
    assert (0 ≤ (255 - c) * (255 - a)) by (apply Z.mul_nonneg_nonneg; lia). lia.
  - assert (0 ≤ (255 - c) * a) by (apply Z.mul_nonneg_nonneg; lia).
    cut ((255 * (255 - a) + c * a + 127) / 255 < 256); [lia|].
    apply Z.div_lt_upper_bound; lia.
Qed.

Section CanonicalMode.
Context (env : Env).

Lemma canonical_mode (im c : PIL.Image) :
  canonical env im = Ok c → PIL.mode c = "RGB"%string ∧ PIL.size c = PIL.size im.
Proof.
  unfold canonical, canon_objects.
  destruct (bool_decide (PIL.format im = Some "PNG"%string)
            && bool_decide (PIL.mode im = "RGBA"%string)).
  { cbn. by intros [= <-]. }
  destruct (decide (PIL.mode im = "P"%string)) as [HP|HP];
    [rewrite !(bool_decide_eq_true_2 _ HP)|rewrite !(bool_decide_eq_false_2 _ HP)].
  { destruct (pil_convert env im "RGBA"); cbn; [|done]. by intros [= <-]. }
  destruct (decide (PIL.mode im ≠ "RGB"%string)) as [HRGB|HRGB];
    [rewrite !(bool_decide_eq_true_2 _ HRGB)|rewrite !(bool_decide_eq_false_2 _ HRGB)].
  { case_bool_decide; cbn; [by intros [= <-]|].
    destruct (pil_convert env im "RGB"); cbn; [|done]. by intros [= <-]. }
  cbn. intros [= <-]. split; [|done]. by apply dec_stable.
Qed.

End CanonicalMode.

Lemma div_floor (a b : Z) : 0 < b → b * (a / b) ≤ a < b * (a / b) + b.
Proof.
  intros Hb. pose proof (Z.div_mod a b ltac:(lia)).
  pose proof (Z.mod_pos_bound a b Hb). lia.
Qed.

Lemma thumbnail_size_bounds (x y w h : Z) :
  1 ≤ x → 1 ≤ y → 1 ≤ w → 1 ≤ h →
  let '(x', y') := PIL.thumbnail_size (x, y) (w, h) in
  1 ≤ x' ≤ w ∧ 1 ≤ y' ≤ h ∧ x' ≤ x ∧ y' ≤ y
  ∧ (x ≤ w → y ≤ h → (x', y') = (x, y))
  ∧ Z.abs (x' * y - y' * x) < Z.max x y.
Proof.
  intros Hx Hy Hw Hh. unfold PIL.thumbnail_size. cbn [fst snd].
  destruct (x >? w) eqn:Hxw.
  - apply Z.gtb_lt in Hxw.
    pose proof (div_floor (y * w) x ltac:(lia)) as Hq.
    set (q := y * w / x) in *.
    assert (0 ≤ q) by (subst q; apply Z.div_pos; nia).
    assert (q ≤ y) by nia.
    destruct (Z.max q 1 >? h) eqn:Hyh.
    + apply Z.gtb_lt in Hyh.
      assert (Hq1 : Z.max q 1 = q) by lia. rewrite Hq1 in *.
      pose proof (div_floor (w * h) q ltac:(lia)) as Hp.
      set (p := w * h / q) in *.
      assert (0 ≤ p) by (subst p; apply Z.div_pos; nia).
      assert (p ≤ w) by nia.
      repeat split; try lia.
      destruct (Z.max_spec p 1) as [[? ->]|[? ->]].
      * (* p clamped to 1 *)
        assert (p = 0) by lia. 
        assert (h * x < y) by nia.
        lia.
      * assert (- y < p * y - h * x) by nia.
        assert (p * y - h * x < x).
        { assert (w * (p * y - h * x) < p * x) by nia. nia. }
        lia.
    + rewrite Z.gtb_ltb in Hyh. apply Z.ltb_ge in Hyh.
      repeat split; try lia.
      all: destruct (Z.max_spec q 1) as [[? ->]|[? ->]]; [|nia].
      all: assert (q = 0) by lia; nia.
  - rewrite Z.gtb_ltb in Hxw. apply Z.ltb_ge in Hxw.
    destruct (y >? h) eqn:Hyh.
    + apply Z.gtb_lt in Hyh.
      pose proof (div_floor (x * h) y ltac:(lia)) as Hp.
      set (p := x * h / y) in *.
      assert (0 ≤ p) by (subst p; apply Z.div_pos; nia).
      assert (p ≤ x) by nia.
      repeat split; try lia.
      all: destruct (Z.max_spec p 1) as [[? ->]|[? ->]]; [|nia].
      all: assert (p = 0) by lia; nia.
    + rewrite Z.gtb_ltb in Hyh. apply Z.ltb_ge in Hyh.
      repeat split; try lia.
Qed.

Section Convert.
Context (env : Env).

Lemma canon_objects_nonempty_last (im : PIL.Image) (objs : list PIL.Image) :
  canon_objects env im = Ok objs → canonical env im = Ok (List.last objs im).
Proof. unfold canonical. by intros ->. Qed.

Lemma convert_value_prefix h img im size :
  ∃ h', (convert_value env h img im size).1 = h ++ h'.
Proof.
  unfold convert_value. destruct (canon_objects env im) as [objs|e].
  2: { exists []. by rewrite app_nil_r. }
  destruct size as [size|]; [|by exists objs].
  destruct (thumb_object env _ size); cbn; rewrite <- app_assoc; eauto.
Qed.

Lemma convert_image_frame st img size st' r :
  convert_image env img size st = (st', r) →
  fs st' = fs st ∧ trace st' = trace st ∧ rng st' = rng st
  ∧ ∃ h', heap st' = heap st ++ h'.
Proof.
  destruct (heap st !! img) as [im|] eqn:Him.
  - rewrite (convert_image_run env st img im size Him). intros [= <- <-].
    cbn. repeat split. apply convert_value_prefix.
  - unfold convert_image. erewrite bind_raise; cycle 1.
    { unfold deref. erewrite bind_ok by reflexivity. by rewrite Him. }
    intros [= <- <-]. repeat split. exists []. by rewrite app_nil_r.
Qed.

Lemma thumb_object_ok (c : PIL.Image) (w h : Z) :
  1 ≤ w → 1 ≤ h → 1 ≤ fst (PIL.size c) → 1 ≤ snd (PIL.size c) →
  ∃ t, thumb_object env c (w, h) = Ok t
       ∧ PIL.mode t = PIL.mode c
       ∧ PIL.size t = PIL.thumbnail_size (PIL.size c) (w, h).
Proof.
  intros Hw Hh Hx Hy. unfold thumb_object.
  change (PIL.size (PIL.copy c)) with (PIL.size c).
  change (PIL.mode (PIL.copy c)) with (PIL.mode c).
  destruct (PIL.size c) as [x y] eqn:Hsz. cbn [fst snd] in *.
  pose proof (thumbnail_size_bounds x y w h Hx Hy Hw Hh) as Hb.
  destruct (PIL.thumbnail_size (x, y) (w, h)) as [x' y'] eqn:Hts.
  case_bool_decide as Hsame.
  { exists (PIL.copy c). cbn. by rewrite Hsz. }
  cbn [fst snd].
  destruct (x' <? 1) eqn:H1; [apply Z.ltb_lt in H1; lia|].
  destruct (y' <? 1) eqn:H2; [apply Z.ltb_lt in H2; lia|].
  cbn. eauto.
Qed.

(** C8: [convert_image(img, (w, h))] resizes a copy: every image object the
    caller holds, [img] included, is left as it was, and nothing but the
    heap of image objects changes.  What it returns is the JPEG encoding of
    an RGB image that fits the box [w] x [h], is nowhere larger than the
    source, equals the source size when the source already fits, and keeps
    the aspect ratio up to the rounding of one side to a whole pixel
    ([|x' * y - y' * x| < max x y]).  The call fails only where the mode
    conversion or the JPEG encoder fails. *)
Theorem C8_thumbnail_on_copy (st : State) (img : loc) (im : PIL.Image) (w h : Z) :
  heap st !! img = Some im →
  1 ≤ w → 1 ≤ h → 1 ≤ fst (PIL.size im) → 1 ≤ snd (PIL.size im) →
  ∃ st' r,
    convert_image env img (Some (w, h)) st = (st', r)
    ∧ (∀ l o, heap st !! l = Some o → heap st' !! l = Some o)
    ∧ fs st' = fs st ∧ trace st' = trace st
    ∧ (∀ img' buf, r = Ok (img', buf) →
         heap st !! img' = None
         ∧ ∃ out, heap st' !! img' = Some out
             ∧ PIL.mode out = "RGB"%string
             ∧ jpeg_encode env out = Some buf
             ∧ fst (PIL.size out) ≤ w ∧ snd (PIL.size out) ≤ h
             ∧ 1 ≤ fst (PIL.size out) ≤ fst (PIL.size im)
             ∧ 1 ≤ snd (PIL.size out) ≤ snd (PIL.size im)
             ∧ (fst (PIL.size im) ≤ w → snd (PIL.size im) ≤ h →
                PIL.size out = PIL.size im)
             ∧ Z.abs (fst (PIL.size out) * snd (PIL.size im)
                      - snd (PIL.size out) * fst (PIL.size im))
               < Z.max (fst (PIL.size im)) (snd (PIL.size im)))
    ∧ (∀ e, r = Raise e →
         canonical env im = Raise e
         ∨ ∃ out, PIL.mode out = "RGB"%string ∧ save_value env out = Raise e).
Proof.
  intros Him Hw Hh Hx Hy.
  eexists _, _. split; [by apply convert_image_run|].
  cbn [heap with_heap fs trace].
  destruct (convert_value_prefix (heap st) img im (Some (w, h))) as [h' Hh'].
  split.
  { intros l o Hl. rewrite Hh'. by apply lookup_app_l_Some. }
  do 2 (split; [done|]).
  clear h' Hh'. unfold convert_value, canonical.
  destruct (canon_objects env im) as [objs|e0] eqn:Hc; cbn [mbind Result_bind].
  2: { split; [done|]. intros e [= ->]. by left. }
  assert (Hcan : canonical env im = Ok (List.last objs im))
    by by apply canon_objects_nonempty_last.
  destruct (canonical_mode env im _ Hcan) as [Hmode Hsize].
  set (c := List.last objs im) in *.
  destruct (thumb_object_ok c w h) as (t & Ht & Htm & Hts);
    [done|done|by rewrite Hsize|by rewrite Hsize|].
  rewrite Ht. cbn [fst snd].
  destruct (save_value env t) as [buf0|e0] eqn:Hsave; cbn [mbind Result_bind].
  2: { split; [done|]. intros e [= ->]. right. exists t. split; [congruence|done]. }
  split; [|done].
  intros img' buf [= <- <-]. split.
  { apply lookup_ge_None. rewrite length_app. lia. }
  exists t. split; [by apply list_lookup_middle|].
  split; [congruence|].
  split.
  { unfold save_value in Hsave. case_bool_decide; [|done].
    by destruct (jpeg_encode env t) as [b|]; simplify_eq. }
  rewrite Hts, Hsize. destruct (PIL.size im) as [x y]. cbn [fst snd] in *.
  pose proof (thumbnail_size_bounds x y w h Hx Hy Hw Hh) as Hb.
  destruct (PIL.thumbnail_size (x, y) (w, h)) as [x' y']. cbn [fst snd].
  destruct Hb as (? & ? & ? & ? & Hfit & ?).
  repeat split; try lia. intros; by apply Hfit.
Qed.

Lemma canonical_cases (im : PIL.Image) :
  (PIL.format im = Some "PNG"%string → PIL.mode im = "RGBA"%string →
   rgba_raster im →
   canonical env im
   = Ok (PIL.mkImage None "RGB" (PIL.size im) (on_white <$> PIL.data im)))
  ∧ (PIL.mode im = "P"%string →
     ∀ d, pil_convert env im "RGBA" = Some d →
          rgba_raster (PIL.mkImage None "RGBA" (PIL.size im) d) →
          canonical env im
          = Ok (PIL.mkImage None "RGB" (PIL.size im) (on_white <$> d)))
  ∧ (¬ (PIL.format im = Some "PNG"%string ∧ PIL.mode im = "RGBA"%string) →
     PIL.mode im ≠ "P"%string → PIL.mode im ≠ "RGB"%string →
     canonical env im
     = if bool_decide (PIL.mode im = "RGBA"%string) then Ok (drop_alpha im)
       else match pil_convert env im "RGB" with
            | Some d => Ok (PIL.mkImage None "RGB" (PIL.size im) d)
            | None => Raise (ValueError "conversion not supported")
            end)
  ∧ (PIL.mode im = "RGB"%string → canonical env im = Ok im).
Proof.
  unfold canonical, canon_objects. repeat split.
  - intros Hf Hm Hr. rewrite !bool_decide_eq_true_2 by done.
    cbn [andb flatten mbind Result_bind List.last].
    by rewrite flatten_on_white.
  - intros Hm d Hd Hr. rewrite Hm.
    rewrite (bool_decide_eq_false_2 ("P" = "RGBA")%string) by done.
    rewrite andb_false_r, bool_decide_eq_true_2 by done.
    rewrite Hd. cbn [flatten mbind Result_bind List.last].
    by rewrite (flatten_on_white (PIL.mkImage None "RGBA" (PIL.size im) d)).
  - intros Hn HP HR.
    destruct (bool_decide (PIL.format im = Some "PNG"%string)
              && bool_decide (PIL.mode im = "RGBA"%string)) eqn:Hb.
    { apply andb_prop in Hb as [?%bool_decide_eq_true ?%bool_decide_eq_true].
      by destruct Hn. }
    rewrite (bool_decide_eq_false_2 _ HP), (bool_decide_eq_true_2 _ HR).
    destruct (bool_decide (PIL.mode im = "RGBA"%string)); [done|].
    by destruct (pil_convert env im "RGB").
  - intros Hm. rewrite Hm.
    rewrite (bool_decide_eq_false_2 ("RGB" = "RGBA")%string) by done.
    rewrite andb_false_r.
    rewrite (bool_decide_eq_false_2 ("RGB" = "P")%string) by done.
    rewrite (bool_decide_eq_false_2 ("RGB" ≠ "RGB")%string) by (intros H; by apply H).
    done.
Qed.

Lemma on_white_opaque (r g b : Z) : on_white [r; g; b; 255] = [r; g; b].
Proof. cbn. by rewrite !blend_opaque. Qed.

Lemma on_white_transparent (r g b : Z) : on_white [r; g; b; 0] = [255; 255; 255].
Proof. cbn. by rewrite !blend_transparent. Qed.

(** C7: the colour step of [convert_image], case by case: an RGBA PNG is
    composited on opaque white pixel by pixel and loses its alpha band; a
    palette image is first expanded to RGBA and then composited the same
    way; any other mode that is not RGB goes through a direct conversion to
    RGB; an RGB image is kept.  Opaque pixels keep their colour, transparent
    ones become white.  Whatever the case, a call that returns hands back
    the JPEG encoding of an image in mode RGB, and it does return whenever
    the conversion and the encoder succeed. *)
Theorem C7_canonical_jpeg (st : State) (img : loc) (im : PIL.Image)
    (size : option (Z * Z)) :
  heap st !! img = Some im →
  (PIL.format im = Some "PNG"%string → PIL.mode im = "RGBA"%string →
   rgba_raster im →
   canonical env im
   = Ok (PIL.mkImage None "RGB" (PIL.size im) (on_white <$> PIL.data im)))
  ∧ (PIL.mode im = "P"%string →
     ∀ d, pil_convert env im "RGBA" = Some d →
          rgba_raster (PIL.mkImage None "RGBA" (PIL.size im) d) →
          canonical env im
          = Ok (PIL.mkImage None "RGB" (PIL.size im) (on_white <$> d)))
  ∧ (¬ (PIL.format im = Some "PNG"%string ∧ PIL.mode im = "RGBA"%string) →
     PIL.mode im ≠ "P"%string → PIL.mode im ≠ "RGB"%string →
     canonical env im
     = if bool_decide (PIL.mode im = "RGBA"%string) then Ok (drop_alpha im)
       else match pil_convert env im "RGB" with
            | Some d => Ok (PIL.mkImage None "RGB" (PIL.size im) d)
            | None => Raise (ValueError "conversion not supported")
            end)
  ∧ (PIL.mode im = "RGB"%string → canonical env im = Ok im)
  ∧ (∀ r g b, on_white [r; g; b; 255] = [r; g; b]
              ∧ on_white [r; g; b; 0] = [255; 255; 255])
  ∧ ∃ st' res,
      convert_image env img size st = (st', res)
      ∧ (∀ img' buf, res = Ok (img', buf) →
           ∃ c out, canonical env im = Ok c
                    ∧ PIL.mode c = "RGB"%string
                    ∧ heap st' !! img' = Some out
                    ∧ PIL.mode out = "RGB"%string
                    ∧ jpeg_encode env out = Some buf
                    ∧ (size = None → out = c))
      ∧ (∀ c buf, canonical env im = Ok c → size = None →
                  jpeg_encode env c = Some buf →
                  ∃ img', res = Ok (img', buf)).
Proof.
  intros Him.
  destruct (canonical_cases im) as (H1 & H2 & H3 & H4).
  do 4 (split; [done|]). clear H1 H2 H3 H4.
  split; [intros; split; [apply on_white_opaque|apply on_white_transparent]|].
  eexists _, _. split; [by apply convert_image_run|].
  cbn [heap with_heap]. unfold convert_value, canonical.
  destruct (canon_objects env im) as [objs|e0] eqn:Hc; cbn [mbind Result_bind].
  2: { split; [done|]. intros c buf [=]. }
  assert (Hcan : canonical env im = Ok (List.last objs im))
    by by apply canon_objects_nonempty_last.
  destruct (canonical_mode env im _ Hcan) as [Hmode Hsize].
  set (c := List.last objs im) in *.
  assert (Hsave : ∀ o b, save_value env o = Ok b → jpeg_encode env o = Some b).
  { intros o b. unfold save_value.
    destruct (bool_decide _); [|by intros [=]].
    by destruct (jpeg_encode env o); intros [= ->]. }
  destruct size as [size|].
  - split; [|done].
    destruct (thumb_object env c size) as [t|e] eqn:Ht; cbn [fst snd]; [|done].
    destruct (save_value env t) as [buf0|e0] eqn:Hs; cbn [mbind Result_bind];
      [|done].
    intros img' buf [= <- <-]. exists c, t.
    split; [done|]. split; [done|].
    split; [by apply list_lookup_middle|].
    split; [|split; [by apply Hsave|done]].
    unfold thumb_object in Ht. repeat case_match; simplify_eq; exact Hmode.
  - cbn [fst snd]. split.
    + destruct (save_value env c) as [buf0|e0] eqn:Hs; cbn [mbind Result_bind];
        [|done].
      intros img' buf [= <- <-]. exists c, c.
      split; [done|]. split; [done|]. split.
      { subst c. destruct objs as [|o objs]; [by rewrite app_nil_r|].
        by apply last_lookup_pred. }
      split; [done|]. split; [by apply Hsave|done].
    + intros c' buf [= <-] _ Henc. unfold save_value.
      rewrite Hmode. rewrite bool_decide_eq_true_2 by (unfold PIL.jpeg_modes; set_solver).
      rewrite Henc. cbn. eauto.
Qed.
End Convert.

(** ** One task *)

Section TaskRuns.
Context (env : Env).

Lemma random_choice_frame {A} (l : list A) st st1 r :
  random_choice env l st = (st1, r) →
  fs st1 = fs st ∧ heap st1 = heap st ∧ trace st1 = trace st.
Proof.
  unfold random_choice. destruct l as [|x l]; [by intros [= <- <-]|].
  unfold mbind, M_bind, bind, next_random. cbn beta iota.
  case_match; intros [= <- <-]; done.
Qed.


Lemma get_proxy_frame self st st1 r :
  Imagedownloader.get_proxy env self st = (st1, r) →
  fs st1 = fs st ∧ heap st1 = heap st ∧ trace st1 = trace st.
Proof.
  unfold Imagedownloader.get_proxy. destruct (Imagedownloader.proxies self) as [|d|l];
    try by intros [= <- <-].
  unfold mbind, M_bind, bind.
  destruct (random_choice env l st) as [st2 [p|e]] eqn:Hc;
    intros [= <- <-]; by eapply random_choice_frame.
Qed.

Lemma download_image_unfold self url force st :
  Imagedownloader.download_image env self url force st
  = let path := Imagedownloader.file_path self url in
    if negb (bool_decide (is_Some (fs st !! path))) || force then
      match Imagedownloader.get_proxy env self st with
      | (st1, Raise e) => (st1, Raise e)
      | (st1, Ok proxy) =>
          match fetch_core env url (Imagedownloader.timeout self) proxy (Imagedownloader.headers self)
                  (Imagedownloader.min_wait self) (Imagedownloader.max_wait self) path st1 with
          | (st2, Raise e) => (st2, Raise e)
          | (st2, Ok orig_img) =>
              match Imagedownloader.thumbs_loop env self url force path (Imagedownloader.thumbs_size self)
                      (Some orig_img) st2 with
              | (st3, Raise e) => (st3, Raise e)
              | (st3, Ok _) => (st3, Ok path)
              end
          end
      end
    else
      match Imagedownloader.thumbs_loop env self url force path (Imagedownloader.thumbs_size self) None st with
      | (st3, Raise e) => (st3, Raise e)
      | (st3, Ok _) => (st3, Ok path)
      end.
Proof.
  unfold Imagedownloader.download_image, fetch_core, path_exists.
  unfold mbind, M_bind, bind, get_state, mret, M_ret, ret. cbn beta iota zeta.
  destruct (negb _ || force); [|reflexivity].
  destruct (Imagedownloader.get_proxy env self st) as [st1 [proxy|e]];
    [|reflexivity].
  destruct (requests_get env url _ proxy _ st1) as [st2 [content|e]];
    [|reflexivity].
  destruct (Image_open env content st2) as [st3 [orig|e]]; [|reflexivity].
  destruct (convert_image env orig None st3) as [st4 [[img buf]|e]];
    [|reflexivity].
  destruct (_persist_file env _ buf st4) as [st5 [[]|e]]; [|reflexivity].
  destruct (random_uniform env _ _ st5) as [st6 [d|e]]; [|reflexivity].
  destruct (sleep d st6) as [st7 [[]|e]]; reflexivity.
Qed.

Lemma touches_refl P E st : touches P E st st.
Proof.
  repeat split; try done. exists []. by rewrite app_nil_r.
Qed.

Lemma touches_eq P E st st' :
  fs st' = fs st → trace st' = trace st → touches P E st st'.
Proof.
  intros Hf Ht. repeat split; rewrite ?Hf; try done.
  exists []. by rewrite app_nil_r.
Qed.

Lemma touches_trans P E st1 st2 st3 :
  touches P E st1 st2 → touches P E st2 st3 → touches P E st1 st3.
Proof.
  intros (Ha & Hb & evs & Hc & Hd) (Ha' & Hb' & evs' & Hc' & Hd').
  split; [|split].
  - intros p Hp. rewrite Ha', Ha; done.
  - intros p Hp. by apply Hb', Hb.
  - exists (evs ++ evs'). split; [|by apply Forall_app].
    by rewrite Hc', Hc, app_assoc.
Qed.

Lemma touches_weaken (P P' : Path → Prop) (E E' : Event → Prop) st st' :
  (∀ p, P p → P' p) → (∀ ev, E ev → E' ev) →
  touches P E st st' → touches P' E' st st'.
Proof.
  intros HP HE (Ha & Hb & evs & Hc & Hd). split; [|split].
  - intros p Hp. apply Ha. naive_solver.
  - done.
  - exists evs. split; [done|]. eapply Forall_impl; eauto.
Qed.

Lemma persist_touches (P : Path → Prop) (E : Event → Prop) path buf st st' r :
  P path → (∀ b, E (EvWrite path b)) →
  _persist_file env path buf st = (st', r) →
  touches P E st st' ∧ heap st' = heap st.
Proof.
  intros HP HE. rewrite _persist_file_run.
  destruct (persist_mode env path buf); intros [= <- <-]; cbn.
  - split; [apply touches_refl|done].
  - split; [|done]. split; [|split]; cbn.
    + intros p Hp. apply lookup_insert_ne. by intros ->.
    + intros p Hp. destruct (decide (path = p)) as [->|];
        [by rewrite lookup_insert_eq|by rewrite lookup_insert_ne].
    + exists []. by rewrite app_nil_r.
  - split; [|done]. split; [|split]; cbn.
    + intros p Hp. apply lookup_insert_ne. by intros ->.
    + intros p Hp. destruct (decide (path = p)) as [->|];
        [by rewrite lookup_insert_eq|by rewrite lookup_insert_ne].
    + exists [EvWrite path buf]. split; [done|]. by constructor.
Qed.

Lemma Image_open_path_frame path st st' r :
  Image_open_path env path st = (st', r) →
  fs st' = fs st ∧ trace st' = trace st.
Proof.
  unfold Image_open_path. unfold mbind, M_bind, bind, get_state. cbn beta iota.
  destruct (fs st !! path) as [content|]; [|by intros [= <- <-]].
  rewrite Image_open_run. destruct (image_decode env content);
    by intros [= <- <-].
Qed.

Section Thumbs.
Context (self : Imagedownloader.ImageDownloader) (url : string)
        (force : bool) (path : Path).

Lemma thumbs_loop_cons thumb_id size items orig_img st :
  Imagedownloader.thumbs_loop env self url force path
    ((thumb_id, size) :: items) orig_img st
  = let thumb_path := Imagedownloader.thumb_path self url thumb_id in
    if negb (bool_decide (is_Some (fs st !! thumb_path))) || force then
      match (match orig_img with
             | Some img => (st, Ok img)
             | None => Image_open_path env path st
             end) with
      | (st1, Raise e) => (st1, Raise e)
      | (st1, Ok img) =>
          match convert_image env img (Some size) st1 with
          | (st2, Raise e) => (st2, Raise e)
          | (st2, Ok (_, thumb_buf)) =>
              match _persist_file env thumb_path thumb_buf st2 with
              | (st3, Raise e) => (st3, Raise e)
              | (st3, Ok _) =>
                  Imagedownloader.thumbs_loop env self url force path items
                    (Some img) st3
              end
          end
      end
    else Imagedownloader.thumbs_loop env self url force path items orig_img st.
Proof.
  cbn [Imagedownloader.thumbs_loop].
  unfold path_exists, mbind, M_bind, bind, get_state, mret, M_ret, ret.
  cbn beta iota zeta.
  destruct (negb _ || force); [|reflexivity].
  destruct orig_img as [img|].
  - destruct (convert_image env img (Some size) st) as [st2 [[? buf]|e]];
      [|reflexivity].
    by destruct (_persist_file env _ buf st2) as [st3 [[]|e]].
  - destruct (Image_open_path env path st) as [st1 [img|e]]; [|reflexivity].
    destruct (convert_image env img (Some size) st1) as [st2 [[? buf]|e]];
      [|reflexivity].
    by destruct (_persist_file env _ buf st2) as [st3 [[]|e]].
Qed.

Lemma thumbs_loop_touches items orig_img st st' r :
  Imagedownloader.thumbs_loop env self url force path items orig_img st = (st', r) →
  touches (thumb_file self url) (thumb_event self url) st st'.
Proof.
  revert orig_img st. induction items as [|[thumb_id size] items IH];
    intros orig_img st.
  { cbn. unfold mret, M_ret, ret. intros [= <- <-]. apply touches_refl. }
  rewrite thumbs_loop_cons. cbn zeta.
  destruct (negb _ || force); [|by apply IH].
  destruct (match orig_img with Some img => _ | None => _ end)
    as [st1 [img|e]] eqn:Hopen.
  2: { intros [= <- <-]. destruct orig_img; [by simplify_eq|].
       apply Image_open_path_frame in Hopen as [? ?]. by apply touches_eq. }
  assert (touches (thumb_file self url) (thumb_event self url) st st1) as H1.
  { destruct orig_img; [simplify_eq; apply touches_refl|].
    apply Image_open_path_frame in Hopen as [? ?]. by apply touches_eq. }
  destruct (convert_image env img (Some size) st1) as [st2 [[? buf]|e]] eqn:Hc.
  2: { intros [= <- <-]. eapply touches_trans; [exact H1|].
       apply convert_image_frame in Hc as (? & ? & _). by apply touches_eq. }
  assert (touches (thumb_file self url) (thumb_event self url) st1 st2) as H2.
  { apply convert_image_frame in Hc as (? & ? & _). by apply touches_eq. }
  destruct (_persist_file env _ buf st2) as [st3 [[]|e]] eqn:Hp.
  - intros Hrest. apply IH in Hrest.
    eapply (persist_touches (thumb_file self url) (thumb_event self url)) in Hp as [H3 _];
      [|by exists thumb_id|by intros b; exists thumb_id, b].
    eauto using touches_trans.
  - intros [= <- <-].
    eapply (persist_touches (thumb_file self url) (thumb_event self url)) in Hp as [H3 _];
      [|by exists thumb_id|by intros b; exists thumb_id, b].
    eauto using touches_trans.
Qed.

Lemma thumbs_loop_abort items rest orig_img st st' e :
  Imagedownloader.thumbs_loop env self url force path items orig_img st
  = (st', Raise e) →
  Imagedownloader.thumbs_loop env self url force path (items ++ rest) orig_img st
  = (st', Raise e).
Proof.
  revert orig_img st. induction items as [|[thumb_id size] items IH];
    intros orig_img st; [done|].
  rewrite <- app_comm_cons, !thumbs_loop_cons. cbn zeta.
  destruct (negb _ || force); [|by apply IH].
  destruct (match orig_img with Some img => _ | None => _ end)
    as [st1 [img|e1]]; [|done].
  destruct (convert_image env img (Some size) st1) as [st2 [[? buf]|e2]];
    [|done].
  destruct (_persist_file env _ buf st2) as [st3 [[]|e3]]; [|done].
  apply IH.
Qed.
End Thumbs.

Lemma encode_fresh_encoded st im :
  match (encode_fresh env st im).2 with
  | Ok (_, buf) => encoded env im = Ok buf
  | Raise e => encoded env im = Raise e
  end.
Proof.
  unfold encode_fresh, convert_value, encoded, canonical.
  destruct (canon_objects env im) as [objs|e]; [|done].
  cbn [mbind Result_bind snd].
  by destruct (save_value env (List.last objs im)).
Qed.

Lemma encode_fresh_prefix st im :
  ∃ h', (encode_fresh env st im).1 = heap st ++ im :: h'.
Proof.
  unfold encode_fresh.
  destruct (convert_value_prefix env (heap st ++ [im]) (length (heap st)) im None)
    as [h' ->].
  exists h'. by rewrite <- app_assoc.
Qed.

Lemma fetch_outcome_fresh url timeout proxy headers min_wait max_wait path st st' r :
  fetch_outcome env url timeout proxy headers min_wait max_wait path st st' r →
  match fresh_jpeg env url timeout proxy headers with
  | Raise e => r = Raise e ∧ fs st' = fs st
               ∧ trace st' = trace st ++ [EvGet url proxy]
  | Ok buf =>
      match persist_mode env path buf with
      | OpenFails => r = Raise (PermissionError path) ∧ fs st' = fs st
                     ∧ trace st' = trace st ++ [EvGet url proxy]
      | WriteFails => r = Raise (OSError "write failed")
                      ∧ fs st' = <[path := []]> (fs st)
                      ∧ trace st' = trace st ++ [EvGet url proxy]
      | WriteOk =>
          fs st' = <[path := buf]> (fs st)
          ∧ if Qle_bool 0 (wait_of env min_wait max_wait st)
            then r = Ok (length (heap st))
                 ∧ trace st' = trace st ++ [EvGet url proxy; EvWrite path buf;
                                            EvSleep (wait_of env min_wait max_wait st)]
            else r = Raise (ValueError "sleep length must be non-negative")
                 ∧ trace st' = trace st ++ [EvGet url proxy; EvWrite path buf]
      end
  end.
Proof.
  unfold fresh_jpeg.
  destruct 1 as [Hg|c Hg Hd|c im e Hg Hd He|c im img buf Hg Hd He Hm
                |c im img buf Hg Hd He Hm|c im img buf Hg Hd He Hm Hw
                |c im img buf Hg Hd He Hm Hw];
    rewrite Hg; try rewrite Hd; try done;
    pose proof (encode_fresh_encoded st im) as Henc; rewrite He in Henc;
    rewrite Henc; try done; rewrite Hm; try done; rewrite Hw; done.
Qed.

Lemma fetch_outcome_heap url timeout proxy headers min_wait max_wait path st st' r :
  fetch_outcome env url timeout proxy headers min_wait max_wait path st st' r →
  (∃ h', heap st' = heap st ++ h')
  ∧ ∀ img, r = Ok img → is_Some (heap st' !! img).
Proof.
  destruct 1; cbn [heap]; try (split; [by exists []; rewrite app_nil_r|done]).
  all: destruct (encode_fresh_prefix st im) as [h' ->].
  all: split; [by eauto|try done].
  intros ? [= <-]. rewrite list_lookup_middle; by eauto.
Qed.
End TaskRuns.

Section TaskCases.
Context (env : Env).

Lemma file_not_thumb self url url' :
  ¬ thumb_file self url' (Imagedownloader.file_path self url).
Proof.
  intros [thumb_id H]. unfold Imagedownloader.file_path, file_path_of,
    Imagedownloader.thumb_path, Path_join in H.
  by apply app_inv_head in H.
Qed.

Lemma download_image_inv self url force st st' r :
  Imagedownloader.download_image env self url force st = (st', r) →
  let path := Imagedownloader.file_path self url in
  if negb (bool_decide (is_Some (fs st !! path))) || force then
    ∃ st1 rp,
      Imagedownloader.get_proxy env self st = (st1, rp)
      ∧ match rp with
        | Raise e => st' = st1 ∧ r = Raise e
        | Ok proxy =>
            ∃ st2 rf,
              fetch_outcome env url (Imagedownloader.timeout self) proxy
                (Imagedownloader.headers self) (Imagedownloader.min_wait self)
                (Imagedownloader.max_wait self) path st1 st2 rf
              ∧ match rf with
                | Raise e => st' = st2 ∧ r = Raise e
                | Ok orig_img =>
                    ∃ rt,
                      Imagedownloader.thumbs_loop env self url force path
                        (Imagedownloader.thumbs_size self) (Some orig_img) st2
                      = (st', rt)
                      ∧ r = (rt ≫= λ _, Ok path)
                end
        end
  else
    ∃ rt,
      Imagedownloader.thumbs_loop env self url force path
        (Imagedownloader.thumbs_size self) None st = (st', rt)
      ∧ r = (rt ≫= λ _, Ok path).
Proof.
  rewrite download_image_unfold. cbn zeta.
  destruct (negb _ || force).
  - destruct (Imagedownloader.get_proxy env self st) as [st1 [proxy|e]] eqn:Hp.
    2: { intros [= <- <-]. by eexists _, _. }
    destruct (fetch_core env url _ proxy _ _ _ _ st1) as [st2 rf] eqn:Hf.
    apply fetch_core_outcome in Hf. intros H.
    eexists _, _. split; [done|]. eexists _, _. split; [exact Hf|].
    destruct rf as [orig|e]; [|by simplify_eq].
    destruct (Imagedownloader.thumbs_loop _ _ _ _ _ _ _ st2) as [st3 [[]|e]] eqn:Ht;
      simplify_eq; by eexists.
  - destruct (Imagedownloader.thumbs_loop _ _ _ _ _ _ _ st) as [st3 [[]|e]] eqn:Ht;
      intros; simplify_eq; by eexists.
Qed.

Lemma gate_spec (f : gmap Path bytes) (path : Path) (force : bool) :
  negb (bool_decide (is_Some (f !! path))) || force = true
  ↔ f !! path = None ∨ force = true.
Proof.
  rewrite orb_true_iff, negb_true_iff, bool_decide_eq_false.
  by rewrite <- eq_None_not_Some.
Qed.

Lemma thumbs_keep_original self url url' force path items orig_img st st' r :
  Imagedownloader.thumbs_loop env self url' force path items orig_img st = (st', r) →
  fs st' !! Imagedownloader.file_path self url
  = fs st !! Imagedownloader.file_path self url.
Proof.
  intros [H _]%thumbs_loop_touches. apply H, file_not_thumb.
Qed.


Lemma download_image_trace self url force st st1 proxy st' r :
  Imagedownloader.get_proxy env self st = (st1, Ok proxy) →
  Imagedownloader.download_image env self url force st = (st', r) →
  let path := Imagedownloader.file_path self url in
  ∃ evs_f evs_t,
    trace st' = trace st ++ evs_f ++ evs_t
    ∧ Forall (thumb_event self url) evs_t
    ∧ (r = Ok path ∨ ∃ e, r = Raise e)
    ∧ if negb (bool_decide (is_Some (fs st !! path))) || force then
        match fresh_jpeg env url (Imagedownloader.timeout self) proxy
                (Imagedownloader.headers self) with
        | Raise e => evs_f = [EvGet url proxy] ∧ evs_t = [] ∧ r = Raise e
        | Ok buf =>
            match persist_mode env path buf with
            | WriteOk =>
                let d := wait_of env (Imagedownloader.min_wait self)
                           (Imagedownloader.max_wait self) st1 in
                fs st' !! path = Some buf
                ∧ if Qle_bool 0 d
                  then evs_f = [EvGet url proxy; EvWrite path buf; EvSleep d]
                  else evs_f = [EvGet url proxy; EvWrite path buf] ∧ evs_t = []
                       ∧ r = Raise (ValueError "sleep length must be non-negative")
            | OpenFails => evs_f = [EvGet url proxy] ∧ evs_t = []
                           ∧ r = Raise (PermissionError path)
            | WriteFails => evs_f = [EvGet url proxy] ∧ evs_t = []
                            ∧ r = Raise (OSError "write failed")
            end
        end
      else evs_f = [].
Proof.
  intros Hproxy Hrun. cbn zeta.
  pose proof (download_image_inv _ _ _ _ _ _ Hrun) as Hinv. cbn zeta in Hinv.
  assert (Hres : ∀ rt : Result (), 
            (rt ≫= λ _, Ok (Imagedownloader.file_path self url))
            = Ok (Imagedownloader.file_path self url)
            ∨ ∃ e, (rt ≫= λ _, Ok (Imagedownloader.file_path self url)) = Raise e).
  { intros [[]|e]; [by left|right; by exists e]. }
  destruct (negb _ || force) eqn:Hgate.
  2: { destruct Hinv as (rt & Hloop & ->).
       apply thumbs_loop_touches in Hloop as (_ & _ & evs & Htr & Hev).
       exists [], evs. by repeat split. }
  destruct Hinv as (st1' & rp & Hp & Hinv). rewrite Hproxy in Hp.
  injection Hp as <- <-.
  destruct Hinv as (st2 & rf & Hout & Hinv).
  pose proof (get_proxy_frame env _ _ _ _ Hproxy) as (_ & _ & Htr1).
  apply fetch_outcome_fresh in Hout. rewrite Htr1 in Hout.
  destruct (fresh_jpeg env url _ proxy _) as [buf|e0].
  2: { destruct Hout as (-> & _ & Htr2). destruct Hinv as [-> ->].
       exists [EvGet url proxy], []. rewrite app_nil_r.
       repeat split; eauto. }
  destruct (persist_mode env _ buf).
  - destruct Hout as (-> & _ & Htr2). destruct Hinv as [-> ->].
    exists [EvGet url proxy], []. rewrite app_nil_r. repeat split; eauto.
  - destruct Hout as (-> & _ & Htr2). destruct Hinv as [-> ->].
    exists [EvGet url proxy], []. rewrite app_nil_r. repeat split; eauto.
  - destruct Hout as (Hfs2 & Hout). cbn zeta.
    assert (Hbuf : fs st2 !! Imagedownloader.file_path self url = Some buf)
      by (rewrite Hfs2; apply lookup_insert_eq).
    destruct (Qle_bool 0 _).
    + destruct Hout as (-> & Htr2). destruct Hinv as (rt & Hloop & ->).
      pose proof (thumbs_keep_original self url _ _ _ _ _ _ _ _ Hloop) as Hkeep.
      apply thumbs_loop_touches in Hloop as (_ & _ & evs & Htr & Hev).
      eexists _, evs. split; [by rewrite Htr, Htr2, app_assoc|].
      repeat split; [done|done|congruence].
    + destruct Hout as (-> & Htr2). destruct Hinv as [-> ->].
      eexists _, []. rewrite app_nil_r. repeat split; eauto.
Qed.
End TaskCases.

Section ImgdlTask.
Context (env : Env).

Lemma imgdl_get_proxy_frame self st st1 r :
  Imgdl.get_proxy env self st = (st1, r) →
  fs st1 = fs st ∧ heap st1 = heap st ∧ trace st1 = trace st.
Proof.
  unfold Imgdl.get_proxy. destruct (Imgdl.proxies self) as [l|];
    [|by intros [= <- <-]].
  unfold mbind, M_bind, bind.
  destruct (random_choice env l st) as [st2 [p|e]] eqn:Hc;
    intros [= <- <-]; by eapply random_choice_frame.
Qed.

Lemma _download_image_unfold self url force st :
  Imgdl._download_image env self url force None None st
  = match Imgdl.get_proxy env self st with
    | (st1, Raise e) => (st1, Raise e)
    | (st1, Ok proxy) =>
        let path := Imgdl.file_path self url in
        if negb (bool_decide (is_Some (fs st1 !! path))) || force then
          match fetch_core env url (Imgdl.timeout self) (session_proxy proxy)
                  (Imgdl.headers self) (Imgdl.min_wait self)
                  (Imgdl.max_wait self) path st1 with
          | (st2, Raise e) => (st2, Raise e)
          | (st2, Ok _) => (st2, Ok path)
          end
        else (st1, Ok path)
    end.
Proof.
  unfold Imgdl._download_image, fetch_core, path_exists, Imgdl.session_get.
  unfold mbind, M_bind, bind, get_state, mret, M_ret, ret. cbn beta iota zeta.
  destruct (Imgdl.get_proxy env self st) as [st1 [proxy|e]]; [|reflexivity].
  destruct (negb _ || force); [|reflexivity].
  change (if bool_decide (Imgdl.session_proxies (Imgdl.make_session proxy
                              (Some (Imgdl.headers self))) = ∅)
          then None
          else Some (Imgdl.session_proxies (Imgdl.make_session proxy
                              (Some (Imgdl.headers self)))))
    with (session_proxy proxy).
  cbn [Imgdl.session_headers Imgdl.make_session default].
  destruct (requests_get env url _ _ _ st1) as [st2 [content|e]];
    [|reflexivity].
  destruct (Image_open env content st2) as [st3 [orig|e]]; [|reflexivity].
  destruct (convert_image env orig None st3) as [st4 [[img buf]|e]];
    [|reflexivity].
  destruct (_persist_file env _ buf st4) as [st5 [[]|e]]; [|reflexivity].
  destruct (random_uniform env _ _ st5) as [st6 [d|e]]; [|reflexivity].
  destruct (sleep d st6) as [st7 [[]|e]]; reflexivity.
Qed.

Lemma _download_image_trace self url force st st1 proxy st' r :
  Imgdl.get_proxy env self st = (st1, Ok proxy) →
  Imgdl._download_image env self url force None None st = (st', r) →
  let path := Imgdl.file_path self url in
  ∃ evs_f,
    trace st' = trace st ++ evs_f
    ∧ (∀ p, p ≠ path → fs st' !! p = fs st !! p)
    ∧ (∀ p, is_Some (fs st !! p) → is_Some (fs st' !! p))
    ∧ if negb (bool_decide (is_Some (fs st !! path))) || force then
        match fresh_jpeg env url (Imgdl.timeout self) (session_proxy proxy)
                (Imgdl.headers self) with
        | Raise e => evs_f = [EvGet url (session_proxy proxy)]
                     ∧ r = Raise e ∧ fs st' = fs st
        | Ok buf =>
            match persist_mode env path buf with
            | WriteOk =>
                let d := wait_of env (Imgdl.min_wait self)
                           (Imgdl.max_wait self) st1 in
                fs st' = <[path := buf]> (fs st)
                ∧ if Qle_bool 0 d
                  then evs_f = [EvGet url (session_proxy proxy);
                                EvWrite path buf; EvSleep d]
                       ∧ r = Ok path
                  else evs_f = [EvGet url (session_proxy proxy);
                                EvWrite path buf]
                       ∧ r = Raise (ValueError "sleep length must be non-negative")
            | OpenFails => evs_f = [EvGet url (session_proxy proxy)]
                           ∧ r = Raise (PermissionError path) ∧ fs st' = fs st
            | WriteFails => evs_f = [EvGet url (session_proxy proxy)]
                            ∧ r = Raise (OSError "write failed")
                            ∧ fs st' = <[path := []]> (fs st)
            end
        end
      else evs_f = [] ∧ r = Ok path ∧ fs st' = fs st.
Proof.
  intros Hproxy. rewrite _download_image_unfold, Hproxy. cbn zeta.
  pose proof (imgdl_get_proxy_frame _ _ _ _ Hproxy) as (Hfs1 & _ & Htr1).
  rewrite Hfs1.
  assert (Hins : ∀ (b : bytes) (f : gmap Path bytes),
            (∀ p, p ≠ Imgdl.file_path self url →
                  <[Imgdl.file_path self url := b]> f !! p = f !! p)
            ∧ (∀ p, is_Some (f !! p) →
                    is_Some (<[Imgdl.file_path self url := b]> f !! p))).
  { intros b f. split; intros p Hp.
    - by apply lookup_insert_ne.
    - destruct (decide (Imgdl.file_path self url = p)) as [->|];
        [by rewrite lookup_insert_eq|by rewrite lookup_insert_ne]. }
  destruct (negb _ || force) eqn:Hgate.
  2: { intros [= <- <-]. exists []. rewrite app_nil_r, Hfs1. by repeat split. }
  destruct (fetch_core env url _ _ _ _ _ _ st1) as [st2 rf] eqn:Hf.
  apply fetch_core_outcome, fetch_outcome_fresh in Hf.
  rewrite Htr1, Hfs1 in Hf. intros Hr.
  destruct (fresh_jpeg env url _ _ _) as [buf|e0].
  2: { destruct Hf as (-> & Hfs2 & Htr2). injection Hr as <- <-.
       eexists. split; [exact Htr2|]. rewrite Hfs2. by repeat split. }
  destruct (persist_mode env _ buf).
  - destruct Hf as (-> & Hfs2 & Htr2). injection Hr as <- <-.
    eexists. split; [exact Htr2|]. rewrite Hfs2. by repeat split.
  - destruct Hf as (-> & Hfs2 & Htr2). injection Hr as <- <-.
    eexists. split; [exact Htr2|]. rewrite Hfs2.
    destruct (Hins [] (fs st)). by repeat split.
  - destruct Hf as (Hfs2 & Hf). cbn zeta.
    destruct (Qle_bool 0 _).
    + destruct Hf as (-> & Htr2). injection Hr as <- <-.
      eexists. split; [exact Htr2|]. rewrite Hfs2.
      destruct (Hins buf (fs st)). by repeat split.
    + destruct Hf as (-> & Htr2). injection Hr as <- <-.
      eexists. split; [exact Htr2|]. rewrite Hfs2.
      destruct (Hins buf (fs st)). by repeat split.
Qed.

Lemma insert_touches (P : Path → Prop) (E : Event → Prop) path b st st' :
  P path → fs st' = <[path := b]> (fs st) →
  (∃ evs, trace st' = trace st ++ evs ∧ Forall E evs) →
  touches P E st st'.
Proof.
  intros HP Hfs Hev. split; [|split; [|done]]; rewrite Hfs.
  - intros p Hp. apply lookup_insert_ne. by intros ->.
  - intros p Hp. destruct (decide (path = p)) as [->|];
      [by rewrite lookup_insert_eq|by rewrite lookup_insert_ne].
Qed.

Lemma fetch_outcome_touches url timeout proxy headers min_wait max_wait path st st' r :
  fetch_outcome env url timeout proxy headers min_wait max_wait path st st' r →
  touches (λ p, p = path) (fetch_event url path) st st'
  ∧ (∀ img, r = Ok img → is_Some (fs st' !! path)).
Proof.
  assert (Hg : fetch_event url path (EvGet url proxy)) by (left; eauto).
  assert (Hw : ∀ b, fetch_event url path (EvWrite path b))
    by (right; left; eauto).
  assert (Hs : ∀ d, fetch_event url path (EvSleep d)) by (right; right; eauto).
  assert (Hsame : ∀ h n,
    touches (λ p, p = path) (fetch_event url path) st
      (mkState (fs st) h n (trace st ++ [EvGet url proxy]))).
  { intros. split; [done|]. split; [done|]. cbn.
    exists [EvGet url proxy]. split; [done|]. repeat first [apply Forall_nil_2 | apply Forall_cons_2; [by auto|]]. }
  destruct 1; (split; [|try done]); try apply Hsame.
  - eapply insert_touches; [done|done|]. cbn. eexists; split; [reflexivity|].
    repeat first [apply Forall_nil_2 | apply Forall_cons_2; [by auto|]].
  - eapply insert_touches; [done|done|]. cbn. eexists; split; [reflexivity|].
    repeat first [apply Forall_nil_2 | apply Forall_cons_2; [by auto|]].
  - eapply insert_touches; [done|done|]. cbn. eexists; split; [reflexivity|].
    repeat first [apply Forall_nil_2 | apply Forall_cons_2; [by auto|]].
  - intros _ _. cbn. by rewrite lookup_insert_eq.
Qed.

Lemma download_image_touches self url force st st' r :
  Imagedownloader.download_image env self url force st = (st', r) →
  touches (url_file self url) (url_event self url) st st'
  ∧ (∀ p, r = Ok p →
          p = Imagedownloader.file_path self url ∧ is_Some (fs st' !! p)).
Proof.
  intros Hrun.
  pose proof (download_image_inv env _ _ _ _ _ _ Hrun) as Hinv. cbn zeta in Hinv.
  assert (Hthumb : ∀ items orig s s' rt,
    Imagedownloader.thumbs_loop env self url force
      (Imagedownloader.file_path self url) items orig s = (s', rt) →
    touches (url_file self url) (url_event self url) s s').
  { intros ????? H%thumbs_loop_touches. eapply touches_weaken; [| |exact H].
    - intros p ?. by right.
    - intros ev ?. by do 3 right. }
  destruct (negb _ || force) eqn:Hgate.
  2: { destruct Hinv as (rt & Hloop & ->).
       pose proof (Hthumb _ _ _ _ _ Hloop) as Ht. split; [done|].
       destruct rt as [[]|e]; [|done]. intros p [= <-]. split; [done|].
       apply Ht. apply orb_false_iff in Hgate as [Hex _].
       by apply negb_false_iff, bool_decide_eq_true in Hex. }
  destruct Hinv as (st1 & rp & Hp & Hinv).
  pose proof (get_proxy_frame env _ _ _ _ Hp) as (Hfs1 & _ & Htr1).
  assert (H1 : touches (url_file self url) (url_event self url) st st1)
    by by apply touches_eq.
  destruct rp as [proxy|e]; [|by destruct Hinv as [-> ->]].
  destruct Hinv as (st2 & rf & Hout & Hinv).
  apply fetch_outcome_touches in Hout as [Hout Hex].
  assert (H2 : touches (url_file self url) (url_event self url) st1 st2).
  { eapply touches_weaken; [| |exact Hout].
    - intros p ->. by left.
    - intros ev [?|[?|?]]; [by left|by right; left|by right; right; left]. }
  destruct rf as [orig|e].
  2: { destruct Hinv as [-> ->]. split; [|done]. eauto using touches_trans. }
  destruct Hinv as (rt & Hloop & ->).
  pose proof (Hthumb _ _ _ _ _ Hloop) as H3.
  split; [eauto using touches_trans|].
  destruct rt as [[]|e]; [|done]. intros p [= <-]. split; [done|].
  apply H3. eauto.
Qed.
End ImgdlTask.

(** ** The pool and the result mapping *)

Section Pool.
Context {A : Type} (task : string → M A) (urls : list string).

Lemma run_pool_dom order futures st st' futures' :
  run_pool task urls order futures st = (st', futures') →
  ∀ i, is_Some (futures' !! i)
       ↔ is_Some (futures !! i) ∨ (i ∈ order ∧ (i < length urls)%nat).
Proof.
  revert futures st. induction order as [|j order IH]; intros futures st.
  { intros [= <- <-] i. split; [by left|]. intros [?|[[]%elem_of_nil _]]; done. }
  cbn [run_pool]. destruct (urls !! j) as [url|] eqn:Hj.
  - destruct (task url st) as [st1 r]. intros Hrun i.
    rewrite (IH _ _ Hrun). apply lookup_lt_Some in Hj.
    destruct (decide (i = j)) as [->|Hne].
    + rewrite lookup_insert_eq. split; [|by eauto].
      intros _. right. split; [by left|done].
    + rewrite lookup_insert_ne by done. rewrite elem_of_cons.
      clear IH Hrun. intuition congruence.
  - intros Hrun i. rewrite (IH _ _ Hrun). apply lookup_ge_None in Hj.
    rewrite elem_of_cons. clear IH Hrun. split; [intuition|].
    intros [?|[[->|?] ?]]; [by left|lia|by right].
Qed.

Lemma run_pool_post (Post : nat → Result A → State → Prop) :
  (∀ i url st st1 r, urls !! i = Some url → task url st = (st1, r) →
                     Post i r st1) →
  (∀ i r url st st1 r1, Post i r st → task url st = (st1, r1) → Post i r st1) →
  ∀ order futures st st' futures',
    run_pool task urls order futures st = (st', futures') →
    (∀ i r, futures !! i = Some r → Post i r st) →
    ∀ i r, futures' !! i = Some r → Post i r st'.
Proof.
  intros Hest Hstable order.
  induction order as [|j order IH]; intros futures st st' futures'.
  { by intros [= <- <-]. }
  cbn [run_pool]. destruct (urls !! j) as [url|] eqn:Hj; [|by apply IH].
  destruct (task url st) as [st1 r1] eqn:Htask. intros Hrun Hpre.
  eapply IH; [exact Hrun|]. intros i r.
  destruct (decide (j = i)) as [->|Hne].
  - rewrite lookup_insert_eq. intros [= <-]. eauto.
  - rewrite lookup_insert_ne by done. eauto.
Qed.
End Pool.

Section Collect.
Context (urls : list string) (futures : gmap nat (Result Path)).

Lemma collect_sound order url o :
  Imagedownloader.collect urls futures order !! url = Some o → recorded urls futures url o.
Proof.
  unfold Imagedownloader.collect.
  cut (∀ acc : gmap string (option Path),
         (∀ u o', acc !! u = Some o' → recorded urls futures u o') →
         ∀ u o', foldl (λ paths i,
                    match urls !! i, futures !! i with
                    | Some url, Some (Raise _) => <[url := None]> paths
                    | Some url, Some (Ok p) => <[url := Some p]> paths
                    | _, _ => paths
                    end) acc order !! u = Some o' → recorded urls futures u o').
  { intros H. apply H. intros u o'. by rewrite lookup_empty. }
  induction order as [|i order IH]; intros acc Hacc; [done|].
  cbn [foldl]. apply IH.
  destruct (urls !! i) as [ui|] eqn:Hu; [|done].
  destruct (futures !! i) as [[p|e]|] eqn:Hf; [| |done].
  - intros u o'. destruct (decide (ui = u)) as [->|Hne].
    + rewrite lookup_insert_eq. intros [= <-]. by exists i, (Ok p).
    + rewrite lookup_insert_ne by done. apply Hacc.
  - intros u o'. destruct (decide (ui = u)) as [->|Hne].
    + rewrite lookup_insert_eq. intros [= <-]. by exists i, (Raise e).
    + rewrite lookup_insert_ne by done. apply Hacc.
Qed.

Lemma collect_complete order i url :
  i ∈ order → urls !! i = Some url → is_Some (futures !! i) →
  is_Some (Imagedownloader.collect urls futures order !! url).
Proof.
  unfold Imagedownloader.collect. intros Hi Hu Hf.
  cut (∀ acc : gmap string (option Path),
         (i ∈ order ∨ is_Some (acc !! url)) →
         is_Some (foldl (λ paths i,
                    match urls !! i, futures !! i with
                    | Some url, Some (Raise _) => <[url := None]> paths
                    | Some url, Some (Ok p) => <[url := Some p]> paths
                    | _, _ => paths
                    end) acc order !! url)).
  { intros H. apply H. by left. }
  clear Hi. induction order as [|j order IH]; intros acc.
  { by intros [[]%elem_of_nil|?]. }
  cbn [foldl]. intros Hin. apply IH.
  destruct (decide (j = i)) as [->|Hne].
  - right. rewrite Hu. destruct Hf as [[p|e] ->];
      by rewrite lookup_insert_eq.
  - destruct Hin as [[?|?]%elem_of_cons|Hacc]; [done|by left|]. right.
    destruct (urls !! j) as [uj|]; [|done].
    destruct (futures !! j) as [[p|e]|]; [| |done].
    + destruct (decide (uj = url)) as [->|];
        [by rewrite lookup_insert_eq|by rewrite lookup_insert_ne].
    + destruct (decide (uj = url)) as [->|];
        [by rewrite lookup_insert_eq|by rewrite lookup_insert_ne].
Qed.
End Collect.

Lemma imgdl_collect_lookup (futures : gmap nat (Result Path)) (order : list nat)
    (paths : list (option string)) (j : nat) :
  (j < length paths)%nat →
  Imgdl.collect futures order paths !! j
  = match futures !! j with
    | Some (Ok p) => if bool_decide (j ∈ order) then Some (Some (Path_str p))
                     else paths !! j
    | _ => paths !! j
    end.
Proof.
  unfold Imgdl.collect. revert paths.
  induction order as [|i order IH]; intros paths Hj.
  { cbn. rewrite bool_decide_eq_false_2 by apply not_elem_of_nil.
    by repeat case_match. }
  cbn [foldl]. rewrite IH; cycle 1.
  { destruct (futures !! i) as [[p|e]|]; by rewrite ?length_insert. }
  destruct (decide (i = j)) as [->|Hne].
  - destruct (futures !! j) as [[p|e]|]; [|done|done].
    rewrite (bool_decide_eq_true_2 (j ∈ j :: order)) by by left.
    case_bool_decide; [done|]. by rewrite list_lookup_insert_eq.
  - assert (Hsame : (match futures !! i with
                     | Some (Ok p) => <[i := Some (Path_str p)]> paths
                     | _ => paths
                     end) !! j = paths !! j).
    { destruct (futures !! i) as [[p|e]|]; [|done|done].
      by rewrite list_lookup_insert_ne. }
    rewrite Hsame. destruct (futures !! j) as [[p|e]|]; [|done|done].
    rewrite (bool_decide_ext (j ∈ i :: order) (j ∈ order)); [done|].
    rewrite elem_of_cons. clear IH Hsame. intuition congruence.
Qed.

Lemma imgdl_collect_length futures order paths :
  length (Imgdl.collect futures order paths) = length paths.
Proof.
  unfold Imgdl.collect. revert paths.
  induction order as [|i order IH]; intros paths; [done|].
  cbn [foldl]. rewrite IH. destruct (futures !! i) as [[p|e]|];
    by rewrite ?length_insert.
Qed.

(** ** Claims on paths, configuration and the call operator *)




(** C1 (the defect): [imagedownloader]'s constructor tests [thumbs_size]
    where it means [proxies]; given a list of proxies and the usual dict of
    thumbnail sizes it stores no proxy at all, and every fetch goes out
    direct.  [imgdl]'s validator, given the same list, keeps one record per
    proxy. *)
Theorem C1_proxy_list_dropped :
  ∃ self self',
    Imagedownloader.__init__ ["imgs"%string] 2 false (ThumbsDict []) 5 0 0
      (ProxiesList ["http://10.0.0.1:3128"%string]) ∅ None false = Ok self
    ∧ Imagedownloader.proxies self = AttrNone
    ∧ (∀ env st, Imagedownloader.get_proxy env self st = (st, Ok None))
    ∧ Imgdl.__init__ ["imgs"%string] 2 5 0 0
        (ProxiesList ["http://10.0.0.1:3128"%string]) ∅ None false false
      = Ok self'
    ∧ Imgdl.proxies self'
      = Some [format_as_dict "http://10.0.0.1:3128"].
Proof.
  eexists _, _. split; [reflexivity|]. split; [reflexivity|].
  split; [intros; reflexivity|]. split; reflexivity.
Qed.

(** C10: called with a single string, either downloader runs the task in
    the caller's thread: the stored path comes back as it is (no mapping),
    and whatever the task raises is raised by the call.  The same failing
    URL inside a list ends up as [None] in the result. *)
Theorem C10_single_url_propagates (env : Env)
    (self : Imagedownloader.ImageDownloader) (self' : Imgdl.ImageDownloader)
    (url : string) (force : bool) (pool : Pool) (st : State) :
  (∀ st' p, Imagedownloader.download_image env self url force st = (st', Ok p) →
            Imagedownloader.__call__ env self (UrlsStr url) force pool st
            = (st', Ok (Imagedownloader.RPath p)))
  ∧ (∀ st' e, Imagedownloader.download_image env self url force st = (st', Raise e) →
              Imagedownloader.__call__ env self (UrlsStr url) force pool st
              = (st', Raise e)
              ∧ Imagedownloader.__call__ env self (UrlsList [url]) force
                  (mkPool [0%nat] [0%nat]) st
                = (st', Ok (Imagedownloader.RDict {[url := None]})))
  ∧ (∀ st' p, Imgdl._download_image env self' url force None None st = (st', Ok p) →
              Imgdl.__call__ env self' (UrlsStr url) force pool st
              = (st', Ok (Imgdl.RStr (Path_str p))))
  ∧ (∀ st' e, Imgdl._download_image env self' url force None None st = (st', Raise e) →
              Imgdl.__call__ env self' (UrlsStr url) force pool st
              = (st', Raise e)
              ∧ Imgdl.__call__ env self' (UrlsList [url]) force
                  (mkPool [0%nat] [0%nat]) st
                = (st', Ok (Imgdl.RList [None]))).
Proof.
  split; [|split; [|split]]; intros st' x Hrun.
  - cbn. by erewrite bind_ok by exact Hrun.
  - split; cbn.
    + by erewrite bind_raise by exact Hrun.
    + by rewrite Hrun.
  - cbn -[Imgdl._download_image]. by erewrite bind_ok by exact Hrun.
  - split; cbn -[Imgdl._download_image].
    + by erewrite bind_raise by exact Hrun.
    + by rewrite Hrun.
Qed.

Lemma C10_single_url_propagates_witness :
  (Imagedownloader.__call__ Samples.env Samples.dl (UrlsStr "https://x/junk")
     false Samples.pool Samples.st0).2 = Raise UnidentifiedImageError
  ∧ (Imgdl.__call__ Samples.env Samples.imgdl (UrlsStr "https://x/junk")
       false Samples.pool Samples.st0).2 = Raise UnidentifiedImageError.
Proof.
  pose proof (C10_single_url_propagates Samples.env Samples.dl Samples.imgdl
                "https://x/junk" false Samples.pool Samples.st0)
    as (_ & H1 & _ & H2).
  split.
  - by rewrite (proj1 (H1 _ _ eq_refl)).
  - by rewrite (proj1 (H2 _ _ eq_refl)).
Defined.

Lemma wait_of_range (env : Env) (min_wait max_wait : Q) (st : State) :
  (0 <= min_wait)%Q → (min_wait <= max_wait)%Q →
  Qle_bool 0 (wait_of env min_wait max_wait st) = true
  ∧ (min_wait <= wait_of env min_wait max_wait st)%Q
  ∧ (wait_of env min_wait max_wait st <= max_wait)%Q.
Proof.
  intros Hmin Hle. unfold wait_of.
  set (r := random_bits env (rng st) mod 2 ^ 53).
  assert (Hr : 0 ≤ r < 2 ^ 53) by (apply Z.mod_pos_bound; lia).
  set (t := (r # 9007199254740992)%Q).
  assert (Ht0 : (0 <= t)%Q) by (unfold Qle; cbn; lia).
  assert (Ht1 : (t <= 1)%Q) by (unfold Qle; cbn; lia).
  assert (Hd : (0 <= max_wait - min_wait)%Q) by lra.
  assert (Hp0 : (0 <= (max_wait - min_wait) * t)%Q) by nra.
  assert (Hp1 : ((max_wait - min_wait) * t <= max_wait - min_wait)%Q) by nra.
  rewrite Qle_bool_iff. repeat split; lra.
Qed.

(** ** Claims on one task *)

Section Claims.

Context (env : Env).

Lemma thumb_events_only (self : Imagedownloader.ImageDownloader) (url : string)
    (evs : list Event) :
  Forall (thumb_event self url) evs →
  (∀ d, EvSleep d ∉ evs) ∧ (∀ u proxy, EvGet u proxy ∉ evs)
  ∧ (∀ u buf, EvWrite (Imagedownloader.file_path self u) buf ∉ evs).
Proof.
  intros Hall. rewrite Forall_forall in Hall.
  repeat split; intros; intros Hin; apply Hall in Hin as (thumb_id & b & Heq);
    try discriminate.
  injection Heq as Heq _. by eapply file_not_thumb; eexists.
Qed.






Lemma download_image_sleep (self : Imagedownloader.ImageDownloader)
    url force st st1 proxy st' r :
  (0 <= Imagedownloader.min_wait self)%Q →
  (Imagedownloader.min_wait self <= Imagedownloader.max_wait self)%Q →
  Imagedownloader.get_proxy env self st = (st1, Ok proxy) →
  Imagedownloader.download_image env self url force st = (st', r) →
  let path := Imagedownloader.file_path self url in
  ∃ evs,
    trace st' = trace st ++ evs
    ∧ ((∃ d, EvSleep d ∈ evs)
       ↔ (fs st !! path = None ∨ force = true)
         ∧ ∃ buf, fresh_jpeg env url (Imagedownloader.timeout self) proxy
                    (Imagedownloader.headers self) = Ok buf
                  ∧ persist_mode env path buf = WriteOk)
    ∧ (∀ d, EvSleep d ∈ evs →
            (Imagedownloader.min_wait self <= d)%Q
            ∧ (d <= Imagedownloader.max_wait self)%Q
            ∧ ∃ buf rest, evs = EvGet url proxy :: EvWrite path buf
                                  :: EvSleep d :: rest).
Proof.
  intros Hmin Hmax Hproxy Hrun. cbn zeta.
  destruct (download_image_trace env _ _ _ _ _ _ _ _ Hproxy Hrun)
    as (evs_f & evs_t & Htr & Hthumb & Hres & Hcase). cbn zeta in Hcase.
  pose proof (thumb_events_only _ _ _ Hthumb) as (Hns & Hng & Hnw).
  pose proof (wait_of_range env _ _ st1 Hmin Hmax) as (Hw & Hlo & Hhi).
  exists (evs_f ++ evs_t). split; [done|].
  pose proof (gate_spec (fs st) (Imagedownloader.file_path self url) force)
    as Hgs.
  assert (Hno : ∀ d, EvSleep d ∈ [EvGet url proxy] ++ [] → False).
  { intros d [Hin|[]%elem_of_nil]%elem_of_app.
    apply list_elem_of_singleton in Hin. discriminate. }
  destruct (negb _ || force).
  2: { rewrite Hcase. cbn [app]. split.
       - split; [by intros [d ?%Hns]|]. intros [Hg%Hgs _]. discriminate.
       - by intros d ?%Hns. }
  destruct (fresh_jpeg env url _ proxy _) as [buf|e].
  2: { destruct Hcase as (-> & -> & _). split.
       - split; [by intros [d ?%Hno]|]. by intros [_ (buf & [=] & _)].
       - by intros d ?%Hno. }
  destruct (persist_mode env _ buf) eqn:Hmode.
  - destruct Hcase as (-> & -> & _). split.
    + split; [by intros [d ?%Hno]|]. intros [_ (buf' & [= <-] & ?)]; congruence.
    + by intros d ?%Hno.
  - destruct Hcase as (-> & -> & _). split.
    + split; [by intros [d ?%Hno]|]. intros [_ (buf' & [= <-] & ?)]; congruence.
    + by intros d ?%Hno.
  - cbn zeta in Hcase. destruct Hcase as (_ & Hcase). rewrite Hw in Hcase.
    subst evs_f. split.
    + split; [intros _; split; [by apply Hgs|by eauto]|].
      intros _. eexists. rewrite elem_of_app. left.
      do 2 (apply elem_of_cons; right). by left.
    + intros d [Hin|Hin%Hns]%elem_of_app; [|done].
      repeat (apply elem_of_cons in Hin as [Hin|Hin]; try discriminate).
      2: by apply elem_of_nil in Hin.
      injection Hin as ->. split; [done|]. split; [done|]. by eexists _, _.
Qed.

Lemma _download_image_sleep (self : Imgdl.ImageDownloader)
    url force st st1 proxy st' r :
  (0 <= Imgdl.min_wait self)%Q →
  (Imgdl.min_wait self <= Imgdl.max_wait self)%Q →
  Imgdl.get_proxy env self st = (st1, Ok proxy) →
  Imgdl._download_image env self url force None None st = (st', r) →
  let path := Imgdl.file_path self url in
  ∃ evs,
    trace st' = trace st ++ evs
    ∧ ((∃ d, EvSleep d ∈ evs)
       ↔ (fs st !! path = None ∨ force = true)
         ∧ ∃ buf, fresh_jpeg env url (Imgdl.timeout self) (session_proxy proxy)
                    (Imgdl.headers self) = Ok buf
                  ∧ persist_mode env path buf = WriteOk)
    ∧ (∀ d, EvSleep d ∈ evs →
            (Imgdl.min_wait self <= d)%Q ∧ (d <= Imgdl.max_wait self)%Q
            ∧ ∃ buf rest, evs = EvGet url (session_proxy proxy)
                                  :: EvWrite path buf :: EvSleep d :: rest).
Proof.
  intros Hmin Hmax Hproxy Hrun. cbn zeta.
  destruct (_download_image_trace env _ _ _ _ _ _ _ _ Hproxy Hrun)
    as (evs & Htr & _ & _ & Hcase). cbn zeta in Hcase.
  pose proof (wait_of_range env _ _ st1 Hmin Hmax) as (Hw & Hlo & Hhi).
  exists evs. split; [done|].
  pose proof (gate_spec (fs st) (Imgdl.file_path self url) force) as Hgs.
  assert (Hno : ∀ d, EvSleep d ∈ [EvGet url (session_proxy proxy)] → False).
  { intros d Hin. apply list_elem_of_singleton in Hin. discriminate. }
  destruct (negb _ || force).
  2: { destruct Hcase as (-> & _). split.
       - split; [by intros [d []%elem_of_nil]|]. intros [Hg%Hgs _]. discriminate.
       - by intros d []%elem_of_nil. }
  destruct (fresh_jpeg env url _ _ _) as [buf|e].
  2: { destruct Hcase as (-> & _). split.
       - split; [by intros [d ?%Hno]|]. by intros [_ (buf & [=] & _)].
       - by intros d ?%Hno. }
  destruct (persist_mode env _ buf) eqn:Hmode.
  - destruct Hcase as (-> & _). split.
    + split; [by intros [d ?%Hno]|]. intros [_ (buf' & [= <-] & ?)]; congruence.
    + by intros d ?%Hno.
  - destruct Hcase as (-> & _). split.
    + split; [by intros [d ?%Hno]|]. intros [_ (buf' & [= <-] & ?)]; congruence.
    + by intros d ?%Hno.
  - cbn zeta in Hcase. destruct Hcase as (_ & Hcase). rewrite Hw in Hcase.
    destruct Hcase as (-> & _). split.
    + split; [intros _; split; [by apply Hgs|by eauto]|].
      intros _. eexists. do 2 (apply elem_of_cons; right). by left.
    + intros d Hin.
      repeat (apply elem_of_cons in Hin as [Hin|Hin]; try discriminate).
      2: by apply elem_of_nil in Hin.
      injection Hin as ->. split; [done|]. split; [done|]. by eexists _, _.
Qed.

(** C9 (amended): with [0 <= min_wait <= max_wait], the sleep happens if and
    only if the fetch was tried (file missing or [force]) and fetch, decode,
    encode and write all succeeded; it then comes right after the write and
    lasts between [min_wait] and [max_wait].  A skipped URL never sleeps,
    and neither does a task whose fetch, decode or write failed. *)
Theorem C9_sleep_after_persist (self : Imagedownloader.ImageDownloader)
    (self' : Imgdl.ImageDownloader) (url : string) (force : bool) (st : State) :
  (0 <= Imagedownloader.min_wait self)%Q →
  (Imagedownloader.min_wait self <= Imagedownloader.max_wait self)%Q →
  (0 <= Imgdl.min_wait self')%Q →
  (Imgdl.min_wait self' <= Imgdl.max_wait self')%Q →
  (∀ st1 proxy st' r,
     Imagedownloader.get_proxy env self st = (st1, Ok proxy) →
     Imagedownloader.download_image env self url force st = (st', r) →
     let path := Imagedownloader.file_path self url in
     ∃ evs,
       trace st' = trace st ++ evs
       ∧ ((∃ d, EvSleep d ∈ evs)
          ↔ (fs st !! path = None ∨ force = true)
            ∧ ∃ buf, fresh_jpeg env url (Imagedownloader.timeout self) proxy
                       (Imagedownloader.headers self) = Ok buf
                     ∧ persist_mode env path buf = WriteOk)
       ∧ (∀ d, EvSleep d ∈ evs →
               (Imagedownloader.min_wait self <= d)%Q
               ∧ (d <= Imagedownloader.max_wait self)%Q
               ∧ ∃ buf rest, evs = EvGet url proxy :: EvWrite path buf
                                     :: EvSleep d :: rest))
  ∧ (∀ st1 proxy st' r,
       Imgdl.get_proxy env self' st = (st1, Ok proxy) →
       Imgdl._download_image env self' url force None None st = (st', r) →
       let path := Imgdl.file_path self' url in
       ∃ evs,
         trace st' = trace st ++ evs
         ∧ ((∃ d, EvSleep d ∈ evs)
            ↔ (fs st !! path = None ∨ force = true)
              ∧ ∃ buf, fresh_jpeg env url (Imgdl.timeout self')
                         (session_proxy proxy) (Imgdl.headers self') = Ok buf
                       ∧ persist_mode env path buf = WriteOk)
         ∧ (∀ d, EvSleep d ∈ evs →
                 (Imgdl.min_wait self' <= d)%Q ∧ (d <= Imgdl.max_wait self')%Q
                 ∧ ∃ buf rest, evs = EvGet url (session_proxy proxy)
                                       :: EvWrite path buf :: EvSleep d :: rest)).
Proof.
  intros H1 H2 H3 H4. split; intros st1 proxy st' r Hproxy Hrun.
  - by eapply download_image_sleep.
  - by eapply _download_image_sleep.
Qed.
End Claims.

(** C9 as stated fails: a fetch whose payload is no image is performed and
    followed by no sleep. *)
Lemma C9_counterexample : ¬ sleeps_iff_fetched.
Proof.
  intros Hclaim.
  destruct (Hclaim Samples.env Samples.dl "https://x/junk" false Samples.st0
              _ _ [EvGet "https://x/junk" None] eq_refl eq_refl) as [_ Hsleep].
  destruct Hsleep as [d Hin]; [eexists; by left|].
  apply list_elem_of_singleton in Hin. discriminate.
Qed.

Section Abort.

Context (env : Env).

Lemma thumbs_loop_set_thumbs self items' url force path items orig_img st :
  Imagedownloader.thumbs_loop env (set_thumbs_size self items') url force path
    items orig_img st
  = Imagedownloader.thumbs_loop env self url force path items orig_img st.
Proof.
  revert orig_img st. induction items as [|[thumb_id size] items IH];
    intros orig_img st; [done|].
  rewrite !thumbs_loop_cons. cbn zeta.
  change (Imagedownloader.thumb_path (set_thumbs_size self items') url thumb_id)
    with (Imagedownloader.thumb_path self url thumb_id).
  destruct (negb _ || force); [|by apply IH].
  destruct (match orig_img with Some img => _ | None => _ end)
    as [st1 [img|e1]]; [|done].
  destruct (convert_image env img (Some size) st1) as [st2 [[? buf]|e2]];
    [|done].
  destruct (_persist_file env _ buf st2) as [st3 [[]|e3]]; [|done].
  apply IH.
Qed.

Lemma download_image_set_thumbs self items url force st :
  Imagedownloader.download_image env (set_thumbs_size self items) url force st
  = let path := Imagedownloader.file_path self url in
    if negb (bool_decide (is_Some (fs st !! path))) || force then
      match Imagedownloader.get_proxy env self st with
      | (st1, Raise e) => (st1, Raise e)
      | (st1, Ok proxy) =>
          match fetch_core env url (Imagedownloader.timeout self) proxy
                  (Imagedownloader.headers self) (Imagedownloader.min_wait self)
                  (Imagedownloader.max_wait self) path st1 with
          | (st2, Raise e) => (st2, Raise e)
          | (st2, Ok orig_img) =>
              match Imagedownloader.thumbs_loop env self url force path items
                      (Some orig_img) st2 with
              | (st3, Raise e) => (st3, Raise e)
              | (st3, Ok _) => (st3, Ok path)
              end
          end
      end
    else
      match Imagedownloader.thumbs_loop env self url force path items None st with
      | (st3, Raise e) => (st3, Raise e)
      | (st3, Ok _) => (st3, Ok path)
      end.
Proof.
  rewrite download_image_unfold. cbn zeta.
  change (Imagedownloader.file_path (set_thumbs_size self items) url)
    with (Imagedownloader.file_path self url).
  change (Imagedownloader.get_proxy env (set_thumbs_size self items))
    with (Imagedownloader.get_proxy env self).
  cbn [Imagedownloader.thumbs_size Imagedownloader.timeout
       Imagedownloader.headers Imagedownloader.min_wait
       Imagedownloader.max_wait set_thumbs_size].
  by rewrite !thumbs_loop_set_thumbs.
Qed.

(** C2 (amended): an exception raised while a thumbnail spec is produced
    ends the task for that URL there and then: the specs that follow it in
    [thumbs_size] are not attempted.  Whatever specs are appended after the
    failing one, the task leaves the same state and raises the same
    exception. *)
Theorem C2_thumbnail_failure_aborts (self : Imagedownloader.ImageDownloader)
    (url : string) (force : bool)
    (items rest : list (string * (Z * Z))) (st st' : State) (e : Exc) :
  Imagedownloader.download_image env (set_thumbs_size self items) url force st
  = (st', Raise e) →
  Imagedownloader.download_image env (set_thumbs_size self (items ++ rest))
    url force st
  = (st', Raise e).
Proof.
  rewrite !download_image_set_thumbs. cbn zeta.
  destruct (negb _ || force).
  - destruct (Imagedownloader.get_proxy env self st) as [st1 [proxy|e1]];
      [|done].
    destruct (fetch_core env url _ proxy _ _ _ _ st1) as [st2 [orig|e2]];
      [|done].
    destruct (Imagedownloader.thumbs_loop env self url force _ items _ st2)
      as [st3 [[]|e3]] eqn:Hloop; [done|].
    intros [= <- <-]. by rewrite (thumbs_loop_abort env _ _ _ _ _ rest _ _ _ _ Hloop).
  - destruct (Imagedownloader.thumbs_loop env self url force _ items _ st)
      as [st3 [[]|e3]] eqn:Hloop; [done|].
    intros [= <- <-]. by rewrite (thumbs_loop_abort env _ _ _ _ _ rest _ _ _ _ Hloop).
Qed.
End Abort.


Lemma C2_thumbnail_failure_aborts_witness :
  Imagedownloader.download_image Samples.env_ro
    (set_thumbs_size Samples.dl ([("a"%string, (100, 100))] ++ [("b"%string, (50, 50))]))
    "https://x/b.jpg" false Samples.st0
  = ((Imagedownloader.download_image Samples.env_ro
        (set_thumbs_size Samples.dl [("a"%string, (100, 100))])
        "https://x/b.jpg" false Samples.st0).1,
     Raise (PermissionError
              (Imagedownloader.thumb_path Samples.dl "https://x/b.jpg" "a"))).
Proof.
  apply (C2_thumbnail_failure_aborts Samples.env_ro Samples.dl
           "https://x/b.jpg" false [("a"%string, (100, 100))]
           [("b"%string, (50, 50))]).
  vm_compute. reflexivity.
Defined.

(** C2 as stated fails: with the directory of spec "a" read-only, the task
    stores the original, raises on "a" and never produces "b", although "b"
    is produced when it is the only spec configured. *)
Lemma C2_counterexample : ¬ thumbs_independent.
Proof.
  intros Hclaim.
  set (run := Imagedownloader.download_image Samples.env_ro Samples.dl_ab
                "https://x/b.jpg" false Samples.st0).
  set (alone := Imagedownloader.download_image Samples.env_ro
                  (set_thumbs_size Samples.dl_ab [("b"%string, (50, 50))])
                  "https://x/b.jpg" false Samples.st0).
  assert (Hin : ("b"%string, (50, 50)) ∈ Imagedownloader.thumbs_size Samples.dl_ab)
    by (apply elem_of_cons; right; by left).
  assert (Halone : alone
                   = (alone.1, Ok (Imagedownloader.file_path Samples.dl_ab
                                     "https://x/b.jpg")))
    by (vm_compute; reflexivity).
  pose proof (Hclaim Samples.env_ro Samples.dl_ab "https://x/b.jpg" false
                Samples.st0 run.1 alone.1 run.2 "b"%string (50, 50) _
                (surjective_pairing run) Hin Halone) as H.
  vm_compute in H. by destruct H.
Qed.

(** ** Claims on the batch *)

Section Batch.

Context (env : Env).

Lemma _download_image_touches (self : Imgdl.ImageDownloader) url force st st' r :
  Imgdl._download_image env self url force None None st = (st', r) →
  touches (λ p, p = Imgdl.file_path self url)
          (fetch_event url (Imgdl.file_path self url)) st st'
  ∧ (∀ p, r = Ok p → p = Imgdl.file_path self url ∧ is_Some (fs st' !! p)).
Proof.
  rewrite _download_image_unfold.
  destruct (Imgdl.get_proxy env self st) as [st1 [proxy|e]] eqn:Hp.
  2: { intros [= <- <-]. split; [|done].
       apply imgdl_get_proxy_frame in Hp as (? & _ & ?). by apply touches_eq. }
  apply imgdl_get_proxy_frame in Hp as (Hfs1 & _ & Htr1).
  assert (H1 : touches (λ p, p = Imgdl.file_path self url)
                 (fetch_event url (Imgdl.file_path self url)) st st1)
    by by apply touches_eq.
  cbn zeta. destruct (negb _ || force) eqn:Hgate.
  2: { intros [= <- <-]. split; [done|]. intros p [= <-]. split; [done|].
       apply orb_false_iff in Hgate as [Hex _].
       by apply negb_false_iff, bool_decide_eq_true in Hex. }
  destruct (fetch_core env url _ _ _ _ _ _ st1) as [st2 rf] eqn:Hf.
  apply fetch_core_outcome, fetch_outcome_touches in Hf as [H2 Hex].
  destruct rf as [orig|e]; intros [= <- <-].
  - split; [by eapply touches_trans|]. intros p [= <-]. eauto.
  - split; [by eapply touches_trans|done].
Qed.

Lemma pool_results {A} (task : string → M A) (urls : list string)
    (path_of : string → Path) (str : A → Path) (order : list nat)
    (st st' : State) (futures : gmap nat (Result A)) :
  (∀ url s s' r, task url s = (s', r) →
     (∀ p, is_Some (fs s !! p) → is_Some (fs s' !! p))
     ∧ ∀ p, r = Ok p → str p = path_of url ∧ is_Some (fs s' !! path_of url)) →
  order ≡ₚ seq 0 (length urls) →
  run_pool task urls order ∅ st = (st', futures) →
  (∀ i url, urls !! i = Some url → is_Some (futures !! i))
  ∧ (∀ i r, futures !! i = Some r → task_post task urls path_of str i r st').
Proof.
  intros Htask Hperm Hrun. split.
  - intros i url Hi. apply (run_pool_dom _ _ _ _ _ _ _ Hrun). right.
    apply lookup_lt_Some in Hi. split; [|done].
    rewrite Hperm. apply elem_of_seq. lia.
  - eapply (run_pool_post task urls (task_post task urls path_of str));
      [| |exact Hrun|].
    + intros i url s s1 r Hi Hr. exists url. split; [done|].
      split; [by eauto|]. by apply (Htask _ _ _ _ Hr).
    + intros i r url s s1 r1 (u & Hi & Hr & Hp) Hr1. exists u.
      split; [done|]. split; [done|]. intros p Hok.
      destruct (Hp p Hok) as [? ?]. split; [done|].
      by apply (Htask _ _ _ _ Hr1).
    + intros i r. by rewrite lookup_empty.
Qed.

(** C3: called on a list, either downloader returns normally whatever the
    tasks do, for every order in which the pool runs the tasks and hands
    them back.  Every URL's task is run; a task that raises leaves [None]
    for its URL and a task that returns leaves the path of its URL, whose
    file then exists; each entry comes from a task of that very URL (of the
    very position, in [imgdl]); and a task, failing or not, writes no file
    but those of its own URL. *)
Theorem C3_batch_contains_failures (self : Imagedownloader.ImageDownloader)
    (self' : Imgdl.ImageDownloader) (urls : list string) (force : bool)
    (pool : Pool) (st : State) :
  sched pool ≡ₚ seq 0 (length urls) →
  done_order pool ≡ₚ seq 0 (length urls) →
  (∃ st' futures paths,
     run_pool (λ url, Imagedownloader.download_image env self url force)
              urls (sched pool) ∅ st = (st', futures)
     ∧ Imagedownloader.__call__ env self (UrlsList urls) force pool st
       = (st', Ok (Imagedownloader.RDict paths))
     ∧ (∀ i url, urls !! i = Some url → is_Some (futures !! i))
     ∧ (∀ i r, futures !! i = Some r →
          task_post (λ url, Imagedownloader.download_image env self url force)
                    urls (Imagedownloader.file_path self) id i r st')
     ∧ (∀ url, url ∈ urls ↔ is_Some (paths !! url))
     ∧ (∀ url o, paths !! url = Some o → recorded urls futures url o)
     ∧ (NoDup urls → ∀ i url r,
          urls !! i = Some url → futures !! i = Some r →
          paths !! url = Some (outcome r)))
  ∧ (∀ url s s' r,
       Imagedownloader.download_image env self url force s = (s', r) →
       touches (url_file self url) (url_event self url) s s')
  ∧ (∃ st' futures paths,
       run_pool (λ url, Imgdl._download_image env self' url force None None)
                urls (sched pool) ∅ st = (st', futures)
       ∧ Imgdl.__call__ env self' (UrlsList urls) force pool st
         = (st', Ok (Imgdl.RList paths))
       ∧ length paths = length urls
       ∧ (∀ i url, urls !! i = Some url →
            ∃ r, futures !! i = Some r
                 ∧ paths !! i = Some (Path_str <$> outcome r))
       ∧ (∀ i r, futures !! i = Some r →
            task_post (λ url, Imgdl._download_image env self' url force None None)
                      urls (Imgdl.file_path self') id i r st'))
  ∧ (∀ url s s' r,
       Imgdl._download_image env self' url force None None s = (s', r) →
       touches (λ p, p = Imgdl.file_path self' url)
               (fetch_event url (Imgdl.file_path self' url)) s s').
Proof.
  intros Hsched Hdone. split; [|split; [|split]].
  - destruct (run_pool (λ url, Imagedownloader.download_image env self url force)
                urls (sched pool) ∅ st) as [st' futures] eqn:Hrun.
    destruct (pool_results
                (λ url, Imagedownloader.download_image env self url force)
                urls (Imagedownloader.file_path self) id
                (sched pool) st st' futures) as [Hall Hpost];
      [|done|done|].
    { intros url s s' r Hr.
      apply download_image_touches in Hr as [(_ & Hmono & _) Hok].
      split; [done|]. intros p Hp. destruct (Hok p Hp) as [-> ?]. done. }
    exists st', futures, (Imagedownloader.collect urls futures (done_order pool)).
    split; [done|]. split; [by cbn; rewrite Hrun|].
    split; [done|]. split; [done|].
    assert (Hcomplete : ∀ i url, urls !! i = Some url →
              is_Some (Imagedownloader.collect urls futures (done_order pool)
                       !! url)).
    { intros i url Hi. eapply collect_complete; [|done|by eauto].
      rewrite Hdone. apply elem_of_seq. apply lookup_lt_Some in Hi. lia. }
    split; [|split; [by apply collect_sound|]].
    + intros url. split.
      * intros (i & Hi)%list_elem_of_lookup. by eapply Hcomplete.
      * intros [o (i & r & Hi & _)%collect_sound].
        apply list_elem_of_lookup. eauto.
    + intros Hnd i url r Hi Hr.
      destruct (Hcomplete i url Hi) as [o Ho]. rewrite Ho.
      apply collect_sound in Ho as (i' & r' & Hi' & Hr' & ->).
      assert (i' = i) as -> by by eapply NoDup_lookup.
      congruence.
  - intros url s s' r Hr. by apply download_image_touches in Hr as [? _].
  - destruct (run_pool (λ url, Imgdl._download_image env self' url force None None)
                urls (sched pool) ∅ st) as [st' futures] eqn:Hrun.
    destruct (pool_results
                (λ url, Imgdl._download_image env self' url force None None)
                urls (Imgdl.file_path self') id
                (sched pool) st st' futures) as [Hall Hpost];
      [|done|done|].
    { intros url s s' r Hr.
      apply _download_image_touches in Hr as [(_ & Hmono & _) Hok].
      split; [done|]. intros p Hp. destruct (Hok p Hp) as [-> ?]. done. }
    exists st', futures,
      (Imgdl.collect futures (done_order pool) (replicate (length urls) None)).
    split; [done|].
    split; [by cbn -[Imgdl._download_image]; rewrite Hrun|].
    split; [by rewrite imgdl_collect_length, length_replicate|].
    split; [|done].
    intros i url Hi. destruct (Hall i url Hi) as [r Hr]. exists r.
    split; [done|]. apply lookup_lt_Some in Hi.
    rewrite imgdl_collect_lookup by by rewrite length_replicate.
    rewrite Hr. destruct r as [p|e]; cbn.
    + rewrite bool_decide_eq_true_2; [done|].
      rewrite Hdone. apply elem_of_seq. lia.
    + by apply lookup_replicate_2.
  - intros url s s' r Hr. by apply _download_image_touches in Hr as [? _].
Qed.
End Batch.

Lemma C3_batch_contains_failures_witness :
  ∃ st' paths,
    Imagedownloader.__call__ Samples.env Samples.dl (UrlsList Samples.batch)
      false Samples.pool Samples.st0
    = (st', Ok (Imagedownloader.RDict paths))
    ∧ is_Some (paths !! "https://x/bad"%string).
Proof.
  destruct (C3_batch_contains_failures Samples.env Samples.dl Samples.imgdl
              Samples.batch false Samples.pool Samples.st0)
    as [(st' & futures & paths & _ & Hcall & _ & _ & Hdom & _) _].
  - exact (Permutation_app_comm [2%nat] [0%nat; 1%nat]).
  - exact (Permutation_app_comm [1%nat; 2%nat] [0%nat]).
  - exists st', paths. split; [exact Hcall|]. apply Hdom.
    apply elem_of_cons. right. apply elem_of_cons. by left.
Defined.

(** ** The theorems at work on the sample worlds *)



Lemma C7_canonical_jpeg_witness :
  canonical Samples.env Samples.png_rgba
  = Ok (PIL.mkImage None "RGB" (2, 1) [[10; 20; 30]; [255; 255; 255]]).
Proof.
  destruct (C7_canonical_jpeg Samples.env Samples.st_png 0 Samples.png_rgba
              None eq_refl) as (Hpng & _).
  apply Hpng; [reflexivity|reflexivity|].
  split; [reflexivity|]. by repeat constructor.
Defined.

Lemma C8_thumbnail_on_copy_witness :
  ∃ st' img' buf,
    convert_image Samples.env 0 (Some (100, 100)) Samples.st_jpeg
    = (st', Ok (img', buf))
    ∧ heap st' !! 0%nat = Some Samples.jpeg_rgb
    ∧ PIL.size <$> heap st' !! img' = Some (100, 60).
Proof.
  destruct (C8_thumbnail_on_copy Samples.env Samples.st_jpeg 0
              Samples.jpeg_rgb 100 100 eq_refl)
    as (st' & r & Hrun & Hkeep & _ & _ & _ & _); [lia|lia|cbn; lia|cbn; lia|].
  exists st', 1%nat, [74; 100; 60]. split; [|split].
  - rewrite Hrun. by vm_compute in Hrun; injection Hrun as <- <-.
  - by apply Hkeep.
  - by vm_compute in Hrun; injection Hrun as <- _.
Defined.

Lemma C9_sleep_after_persist_witness :
  ∃ evs,
    trace (Imagedownloader.download_image Samples.env Samples.dl
             "https://x/a.png" false Samples.st0).1
    = trace Samples.st0 ++ evs
    ∧ ∃ d, EvSleep d ∈ evs.
Proof.
  destruct (C9_sleep_after_persist Samples.env Samples.dl Samples.imgdl
              "https://x/a.png" false Samples.st0) as [H _];
    try (cbn; apply Qle_refl).
  destruct (H Samples.st0 None _ _ eq_refl (surjective_pairing _))
    as (evs & Htr & Hiff & _).
  exists evs. split; [exact Htr|]. apply Hiff. split.
  - left. apply lookup_empty.
  - eexists. split; reflexivity.
Defined.

(** * Further properties of the code

    Properties of the two downloaders, of the batch functions built on
    them and of the command line reader that the code shows beyond the
    sentences of the specification. *)

(** ** A task that returned: what is on disk, and running it again *)

Section Rerun.
Context (env : Env) (self : Imagedownloader.ImageDownloader) (url : string).

Lemma thumbs_loop_done force path items orig_img st st' u :
  Imagedownloader.thumbs_loop env self url force path items orig_img st
  = (st', Ok u) →
  ∀ thumb_id size, (thumb_id, size) ∈ items →
    is_Some (fs st' !! Imagedownloader.thumb_path self url thumb_id).
Proof.
  revert orig_img st. induction items as [|[id0 size0] items IH];
    intros orig_img st Hrun thumb_id size Hin.
  { by apply elem_of_nil in Hin. }
  rewrite thumbs_loop_cons in Hrun. cbn zeta in Hrun.
  destruct (negb _ || force) eqn:Hgate.
  - destruct (match orig_img with Some img => _ | None => _ end)
      as [st1 [img|e]]; [|done].
    destruct (convert_image env img (Some size0) st1) as [st2 [[? buf]|e]];
      [|done].
    destruct (_persist_file env _ buf st2) as [st3 [[]|e]] eqn:Hp; [|done].
    apply elem_of_cons in Hin as [[= -> ->]|Hin]; [|by eapply IH].
    apply thumbs_loop_touches in Hrun as (_ & Hkeep & _). apply Hkeep.
    rewrite _persist_file_run in Hp.
    destruct (persist_mode env _ buf); try done.
    injection Hp as <-. cbn. by rewrite lookup_insert_eq.
  - apply elem_of_cons in Hin as [[= -> ->]|Hin]; [|by eapply IH].
    apply thumbs_loop_touches in Hrun as (_ & Hkeep & _). apply Hkeep.
    apply orb_false_iff in Hgate as [Hex _].
    by apply negb_false_iff, bool_decide_eq_true in Hex.
Qed.

Lemma thumbs_loop_skip path items orig_img st :
  (∀ thumb_id size, (thumb_id, size) ∈ items →
     is_Some (fs st !! Imagedownloader.thumb_path self url thumb_id)) →
  Imagedownloader.thumbs_loop env self url false path items orig_img st
  = (st, Ok tt).
Proof.
  induction items as [|[id0 size0] items IH]; intros Hall; [done|].
  rewrite thumbs_loop_cons. cbn zeta.
  rewrite bool_decide_eq_true_2 by (eapply Hall; by left). cbn.
  apply IH. intros ???; eapply Hall; by right.
Qed.

Lemma download_image_done force st st' p :
  Imagedownloader.download_image env self url force st = (st', Ok p) →
  p = Imagedownloader.file_path self url
  ∧ is_Some (fs st' !! p)
  ∧ ∀ thumb_id size, (thumb_id, size) ∈ Imagedownloader.thumbs_size self →
      is_Some (fs st' !! Imagedownloader.thumb_path self url thumb_id).
Proof.
  intros Hrun.
  destruct (download_image_touches env _ _ _ _ _ _ Hrun) as [_ Hp].
  destruct (Hp p eq_refl) as [-> Hex]. split; [done|]. split; [done|].
  pose proof (download_image_inv env _ _ _ _ _ _ Hrun) as Hinv.
  cbn zeta in Hinv. destruct (negb _ || force).
  - destruct Hinv as (st1 & [proxy|e] & _ & Hinv); [|by destruct Hinv].
    destruct Hinv as (st2 & [orig|e] & _ & Hinv); [|by destruct Hinv].
    destruct Hinv as ([u|e] & Hloop & Hr); [|done].
    by eapply thumbs_loop_done.
  - destruct Hinv as ([u|e] & Hloop & Hr); [|done].
    by eapply thumbs_loop_done.
Qed.

Lemma download_image_cached st :
  is_Some (fs st !! Imagedownloader.file_path self url) →
  (∀ thumb_id size, (thumb_id, size) ∈ Imagedownloader.thumbs_size self →
     is_Some (fs st !! Imagedownloader.thumb_path self url thumb_id)) →
  Imagedownloader.download_image env self url false st
  = (st, Ok (Imagedownloader.file_path self url)).
Proof.
  intros Hex Hall. rewrite download_image_unfold. cbn zeta.
  rewrite bool_decide_eq_true_2 by done. cbn.
  by rewrite thumbs_loop_skip.
Qed.

End Rerun.

(** X1: when [download_image] returns, what it returns is the path of the
    URL, the original is on disk there, and so is the thumbnail of every
    configured spec. *)
Theorem X1_success_stores_all (env : Env)
    (self : Imagedownloader.ImageDownloader) (url : string) (force : bool)
    (st st' : State) (p : Path) :
  Imagedownloader.download_image env self url force st = (st', Ok p) →
  p = Imagedownloader.file_path self url
  ∧ is_Some (fs st' !! p)
  ∧ ∀ thumb_id size, (thumb_id, size) ∈ Imagedownloader.thumbs_size self →
      is_Some (fs st' !! Imagedownloader.thumb_path self url thumb_id).
Proof. apply download_image_done. Qed.

Lemma X1_success_stores_all_witness :
  is_Some (fs (Imagedownloader.download_image Samples.env Samples.dl_ab
                 "https://x/b.jpg" false Samples.st0).1
           !! Imagedownloader.thumb_path Samples.dl_ab "https://x/b.jpg" "b").
Proof.
  destruct (Imagedownloader.download_image Samples.env Samples.dl_ab
              "https://x/b.jpg" false Samples.st0) as [st' r] eqn:Hrun.
  assert (Hr : r = Ok (Imagedownloader.file_path Samples.dl_ab "https://x/b.jpg")).
  { apply (f_equal snd) in Hrun. cbn [snd] in Hrun. rewrite <- Hrun.
    vm_compute. reflexivity. }
  subst r.
  destruct (X1_success_stores_all _ _ _ _ _ _ _ Hrun) as (_ & _ & Hthumbs).
  cbn [fst]. apply (Hthumbs "b"%string (50, 50)).
  by apply list_elem_of_lookup_2 with 1%nat.
Defined.

(** X2: a task that returned is not run twice: called again on the same URL
    without [force], [download_image] returns the same path and leaves the
    state as it is: nothing is requested, decoded, written or slept. *)
Theorem X2_rerun_is_noop (env : Env)
    (self : Imagedownloader.ImageDownloader) (url : string) (force : bool)
    (st st' : State) (p : Path) :
  Imagedownloader.download_image env self url force st = (st', Ok p) →
  Imagedownloader.download_image env self url false st' = (st', Ok p).
Proof.
  intros (-> & Hex & Hall)%download_image_done.
  by apply download_image_cached.
Qed.

Lemma X2_rerun_is_noop_witness :
  ∃ st', 
    Imagedownloader.download_image Samples.env Samples.dl_ab
      "https://x/b.jpg" false st'
    = (st', Ok (Imagedownloader.file_path Samples.dl_ab "https://x/b.jpg"))
    ∧ trace st' ≠ [].
Proof.
  destruct (Imagedownloader.download_image Samples.env Samples.dl_ab
              "https://x/b.jpg" true Samples.st0) as [st' r] eqn:Hrun.
  assert (Hr : r = Ok (Imagedownloader.file_path Samples.dl_ab "https://x/b.jpg")).
  { apply (f_equal snd) in Hrun. cbn [snd] in Hrun. rewrite <- Hrun.
    vm_compute. reflexivity. }
  subst r. exists st'. split.
  - exact (X2_rerun_is_noop _ _ _ _ _ _ _ Hrun).
  - apply (f_equal (λ x, trace x.1)) in Hrun. cbn [fst] in Hrun.
    rewrite <- Hrun. vm_compute. discriminate.
Defined.
(** ** The pool, step by step *)

Section PoolInv.
Context {A : Type} (task : string → M A) (urls : list string).

Lemma run_pool_inv (I : State → Prop) (E : Event → Prop)
    (Post : nat → Result A → Prop) :
  (∀ i url s s' r, urls !! i = Some url → I s → task url s = (s', r) →
     I s' ∧ Post i r ∧ ∃ evs, trace s' = trace s ++ evs ∧ Forall E evs) →
  ∀ order futures st st' futures',
    I st → (∀ i r, futures !! i = Some r → Post i r) →
    run_pool task urls order futures st = (st', futures') →
    I st' ∧ (∀ i r, futures' !! i = Some r → Post i r)
    ∧ ∃ evs, trace st' = trace st ++ evs ∧ Forall E evs.
Proof.
  intros Hstep order.
  induction order as [|j order IH]; intros futures st st' futures' HI Hpre.
  { intros [= <- <-]. split; [done|]. split; [done|].
    exists []. by rewrite app_nil_r. }
  cbn [run_pool]. destruct (urls !! j) as [url|] eqn:Hj; [|by apply IH].
  destruct (task url st) as [st1 r1] eqn:Htask. intros Hrun.
  destruct (Hstep _ _ _ _ _ Hj HI Htask) as (HI1 & Hpost & evs1 & Htr1 & HE1).
  assert (Hpre1 : ∀ i r, <[j := r1]> futures !! i = Some r → Post i r).
  { intros i r. destruct (decide (j = i)) as [->|Hne].
    - rewrite lookup_insert_eq. by intros [= <-].
    - rewrite lookup_insert_ne by done. apply Hpre. }
  destruct (IH _ _ _ _ HI1 Hpre1 Hrun) as (HI' & Hpost' & evs & Htr & HE).
  split; [done|]. split; [done|]. exists (evs1 ++ evs).
  split; [by rewrite Htr, Htr1, app_assoc|by apply Forall_app].
Qed.

End PoolInv.
(** ** A later batch *)

Section BatchRerun.
Context (env : Env) (self : Imagedownloader.ImageDownloader).

Lemma stored_kept url u force s s' r :
  Imagedownloader.download_image env self u force s = (s', r) →
  stored self url s → stored self url s'.
Proof.
  intros [(_ & Hkeep & _) _]%download_image_touches [Hf Ht].
  split; [by apply Hkeep|]. intros ???. by eapply Hkeep, Ht.
Qed.

Lemma batch_stored urls force order st st' futures :
  run_pool (λ url, Imagedownloader.download_image env self url force)
           urls order ∅ st = (st', futures) →
  ∀ i url p, urls !! i = Some url → futures !! i = Some (Ok p) →
    p = Imagedownloader.file_path self url ∧ stored self url st'.
Proof.
  intros Hrun i url p Hi Hf.
  eapply (run_pool_post _ urls
            (λ i r s, ∀ url p, urls !! i = Some url → r = Ok p →
               p = Imagedownloader.file_path self url ∧ stored self url s));
    [| |exact Hrun| |exact Hf|exact Hi|done].
  - intros j u s s1 r Hj Hr u' p' Hj' ->. rewrite Hj in Hj'.
    injection Hj' as <-.
    apply download_image_done in Hr as (-> & ? & ?). by repeat split.
  - intros j r u s s1 r1 Hpost Hr u' p' Hj' ->.
    destruct (Hpost _ _ Hj' eq_refl) as [-> Hst]. split; [done|].
    cbn beta in Hr. eapply stored_kept; [exact Hr|exact Hst].
  - intros j r. by rewrite lookup_empty.
Qed.

Lemma batch_skips (good : string → Prop) urls order st st' futures :
  (∀ url, good url → stored self url st) →
  (∀ url, good url ∨ ¬ good url) →
  run_pool (λ url, Imagedownloader.download_image env self url false)
           urls order ∅ st = (st', futures) →
  (∀ url, good url → stored self url st')
  ∧ (∀ i r url, futures !! i = Some r → urls !! i = Some url → good url →
       r = Ok (Imagedownloader.file_path self url))
  ∧ ∃ evs, trace st' = trace st ++ evs
           ∧ Forall (λ ev, ∀ url proxy, good url → ev ≠ EvGet url proxy) evs.
Proof.
  intros Hst Hdec Hrun.
  eapply (run_pool_inv
            (λ url, Imagedownloader.download_image env self url false) urls
            (λ s, ∀ url, good url → stored self url s)
            (λ ev, ∀ url proxy, good url → ev ≠ EvGet url proxy)
            (λ i r, ∀ url, urls !! i = Some url → good url →
               r = Ok (Imagedownloader.file_path self url)))
    in Hrun as (HI & Hpost & Hev).
  - split; [done|]. split; [|done]. intros i r url Hf Hi Hg. by eapply Hpost.
  - intros i u s s' r Hi HI Hr. destruct (Hdec u) as [Hg|Hg].
    + destruct (HI u Hg) as [Hf Ht].
      rewrite (download_image_cached env self u s Hf Ht) in Hr.
      injection Hr as <- <-. split; [done|]. split.
      * intros u' Hi' _. rewrite Hi in Hi'. by injection Hi' as <-.
      * exists []. by rewrite app_nil_r.
    + split; [|split].
      * intros u' Hg'. eapply stored_kept; [exact Hr|by apply HI].
      * intros u' Hi' Hg'. rewrite Hi in Hi'. by injection Hi' as <-.
      * apply download_image_touches in Hr as [(_ & _ & evs & Htr & Hevs) _].
        exists evs. split; [done|]. eapply Forall_impl; [exact Hevs|].
        intros ev Hev u' proxy Hg' ->.
        destruct Hev as [[? [= <-]]|[[? [=]]|[[? [=]]|(? & ? & [=])]]]. done.
  - done.
  - intros i r. by rewrite lookup_empty.
Qed.

End BatchRerun.

(** X3: URLs a batch has returned a path for are not fetched again by a
    later batch without [force], whatever other URLs that batch holds: no
    request for them goes out, and their entry is the same path.  If the
    later batch holds such URLs only, it leaves the state as it is. *)
Theorem X3_batch_skips_stored (env : Env)
    (self : Imagedownloader.ImageDownloader) (urls urls' : list string)
    (force : bool) (pool pool' : Pool) (st st' st'' : State)
    (paths paths' : gmap string (option Path)) :
  sched pool' ≡ₚ seq 0 (length urls') →
  done_order pool' ≡ₚ seq 0 (length urls') →
  Imagedownloader.__call__ env self (UrlsList urls) force pool st
  = (st', Ok (Imagedownloader.RDict paths)) →
  Imagedownloader.__call__ env self (UrlsList urls') false pool' st'
  = (st'', Ok (Imagedownloader.RDict paths')) →
  (∃ evs, trace st'' = trace st' ++ evs
          ∧ ∀ url p proxy, paths !! url = Some (Some p) →
              EvGet url proxy ∉ evs)
  ∧ (∀ url p, paths !! url = Some (Some p) → url ∈ urls' →
       paths' !! url = Some (Some p))
  ∧ ((∀ url, url ∈ urls' → ∃ p, paths !! url = Some (Some p)) → st'' = st').
Proof.
  intros Hsched Hdone Hfirst Hsecond.
  cbn [Imagedownloader.__call__] in Hfirst, Hsecond.
  destruct (run_pool _ urls (sched pool) ∅ st) as [s1 futures] eqn:Hrun1.
  injection Hfirst as -> <-.
  destruct (run_pool _ urls' (sched pool') ∅ st') as [s2 futures'] eqn:Hrun2.
  injection Hsecond as -> <-.
  set (good := λ url, ∃ p, Imagedownloader.collect urls futures (done_order pool)
                           !! url = Some (Some p)).
  assert (Hgood : ∀ url p,
            Imagedownloader.collect urls futures (done_order pool) !! url
            = Some (Some p) →
            p = Imagedownloader.file_path self url ∧ stored self url st').
  { intros url p (i & r & Hi & Hf & Ho)%collect_sound.
    destruct r as [q|e]; [|done]. injection Ho as ->.
    by eapply batch_stored. }
  destruct (batch_skips env self good urls' (sched pool') st' st'' futures')
    as (_ & Hpost & evs & Htr & Hev); [| |done|].
  { intros url [p Hp]. by apply (Hgood url p). }
  { intros url. unfold good.
    destruct (Imagedownloader.collect urls futures (done_order pool) !! url)
      as [[p|]|]; [left; by eauto|right; by intros [? [=]]..]. }
  split; [|split].
  - exists evs. split; [done|]. intros url p proxy Hp Hin.
    rewrite Forall_forall in Hev. eapply (Hev _ Hin url proxy); [|done].
    by exists p.
  - intros url p Hp Hin. destruct (Hgood _ _ Hp) as [-> _].
    apply list_elem_of_lookup_1 in Hin as [i Hi].
    assert (Hfi : is_Some (futures' !! i)).
    { apply (run_pool_dom _ _ _ _ _ _ _ Hrun2). right.
      apply lookup_lt_Some in Hi. split; [|done].
      rewrite Hsched. apply elem_of_seq. lia. }
    destruct (collect_complete urls' futures' (done_order pool') i url)
      as [o Ho]; [|done|done|].
    { rewrite Hdone. apply elem_of_seq. apply lookup_lt_Some in Hi. lia. }
    rewrite Ho. f_equal.
    apply collect_sound in Ho as (j & r & Hj & Hfj & ->).
    rewrite (Hpost j r url Hfj Hj); [done|]. by eexists.
  - intros Hall.
    eapply (run_pool_inv
              (λ url, Imagedownloader.download_image env self url false)
              urls' (λ s, s = st') (λ _, False) (λ _ _, True))
      in Hrun2 as (HI & _); [done| |done|done].
    intros i u s s' r Hi -> Hr.
    destruct (Hall u) as [p Hp]; [by eapply list_elem_of_lookup_2|].
    destruct (Hgood _ _ Hp) as [_ [Hf Ht]].
    rewrite (download_image_cached env self u st' Hf Ht) in Hr.
    injection Hr as <- <-. split; [done|]. split; [done|].
    exists []. by rewrite app_nil_r.
Qed.

Lemma X3_batch_skips_stored_witness :
  ∃ st' st'' paths',
    Imagedownloader.__call__ Samples.env Samples.dl (UrlsList Samples.batch)
      false Samples.pool st'
    = (st'', Ok (Imagedownloader.RDict paths'))
    ∧ trace st' ≠ []
    ∧ paths' !! "https://x/b.jpg"%string
      = Some (Some (Imagedownloader.file_path Samples.dl "https://x/b.jpg")).
Proof.
  set (task := λ url, Imagedownloader.download_image Samples.env Samples.dl url
                        false).
  set (run1 := run_pool task Samples.batch (sched Samples.pool) ∅ Samples.st0).
  set (run2 := run_pool task Samples.batch (sched Samples.pool) ∅ run1.1).
  exists run1.1, run2.1,
    (Imagedownloader.collect Samples.batch run2.2 (done_order Samples.pool)).
  assert (H1 : Imagedownloader.__call__ Samples.env Samples.dl
                 (UrlsList Samples.batch) false Samples.pool Samples.st0
               = (run1.1, Ok (Imagedownloader.RDict
                    (Imagedownloader.collect Samples.batch run1.2
                       (done_order Samples.pool))))).
  { cbn [Imagedownloader.__call__]. fold task. fold run1. by destruct run1. }
  assert (H2 : Imagedownloader.__call__ Samples.env Samples.dl
                 (UrlsList Samples.batch) false Samples.pool run1.1
               = (run2.1, Ok (Imagedownloader.RDict
                    (Imagedownloader.collect Samples.batch run2.2
                       (done_order Samples.pool))))).
  { cbn [Imagedownloader.__call__]. fold task. fold run2. by destruct run2. }
  split; [exact H2|]. split; [vm_compute; discriminate|].
  destruct (X3_batch_skips_stored Samples.env Samples.dl
              Samples.batch Samples.batch false Samples.pool Samples.pool
              Samples.st0 _ _ _ _
              (Permutation_app_comm [2%nat] [0%nat; 1%nat])
              (Permutation_app_comm [1%nat; 2%nat] [0%nat]) H1 H2)
    as (_ & Hsame & _).
  apply Hsame.
  - vm_compute. reflexivity.
  - apply elem_of_cons. right. apply elem_of_cons. right. by left.
Defined.
(** ** [imgdl]: choosing a proxy, and a later batch *)

Section ImgdlRerun.
Context (env : Env) (self : Imgdl.ImageDownloader).

Lemma random_choice_ok {A} (l : list A) st :
  l ≠ [] →
  ∃ x, x ∈ l
       ∧ random_choice env l st
         = (mkState (fs st) (heap st) (S (rng st)) (trace st), Ok x).
Proof.
  intros Hne. unfold random_choice. destruct l as [|a l]; [done|].
  unfold mbind, M_bind, bind, next_random. cbn beta iota.
  set (k := Z.to_nat _).
  assert (Hk : (k < length (a :: l))%nat).
  { subst k. pose proof (Z.mod_pos_bound (random_bits env (rng st) mod 2 ^ 53)
                           (Z.of_nat (length (a :: l)))) as Hb.
    cbn [length] in *. lia. }
  destruct (lookup_lt_is_Some_2 _ _ Hk) as [x Hx]. rewrite Hx.
  exists x. split; [by eapply list_elem_of_lookup_2|done].
Qed.

Lemma imgdl_get_proxy_ok st :
  Imgdl.proxies self ≠ Some [] →
  ∃ st1 proxy,
    Imgdl.get_proxy env self st = (st1, Ok proxy)
    ∧ fs st1 = fs st ∧ heap st1 = heap st ∧ trace st1 = trace st
    ∧ match Imgdl.proxies self with
      | None => proxy = None
      | Some l => ∃ p, p ∈ l ∧ proxy = Some p
      end.
Proof.
  intros Hne. unfold Imgdl.get_proxy.
  destruct (Imgdl.proxies self) as [l|]; [|by eexists _, _].
  destruct (random_choice_ok l st) as (x & Hx & Hc); [congruence|].
  unfold mbind, M_bind, bind. rewrite Hc.
  eexists _, _. split; [reflexivity|]. cbn. eauto 10.
Qed.

Lemma imgdl_get_proxy_empty st :
  Imgdl.proxies self = Some [] →
  Imgdl.get_proxy env self st = (st, Raise IndexError).
Proof. unfold Imgdl.get_proxy. by intros ->. Qed.

Lemma _download_image_cached url st :
  Imgdl.proxies self ≠ Some [] →
  is_Some (fs st !! Imgdl.file_path self url) →
  ∃ st', Imgdl._download_image env self url false None None st
         = (st', Ok (Imgdl.file_path self url))
         ∧ fs st' = fs st ∧ heap st' = heap st ∧ trace st' = trace st.
Proof.
  intros Hne Hex.
  destruct (imgdl_get_proxy_ok st Hne) as (st1 & proxy & Hp & Hfs & Hh & Htr & _).
  rewrite _download_image_unfold, Hp. cbn zeta. rewrite Hfs.
  rewrite bool_decide_eq_true_2 by done. cbn. by exists st1.
Qed.

Lemma _download_image_ok_proxies url force st st' p :
  Imgdl._download_image env self url force None None st = (st', Ok p) →
  Imgdl.proxies self ≠ Some [].
Proof.
  intros Hrun Hl. rewrite _download_image_unfold in Hrun.
  by rewrite (imgdl_get_proxy_empty st Hl) in Hrun.
Qed.

Lemma imgdl_batch_stored urls force order st st' futures :
  run_pool (λ url, Imgdl._download_image env self url force None None)
           urls order ∅ st = (st', futures) →
  ∀ i url p, urls !! i = Some url → futures !! i = Some (Ok p) →
    p = Imgdl.file_path self url
    ∧ is_Some (fs st' !! Imgdl.file_path self url)
    ∧ Imgdl.proxies self ≠ Some [].
Proof.
  intros Hrun i url p Hi Hf.
  eapply (run_pool_post _ urls
            (λ i r s, ∀ url p, urls !! i = Some url → r = Ok p →
               p = Imgdl.file_path self url
               ∧ is_Some (fs s !! Imgdl.file_path self url)
               ∧ Imgdl.proxies self ≠ Some []));
    [| |exact Hrun| |exact Hf|exact Hi|done].
  - intros j u s s1 r Hj Hr u' p' Hj' ->. rewrite Hj in Hj'.
    injection Hj' as <-. cbn beta in Hr.
    pose proof (_download_image_ok_proxies _ _ _ _ _ Hr) as Hne.
    apply _download_image_touches in Hr as [_ Hr].
    destruct (Hr p' eq_refl) as [-> ?]. done.
  - intros j r u s s1 r1 Hpost Hr u' p' Hj' ->.
    destruct (Hpost _ _ Hj' eq_refl) as (-> & Hst & Hne).
    split; [done|]. split; [|done]. cbn beta in Hr.
    apply _download_image_touches in Hr as [(_ & Hkeep & _) _].
    by apply Hkeep.
  - intros j r. by rewrite lookup_empty.
Qed.

Lemma imgdl_batch_skips (good : string → Prop) urls order st st' futures :
  Imgdl.proxies self ≠ Some [] →
  (∀ url, good url → is_Some (fs st !! Imgdl.file_path self url)) →
  (∀ url, good url ∨ ¬ good url) →
  run_pool (λ url, Imgdl._download_image env self url false None None)
           urls order ∅ st = (st', futures) →
  (∀ i r url, futures !! i = Some r → urls !! i = Some url → good url →
     r = Ok (Imgdl.file_path self url))
  ∧ ∃ evs, trace st' = trace st ++ evs
           ∧ Forall (λ ev, ∀ url proxy, good url → ev ≠ EvGet url proxy) evs.
Proof.
  intros Hne Hst Hdec Hrun.
  eapply (run_pool_inv
            (λ url, Imgdl._download_image env self url false None None) urls
            (λ s, ∀ url, good url → is_Some (fs s !! Imgdl.file_path self url))
            (λ ev, ∀ url proxy, good url → ev ≠ EvGet url proxy)
            (λ i r, ∀ url, urls !! i = Some url → good url →
               r = Ok (Imgdl.file_path self url)))
    in Hrun as (HI & Hpost & Hev).
  - split; [|done]. intros i r url Hf Hi Hg. by eapply Hpost.
  - intros i u s s' r Hi HI Hr. cbn beta in Hr. destruct (Hdec u) as [Hg|Hg].
    + destruct (_download_image_cached u s Hne (HI u Hg))
        as (s1 & Hrun1 & Hfs & _ & Htr).
      rewrite Hrun1 in Hr. injection Hr as <- <-. split; [|split].
      * intros u' Hg'. rewrite Hfs. by apply HI.
      * intros u' Hi' _. rewrite Hi in Hi'. by injection Hi' as <-.
      * exists []. by rewrite app_nil_r.
    + apply _download_image_touches in Hr as [(_ & Hkeep & evs & Htr & Hevs) _].
      split; [|split].
      * intros u' Hg'. by apply Hkeep, HI.
      * intros u' Hi' Hg'. rewrite Hi in Hi'. by injection Hi' as <-.
      * exists evs. split; [done|]. eapply Forall_impl; [exact Hevs|].
        intros ev Hev u' proxy Hg' ->.
        destruct Hev as [[? [= <-]]|[[? [=]]|[? [=]]]]. done.
  - done.
  - intros i r. by rewrite lookup_empty.
Qed.

Lemma imgdl_batch_still urls order st st' futures :
  Imgdl.proxies self ≠ Some [] →
  (∀ url, url ∈ urls → is_Some (fs st !! Imgdl.file_path self url)) →
  run_pool (λ url, Imgdl._download_image env self url false None None)
           urls order ∅ st = (st', futures) →
  fs st' = fs st ∧ heap st' = heap st ∧ trace st' = trace st.
Proof.
  intros Hne Hall Hrun.
  eapply (run_pool_inv
            (λ url, Imgdl._download_image env self url false None None) urls
            (λ s, fs s = fs st ∧ heap s = heap st ∧ trace s = trace st)
            (λ _, False) (λ _ _, True))
    in Hrun as (HI & _); [done| |done|done].
  intros i u s s' r Hi (Hfs & Hh & Htr) Hr. cbn beta in Hr.
  destruct (_download_image_cached u s Hne) as (s1 & Hrun1 & Hfs1 & Hh1 & Htr1).
  { rewrite Hfs. apply Hall. by eapply list_elem_of_lookup_2. }
  rewrite Hrun1 in Hr. injection Hr as <- <-.
  split; [by rewrite Hfs1, Hh1, Htr1|]. split; [done|].
  exists []. by rewrite app_nil_r, Htr1.
Qed.

End ImgdlRerun.

(** X4: the same for [imgdl], where the result is a list aligned with the
    input: a URL whose position got a path in one batch is not requested
    again by a later batch without [force], and every position that holds
    it in the later input gets the same path.  If the later batch holds
    such URLs only, it leaves files, image objects and log as they are. *)
Theorem X4_imgdl_batch_skips_stored (env : Env)
    (self : Imgdl.ImageDownloader) (urls urls' : list string)
    (force : bool) (pool pool' : Pool) (st st' st'' : State)
    (paths paths' : list (option string)) :
  sched pool' ≡ₚ seq 0 (length urls') →
  done_order pool' ≡ₚ seq 0 (length urls') →
  Imgdl.__call__ env self (UrlsList urls) force pool st
  = (st', Ok (Imgdl.RList paths)) →
  Imgdl.__call__ env self (UrlsList urls') false pool' st'
  = (st'', Ok (Imgdl.RList paths')) →
  (∃ evs, trace st'' = trace st' ++ evs
          ∧ ∀ i url s proxy, urls !! i = Some url →
              paths !! i = Some (Some s) → EvGet url proxy ∉ evs)
  ∧ (∀ i j url s, urls !! i = Some url → paths !! i = Some (Some s) →
       urls' !! j = Some url → paths' !! j = Some (Some s))
  ∧ ((∀ url, url ∈ urls' →
        ∃ i s, urls !! i = Some url ∧ paths !! i = Some (Some s)) →
     fs st'' = fs st' ∧ heap st'' = heap st' ∧ trace st'' = trace st').
Proof.
  intros Hsched Hdone Hfirst Hsecond.
  cbn [Imgdl.__call__] in Hfirst, Hsecond.
  destruct (run_pool _ urls (sched pool) ∅ st) as [s1 futures] eqn:Hrun1.
  injection Hfirst as -> <-.
  destruct (run_pool _ urls' (sched pool') ∅ st') as [s2 futures'] eqn:Hrun2.
  injection Hsecond as -> <-.
  set (paths := Imgdl.collect futures (done_order pool)
                  (replicate (length urls) None)).
  set (good := λ url, ∃ i s, urls !! i = Some url ∧ paths !! i = Some (Some s)).
  assert (Hgood : ∀ i url s, urls !! i = Some url → paths !! i = Some (Some s) →
            s = Path_str (Imgdl.file_path self url)
            ∧ is_Some (fs st' !! Imgdl.file_path self url)
            ∧ Imgdl.proxies self ≠ Some []).
  { intros i url s Hi Hp. subst paths.
    rewrite imgdl_collect_lookup in Hp;
      [|rewrite length_replicate; by eapply lookup_lt_Some].
    assert (Hnone : replicate (length urls) (@None string) !! i = Some (Some s)
                    → False).
    { intros [[=] _]%lookup_replicate. }
    destruct (futures !! i) as [[p|e]|] eqn:Hf; try done.
    case_bool_decide; [|done]. injection Hp as <-.
    destruct (imgdl_batch_stored env self _ _ _ _ _ _ Hrun1 i url p Hi Hf)
      as (-> & ? & ?). done. }
  assert (Hdec : ∀ url, good url ∨ ¬ good url).
  { intros url. unfold good.
    destruct (decide (Exists (λ i, urls !! i = Some url
                                   ∧ is_Some (mjoin (paths !! i)))
                             (seq 0 (length urls)))) as [Hex|Hnex].
    - left. apply Exists_exists in Hex as (i & _ & Hi & s & Hs).
      exists i, s. split; [done|].
      by destruct (paths !! i) as [[?|]|]; simplify_eq/=.
    - right. intros (i & s & Hi & Hs). apply Hnex, Exists_exists.
      exists i. split; [|split; [done|by rewrite Hs]]. apply elem_of_seq.
      apply lookup_lt_Some in Hi. lia. }
  assert (Hskip : Imgdl.proxies self ≠ Some [] →
            (∀ i r url, futures' !! i = Some r → urls' !! i = Some url →
               good url → r = Ok (Imgdl.file_path self url))
            ∧ ∃ evs, trace st'' = trace st' ++ evs
                     ∧ Forall (λ ev, ∀ url proxy, good url →
                                 ev ≠ EvGet url proxy) evs).
  { intros Hne. eapply imgdl_batch_skips; [done| |done|exact Hrun2].
    intros url (i & s & Hi & Hs). by destruct (Hgood _ _ _ Hi Hs) as (_ & ? & _). }
  split; [|split].
  - pose proof Hrun2 as Hrun2'.
    eapply (run_pool_inv _ urls' (λ _, True) (λ _, True) (λ _ _, True))
      in Hrun2' as (_ & _ & evs & Htr & _); [| |done|done].
    2: { intros i u s s' r _ _ Hr. cbn beta in Hr.
         apply _download_image_touches in Hr as [(_ & _ & evs & Htr & _) _].
         split; [done|]. split; [done|]. exists evs. split; [done|].
         by apply Forall_true. }
    exists evs. split; [done|]. intros i url s proxy Hi Hs Hin.
    destruct (Hgood _ _ _ Hi Hs) as (_ & _ & Hne).
    destruct (Hskip Hne) as (_ & evs' & Htr' & Hev).
    rewrite Htr in Htr'. apply app_inv_head in Htr' as <-.
    rewrite Forall_forall in Hev. eapply (Hev _ Hin url proxy); [|done].
    by exists i, s.
  - intros i j url s Hi Hs Hj.
    destruct (Hgood _ _ _ Hi Hs) as (-> & _ & Hne).
    destruct (Hskip Hne) as (Hpost & _).
    pose proof (lookup_lt_Some _ _ _ Hj) as Hlt.
    rewrite imgdl_collect_lookup by by rewrite length_replicate.
    assert (Hfj : is_Some (futures' !! j)).
    { apply (run_pool_dom _ _ _ _ _ _ _ Hrun2). right. split; [|done].
      rewrite Hsched. apply elem_of_seq. lia. }
    destruct Hfj as [r Hr]. rewrite Hr.
    rewrite (Hpost j r url Hr Hj) by by exists i, (Path_str (Imgdl.file_path self url)).
    rewrite bool_decide_eq_true_2; [done|].
    rewrite Hdone. apply elem_of_seq. lia.
  - intros Hall. destruct urls' as [|u urls''].
    + eapply (run_pool_inv _ [] (λ s, s = st') (λ _, True) (λ _ _, True))
        in Hrun2 as (-> & _); [done| |done|done].
      intros i ? ? ? ? Hi. by rewrite lookup_nil in Hi.
    + destruct (Hall u) as (i & s & Hi & Hs); [by left|].
      destruct (Hgood _ _ _ Hi Hs) as (_ & _ & Hne).
      eapply imgdl_batch_still; [done| |exact Hrun2].
      intros url (i' & s' & Hi' & Hs')%Hall.
      by destruct (Hgood _ _ _ Hi' Hs') as (_ & ? & _).
Qed.

Lemma X4_imgdl_batch_skips_stored_witness :
  ∃ st' st'' paths',
    Imgdl.__call__ Samples.env Samples.imgdl (UrlsList Samples.batch) false
      Samples.pool st'
    = (st'', Ok (Imgdl.RList paths'))
    ∧ trace st' ≠ []
    ∧ paths' !! 2%nat
      = Some (Some (Path_str (Imgdl.file_path Samples.imgdl "https://x/b.jpg"))).
Proof.
  set (task := λ url, Imgdl._download_image Samples.env Samples.imgdl url
                        false None None).
  set (run1 := run_pool task Samples.batch (sched Samples.pool) ∅ Samples.st0).
  set (run2 := run_pool task Samples.batch (sched Samples.pool) ∅ run1.1).
  exists run1.1, run2.1,
    (Imgdl.collect run2.2 (done_order Samples.pool)
       (replicate (length Samples.batch) None)).
  assert (H1 : Imgdl.__call__ Samples.env Samples.imgdl (UrlsList Samples.batch)
                 false Samples.pool Samples.st0
               = (run1.1, Ok (Imgdl.RList
                    (Imgdl.collect run1.2 (done_order Samples.pool)
                       (replicate (length Samples.batch) None))))).
  { cbn [Imgdl.__call__]. fold task. fold run1. by destruct run1. }
  assert (H2 : Imgdl.__call__ Samples.env Samples.imgdl (UrlsList Samples.batch)
                 false Samples.pool run1.1
               = (run2.1, Ok (Imgdl.RList
                    (Imgdl.collect run2.2 (done_order Samples.pool)
                       (replicate (length Samples.batch) None))))).
  { cbn [Imgdl.__call__]. fold task. fold run2. by destruct run2. }
  split; [exact H2|]. split; [vm_compute; discriminate|].
  destruct (X4_imgdl_batch_skips_stored Samples.env Samples.imgdl
              Samples.batch Samples.batch false Samples.pool Samples.pool
              Samples.st0 _ _ _ _
              (Permutation_app_comm [2%nat] [0%nat; 1%nat])
              (Permutation_app_comm [1%nat; 2%nat] [0%nat]) H1 H2)
    as (_ & Hsame & _).
  apply (Hsame 2%nat 2%nat "https://x/b.jpg"%string); [done| |done].
  vm_compute. reflexivity.
Defined.
(** ** Without [force] nothing is overwritten *)

Lemma keeps_files_refl st : keeps_files st st.
Proof. by intros p. Qed.

Lemma keeps_files_eq st st' : fs st' = fs st → keeps_files st st'.
Proof. intros Hfs p _. by rewrite Hfs. Qed.

Lemma keeps_files_trans st1 st2 st3 :
  keeps_files st1 st2 → keeps_files st2 st3 → keeps_files st1 st3.
Proof.
  intros H12 H23 p Hp. rewrite H23, H12; [done..|]. by rewrite H12.
Qed.

Lemma keeps_files_insert st st' path b :
  fs st !! path = None → fs st' = <[path := b]> (fs st) → keeps_files st st'.
Proof.
  intros Hnone Hfs p [c Hp]. rewrite Hfs, lookup_insert_ne; [done|].
  intros ->. congruence.
Qed.

Section NoOverwrite.
Context (env : Env).

Lemma persist_keeps path buf st st' r :
  fs st !! path = None →
  _persist_file env path buf st = (st', r) → keeps_files st st'.
Proof.
  intros Hnone. rewrite _persist_file_run.
  destruct (persist_mode env path buf); intros [= <- <-].
  - apply keeps_files_refl.
  - by eapply keeps_files_insert.
  - by eapply keeps_files_insert.
Qed.

Lemma gate_closed (f : gmap Path bytes) (path : Path) :
  negb (bool_decide (is_Some (f !! path))) || false = true → f !! path = None.
Proof. intros [?|[=]]%gate_spec. done. Qed.

Lemma thumbs_loop_keeps self url path items orig_img st st' r :
  Imagedownloader.thumbs_loop env self url false path items orig_img st
  = (st', r) →
  keeps_files st st'.
Proof.
  revert orig_img st. induction items as [|[thumb_id size] items IH];
    intros orig_img st.
  { cbn. unfold mret, M_ret, ret. intros [= <- <-]. apply keeps_files_refl. }
  rewrite thumbs_loop_cons. cbn zeta.
  destruct (negb _ || false) eqn:Hgate; [|by apply IH].
  apply gate_closed in Hgate.
  destruct (match orig_img with Some img => _ | None => _ end)
    as [st1 [img|e]] eqn:Hopen.
  2: { intros [= <- <-]. destruct orig_img; [by simplify_eq|].
       apply Image_open_path_frame in Hopen as [? _]. by apply keeps_files_eq. }
  assert (Hfs1 : fs st1 = fs st).
  { destruct orig_img; [by simplify_eq|].
    by apply Image_open_path_frame in Hopen as [? _]. }
  destruct (convert_image env img (Some size) st1) as [st2 [[? buf]|e]] eqn:Hc.
  2: { intros [= <- <-]. apply convert_image_frame in Hc as (? & _).
       apply keeps_files_eq. congruence. }
  apply convert_image_frame in Hc as (Hfs2 & _).
  destruct (_persist_file env _ buf st2) as [st3 [[]|e]] eqn:Hp.
  - intros Hrest%IH. eapply keeps_files_trans; [|exact Hrest].
    eapply (keeps_files_trans _ st2); [apply keeps_files_eq; congruence|].
    eapply persist_keeps; [|exact Hp]. by rewrite Hfs2, Hfs1.
  - intros [= <- <-].
    eapply (keeps_files_trans _ st2); [apply keeps_files_eq; congruence|].
    eapply persist_keeps; [|exact Hp]. by rewrite Hfs2, Hfs1.
Qed.

Lemma fetch_outcome_keeps url timeout proxy headers min_wait max_wait path
    st st' r :
  fs st !! path = None →
  fetch_outcome env url timeout proxy headers min_wait max_wait path st st' r →
  keeps_files st st'.
Proof.
  intros Hnone [(Hother & _) _]%fetch_outcome_touches p [c Hp].
  apply Hother. intros ->. congruence.
Qed.

Lemma download_image_keeps self url st st' r :
  Imagedownloader.download_image env self url false st = (st', r) →
  keeps_files st st'.
Proof.
  intros Hrun.
  pose proof (download_image_inv env _ _ _ _ _ _ Hrun) as Hinv.
  cbn zeta in Hinv. destruct (negb _ || false) eqn:Hgate.
  2: { destruct Hinv as (rt & Hloop & _). by eapply thumbs_loop_keeps. }
  apply gate_closed in Hgate.
  destruct Hinv as (st1 & rp & Hp & Hinv).
  apply get_proxy_frame in Hp as (Hfs1 & _).
  destruct rp as [proxy|e];
    [|destruct Hinv as [-> _]; by apply keeps_files_eq].
  destruct Hinv as (st2 & rf & Hout & Hinv).
  apply fetch_outcome_keeps in Hout; [|congruence].
  assert (H2 : keeps_files st st2).
  { eapply (keeps_files_trans _ st1); [by apply keeps_files_eq|done]. }
  destruct rf as [orig|e]; [|by destruct Hinv as [-> _]].
  destruct Hinv as (rt & Hloop & _).
  eapply keeps_files_trans; [exact H2|]. by eapply thumbs_loop_keeps.
Qed.

Lemma _download_image_keeps self url st st' r :
  Imgdl._download_image env self url false None None st = (st', r) →
  keeps_files st st'.
Proof.
  rewrite _download_image_unfold.
  destruct (Imgdl.get_proxy env self st) as [st1 [proxy|e]] eqn:Hp;
    apply imgdl_get_proxy_frame in Hp as (Hfs1 & _).
  2: { intros [= <- <-]. by apply keeps_files_eq. }
  cbn zeta. destruct (negb _ || false) eqn:Hgate.
  2: { intros [= <- <-]. by apply keeps_files_eq. }
  apply gate_closed in Hgate.
  destruct (fetch_core env url _ _ _ _ _ _ st1) as [st2 rf] eqn:Hf.
  apply fetch_core_outcome, fetch_outcome_keeps in Hf; [|done].
  intros Hr. assert (st' = st2) as -> by (destruct rf; by simplify_eq).
  eapply (keeps_files_trans _ st1); [by apply keeps_files_eq|done].
Qed.

Lemma run_pool_keeps {A} (task : string → M A) urls order futures st st' futures' :
  (∀ url s s' r, task url s = (s', r) → keeps_files s s') →
  run_pool task urls order futures st = (st', futures') →
  keeps_files st st'.
Proof.
  intros Htask. revert futures st.
  induction order as [|j order IH]; intros futures st.
  { intros [= <- <-]. apply keeps_files_refl. }
  cbn [run_pool]. destruct (urls !! j) as [url|]; [|by apply IH].
  destruct (task url st) as [st1 r1] eqn:Hr. intros Hrun%IH.
  eapply keeps_files_trans; [|exact Hrun]. by eapply Htask.
Qed.

End NoOverwrite.

(** X5: without [force] no file that is on disk is ever changed: a task
    writes only where there is no file yet, so after a task or a whole batch
    of either downloader every file that was there holds the bytes it
    held. *)
Theorem X5_no_overwrite_without_force (env : Env)
    (self : Imagedownloader.ImageDownloader) (self' : Imgdl.ImageDownloader)
    (urls : UrlsArg) (pool : Pool) (st : State) :
  (∀ st' r,
     Imagedownloader.__call__ env self urls false pool st = (st', r) →
     ∀ p content, fs st !! p = Some content → fs st' !! p = Some content)
  ∧ (∀ st' r,
       Imgdl.__call__ env self' urls false pool st = (st', r) →
       ∀ p content, fs st !! p = Some content → fs st' !! p = Some content).
Proof.
  split; intros st' r Hcall p content Hp; rewrite <- Hp.
  - cut (keeps_files st st'); [intros H; by apply H|].
    destruct urls as [url|urls|]; cbn [Imagedownloader.__call__] in Hcall.
    + unfold mbind, M_bind, bind, mret, M_ret, ret in Hcall.
      destruct (Imagedownloader.download_image env self url false st)
        as [s1 r1] eqn:Hrun.
      apply download_image_keeps in Hrun.
      destruct r1; by simplify_eq.
    + destruct (run_pool _ urls (sched pool) ∅ st) as [s1 futures] eqn:Hrun.
      injection Hcall as <- _.
      eapply run_pool_keeps; [|exact Hrun].
      intros u s s' r0 Hr. cbn beta in Hr. by eapply download_image_keeps.
    + injection Hcall as <- _. apply keeps_files_refl.
  - cut (keeps_files st st'); [intros H; by apply H|].
    destruct urls as [url|urls|]; cbn [Imgdl.__call__] in Hcall.
    + unfold mbind, M_bind, bind, mret, M_ret, ret in Hcall.
      destruct (Imgdl._download_image env self' url false None None st)
        as [s1 r1] eqn:Hrun.
      apply _download_image_keeps in Hrun.
      destruct r1; by simplify_eq.
    + destruct (run_pool _ urls (sched pool) ∅ st) as [s1 futures] eqn:Hrun.
      injection Hcall as <- _.
      eapply run_pool_keeps; [|exact Hrun].
      intros u s s' r0 Hr. cbn beta in Hr. by eapply _download_image_keeps.
    + injection Hcall as <- _. apply keeps_files_refl.
Qed.

Lemma X5_no_overwrite_without_force_witness :
  fs (Imagedownloader.__call__ Samples.env Samples.dl
        (UrlsList ["https://x/junk"; "https://x/b.jpg"]%string) false
        Samples.pool Samples.st_old).1
    !! Imagedownloader.file_path Samples.dl "https://x/junk"
  = Some [9].
Proof.
  destruct (X5_no_overwrite_without_force Samples.env Samples.dl Samples.imgdl
              (UrlsList ["https://x/junk"; "https://x/b.jpg"]%string)
              Samples.pool Samples.st_old) as [H _].
  apply (H _ _ (surjective_pairing _)). apply lookup_singleton_eq.
Defined.
(** ** What the thumbnails are made from *)

Section ThumbContent.
Context (env : Env).



Section Loop.
Context (self : Imagedownloader.ImageDownloader) (url : string)
        (force : bool) (path : Path).





End Loop.
End ThumbContent.


(** ** Construction and the proxy of a request *)

Lemma format_as_dict_ne (proxy : string) : format_as_dict proxy ≠ ∅.
Proof. apply insert_non_empty. Qed.

Lemma session_proxy_format (proxy : string) :
  session_proxy (Some (format_as_dict proxy)) = Some (format_as_dict proxy).
Proof.
  unfold session_proxy. cbn [default].
  by rewrite bool_decide_eq_false_2 by apply format_as_dict_ne.
Qed.

Lemma _download_image_gets (env : Env) (self : Imgdl.ImageDownloader)
    (url : string) (force : bool) (st st1 st' : State) (proxy : option Proxy)
    (r : Result Path) :
  Imgdl.get_proxy env self st = (st1, Ok proxy) →
  Imgdl._download_image env self url force None None st = (st', r) →
  ∃ evs, trace st' = trace st ++ evs
         ∧ ∀ u p, EvGet u p ∈ evs → u = url ∧ p = session_proxy proxy.
Proof.
  intros Hp Hrun.
  destruct (_download_image_trace env _ _ _ _ _ _ _ _ Hp Hrun)
    as (evs & Htr & _ & _ & Hcase).
  exists evs. split; [done|]. intros u p Hin.
  assert (Hall : ∀ l : list Event,
            evs = l →
            (∀ ev, ev ∈ l → ev = EvGet url (session_proxy proxy)
                            ∨ ∀ u p, ev ≠ EvGet u p) →
            u = url ∧ p = session_proxy proxy).
  { intros l -> Hl. destruct (Hl _ Hin) as [[= -> ->]|Hne]; [done|].
    by destruct (Hne u p). }
  assert (Hl3 : ∀ ev (b : bytes) (d : Q) path,
            ev ∈ [EvGet url (session_proxy proxy); EvWrite path b; EvSleep d] →
            ev = EvGet url (session_proxy proxy) ∨ ∀ u p, ev ≠ EvGet u p).
  { intros ev b d path H.
    repeat (apply elem_of_cons in H as [->|H]; [by auto|]).
    by apply elem_of_nil in H. }
  assert (Hl2 : ∀ ev (b : bytes) path,
            ev ∈ [EvGet url (session_proxy proxy); EvWrite path b] →
            ev = EvGet url (session_proxy proxy) ∨ ∀ u p, ev ≠ EvGet u p).
  { intros ev b path H.
    repeat (apply elem_of_cons in H as [->|H]; [by auto|]).
    by apply elem_of_nil in H. }
  assert (Hl1 : ∀ ev,
            ev ∈ [EvGet url (session_proxy proxy)] →
            ev = EvGet url (session_proxy proxy) ∨ ∀ u p, ev ≠ EvGet u p).
  { intros ev H.
    repeat (apply elem_of_cons in H as [->|H]; [by auto|]).
    by apply elem_of_nil in H. }
  cbn zeta in Hcase. destruct (negb _ || force).
  2: { destruct Hcase as (-> & _). by apply elem_of_nil in Hin. }
  destruct (fresh_jpeg env url _ _ _) as [buf|e].
  2: { destruct Hcase as (Hev & _). by eapply Hall. }
  destruct (persist_mode env _ buf).
  - destruct Hcase as (Hev & _). by eapply Hall.
  - destruct Hcase as (Hev & _). by eapply Hall.
  - destruct Hcase as (_ & Hcase). destruct (Qle_bool 0 _);
      destruct Hcase as (Hev & _); (eapply Hall; [exact Hev|]); eauto.
Qed.

Lemma imgdl_task_given_proxy (env : Env) (store_path : Path)
    (n_workers : Z) (timeout min_wait max_wait : Q) (proxies : ProxiesArg)
    (headers : Headers) (user_agent : option string) (notebook debug : bool)
    (self : Imgdl.ImageDownloader) (url : string) (force : bool)
    (st st' : State) (r : Result Path) :
  Imgdl.__init__ store_path n_workers timeout min_wait max_wait proxies
    headers user_agent notebook debug = Ok self →
  Imgdl._download_image env self url force None None st = (st', r) →
  (∃ st1 proxy, Imgdl.get_proxy env self st = (st1, Ok proxy))
  ∧ ∃ evs,
      trace st' = trace st ++ evs
      ∧ ∀ u proxy, EvGet u proxy ∈ evs → u = url ∧ given_proxy proxies proxy.
Proof.
  intros Hinit Hrun. unfold Imgdl.__init__ in Hinit.
  destruct (Imgdl.resolve_proxies proxies) as [sp|e] eqn:Hres; [|done].
  cbn in Hinit. injection Hinit as <-.
  set (self := Imgdl.mkImageDownloader _ _ _ _ _ _ _ _ _ _) in *.
  assert (Hne : Imgdl.proxies self ≠ Some []).
  { cbn. intros ->. by destruct proxies as [|?|[|??]|?]. }
  destruct (imgdl_get_proxy_ok env self st Hne)
    as (st1 & proxy & Hp & _ & _ & _ & Hsel).
  split; [by eauto|].
  destruct (_download_image_gets env _ _ _ _ _ _ _ _ Hp Hrun)
    as (evs & Htr & Hev).
  exists evs. split; [done|]. intros u p Hin.
  destruct (Hev _ _ Hin) as [-> ->]. split; [done|].
  cbn [Imgdl.proxies self] in Hsel. unfold given_proxy.
  destruct proxies as [|s|[|p0 l]|d]; try done; simplify_eq/=.
  - done.
  - destruct Hsel as (p & [->|[]%elem_of_nil]%elem_of_cons & ->).
    apply session_proxy_format.
  - destruct Hsel as (p & Hin' & ->).
    change (format_as_dict p0 :: (format_as_dict <$> l))
      with (format_as_dict <$> p0 :: l) in Hin'.
    apply list_elem_of_fmap in Hin' as (q & -> & Hq).
    exists q. split; [done|]. apply session_proxy_format.
Qed.

(** X7: in [imgdl] the proxies given to the constructor are the proxies
    of the requests.  Once the constructor has accepted them, choosing a
    proxy never fails, and every request of a task goes out direct when
    none was given, through ["http": p, "https": p] for the one string
    [p] given, or for one of the strings of the list given. *)
Theorem X7_imgdl_requests_use_given_proxies (env : Env) (store_path : Path)
    (n_workers : Z) (timeout min_wait max_wait : Q) (proxies : ProxiesArg)
    (headers : Headers) (user_agent : option string) (notebook debug : bool)
    (self : Imgdl.ImageDownloader) (url : string) (force : bool)
    (st st' : State) (r : Result Path) :
  Imgdl.__init__ store_path n_workers timeout min_wait max_wait proxies
    headers user_agent notebook debug = Ok self →
  Imgdl._download_image env self url force None None st = (st', r) →
  (∃ st1 proxy, Imgdl.get_proxy env self st = (st1, Ok proxy))
  ∧ ∃ evs,
      trace st' = trace st ++ evs
      ∧ ∀ u proxy, EvGet u proxy ∈ evs →
          u = url
          ∧ match proxies with
            | ProxiesNone => proxy = None
            | ProxiesStr s => proxy = Some (format_as_dict s)
            | ProxiesList l => ∃ p, p ∈ l ∧ proxy = Some (format_as_dict p)
            | ProxiesDict _ => False
            end.
Proof. apply imgdl_task_given_proxy. Qed.

Lemma X7_imgdl_requests_use_given_proxies_witness :
  ∃ evs,
    trace (Imgdl._download_image Samples.env
             (Imgdl.mkImageDownloader ["imgs"%string] 2 5 0 0
                (Some [format_as_dict "http://10.0.0.1:3128"])
                (<["User-Agent" := "None"%string]> ∅) "None" false false)
             "https://x/b.jpg" false None None Samples.st0).1
    = trace Samples.st0 ++ evs
    ∧ ∀ u proxy, EvGet u proxy ∈ evs →
        u = "https://x/b.jpg"%string
        ∧ ∃ p, p ∈ ["http://10.0.0.1:3128"%string]
               ∧ proxy = Some (format_as_dict p).
Proof.
  destruct (X7_imgdl_requests_use_given_proxies Samples.env ["imgs"%string]
              2 5 0 0 (ProxiesList ["http://10.0.0.1:3128"%string]) ∅ None
              false false
              (Imgdl.mkImageDownloader ["imgs"%string] 2 5 0 0
                 (Some [format_as_dict "http://10.0.0.1:3128"])
                 (<["User-Agent" := "None"%string]> ∅) "None" false false)
              "https://x/b.jpg" false Samples.st0 _ _ eq_refl
              (surjective_pairing _)) as (_ & evs & Htr & Hev).
  exists evs. split; [exact Htr|exact Hev].
Defined.


(** ** The module-level [download] of [imgdl] *)

(** X14: the module-level [download] of [imgdl] checks the configuration
    before any work: [proxies] given as an empty list or as a dict raises
    [ValueError] with nothing requested or written.  Otherwise, on a list
    of URLs it returns a list as long as the input, and every request of
    the batch is for a URL of the input and goes through a proxy that was
    given (direct when none was). *)
Theorem X14_imgdl_download (env : Env) (urls : list string)
    (store_path : Path) (n_workers : Z) (timeout min_wait max_wait : Q)
    (proxies : ProxiesArg) (headers : Headers) (user_agent : option string)
    (notebook debug force : bool) (pool : Pool) (st : State) :
  let download :=
    Imgdl.download env (UrlsList urls) store_path n_workers timeout min_wait
      max_wait proxies headers user_agent notebook debug force pool st in
  (proxies = ProxiesList [] ∨ is_dict proxies = true →
   download
   = (st, Raise (ValueError
                   "proxies should be either a string, a list of strings or None")))
  ∧ (proxies ≠ ProxiesList [] → is_dict proxies = false →
     ∃ st' paths evs,
       download = (st', Ok (Imgdl.RList paths))
       ∧ length paths = length urls
       ∧ trace st' = trace st ++ evs
       ∧ ∀ u proxy, EvGet u proxy ∈ evs → u ∈ urls ∧ given_proxy proxies proxy).
Proof.
  cbn zeta. unfold Imgdl.download. split.
  - intros [->|Hd]; [done|]. by destruct proxies.
  - intros Hne Hd.
    destruct (Imgdl.__init__ store_path n_workers timeout min_wait max_wait
                proxies headers user_agent notebook debug)
      as [self|e] eqn:Hinit.
    2: { unfold Imgdl.__init__ in Hinit.
         by destruct proxies as [|?|[|??]|?]. }
    cbn [Imgdl.__call__].
    destruct (run_pool _ urls (sched pool) ∅ st) as [st' futures] eqn:Hrun.
    eapply (run_pool_inv
              (λ url, Imgdl._download_image env self url force None None) urls
              (λ _, True)
              (λ ev, ∀ u proxy, ev = EvGet u proxy →
                       u ∈ urls ∧ given_proxy proxies proxy)
              (λ _ _, True))
      in Hrun as (_ & _ & evs & Htr & Hev); [| |done|done].
    + eexists _, _, evs. split; [reflexivity|].
      split; [by rewrite imgdl_collect_length, length_replicate|].
      split; [done|]. intros u proxy Hin.
      rewrite Forall_forall in Hev. by apply (Hev _ Hin).
    + intros i url s s' r Hi _ Hr. cbn beta in Hr. split; [done|].
      split; [done|].
      destruct (imgdl_task_given_proxy env _ _ _ _ _ _ _ _ _ _ _ _ _ _ _ _
                  Hinit Hr) as (_ & evs & Htr & Hev).
      exists evs. split; [done|]. apply Forall_forall.
      intros ev Hin u proxy ->. destruct (Hev _ _ Hin) as [-> ?].
      split; [by eapply list_elem_of_lookup_2|done].
Qed.

Lemma X14_imgdl_download_witness :
  Imgdl.download Samples.env (UrlsList Samples.batch) ["imgs"%string] 2 5 0 0
    (ProxiesList []) ∅ None false false false Samples.pool Samples.st0
  = (Samples.st0,
     Raise (ValueError
              "proxies should be either a string, a list of strings or None")).
Proof.
  apply (X14_imgdl_download Samples.env Samples.batch ["imgs"%string] 2 5 0 0
           (ProxiesList []) ∅ None false false false Samples.pool Samples.st0).
  by left.
Defined.
(** ** Dicts in insertion order *)

Section DictSet.
Context {V : Type}.
Implicit Types (d : list (string * V)) (k : string) (v : V).

Lemma dict_set_keys k v d :
  (dict_set k v d).*1 = if bool_decide (k ∈ d.*1) then d.*1 else d.*1 ++ [k].
Proof.
  induction d as [|[k' v'] d IH]; [done|]. cbn [dict_set].
  destruct (decide (k' = k)) as [->|Hne].
  - rewrite bool_decide_eq_true_2 by done. cbn.
    by rewrite bool_decide_eq_true_2 by by left.
  - rewrite bool_decide_eq_false_2 by done. cbn [fmap list_fmap fst].
    change (list_fmap _ _ fst ?l) with (l.*1). rewrite IH.
    destruct (decide (k ∈ d.*1)) as [Hin|Hnin].
    + rewrite !bool_decide_eq_true_2; [done|by right|done].
    + rewrite !bool_decide_eq_false_2; [done| |done].
      intros [?|?]%elem_of_cons; congruence.
Qed.

Lemma dict_set_NoDup k v d : NoDup d.*1 → NoDup (dict_set k v d).*1.
Proof.
  intros Hnd. rewrite dict_set_keys. case_bool_decide as Hin; [done|].
  apply NoDup_app. split; [done|]. split; [|apply NoDup_singleton].
  intros x Hx [->|[]%elem_of_nil]%elem_of_cons. done.
Qed.

Lemma dict_set_elem_of k v d k' v' :
  NoDup d.*1 →
  (k', v') ∈ dict_set k v d
  ↔ (k' = k ∧ v' = v) ∨ (k' ≠ k ∧ (k', v') ∈ d).
Proof.
  induction d as [|[k0 v0] d IH]; intros Hnd.
  { cbn. rewrite list_elem_of_singleton. split.
    - intros [= -> ->]. by left.
    - intros [[-> ->]|[_ []%elem_of_nil]]. done. }
  cbn [fmap list_fmap fst] in Hnd. apply NoDup_cons in Hnd as [Hnin Hnd].
  cbn [dict_set]. case_bool_decide as Hk.
  - subst k0. rewrite !elem_of_cons. split.
    + intros [[= -> ->]|Hin]; [by left|]. right. split; [|by right].
      intros ->. apply Hnin. apply list_elem_of_fmap. by exists (k, v').
    + intros [[-> ->]|[Hne [[= ? ?]|Hin]]]; [by left|done|by right].
  - rewrite !elem_of_cons, (IH Hnd). split.
    + intros [[= -> ->]|[?|[? ?]]]; [right; split; [done|by left]|by left|].
      right. split; [done|by right].
    + intros [?|[Hne [[= -> ->]|Hin]]]; [right; by left|by left|].
      right. right. done.
Qed.

End DictSet.

Lemma dict_set_fresh {V} (k : string) (v : V) (d : list (string * V)) :
  k ∉ d.*1 → dict_set k v d = d ++ [(k, v)].
Proof.
  induction d as [|[k' v'] d IH]; [done|]. cbn [fmap list_fmap fst].
  intros [Hne Hnin]%not_elem_of_cons. cbn [dict_set].
  rewrite bool_decide_eq_false_2 by done. by rewrite IH.
Qed.

(** ** [imagedownloader]'s constructor *)

Lemma thumbs_of_list_step acc (t : Z) k size :
  square_specs acc →
  square_specs (dict_set (pretty t) (t, t) acc)
  ∧ ((k, size) ∈ dict_set (pretty t) (t, t) acc
     ↔ (k, size) ∈ acc ∨ (k = pretty t ∧ size = (t, t))).
Proof.
  intros [Hnd Hshape]. split; [split|].
  - by apply dict_set_NoDup.
  - intros k' size' [[-> ->]|[_ Hin]]%dict_set_elem_of; [by eauto|by eauto|done].
  - rewrite dict_set_elem_of by done. split.
    + intros [?|[_ ?]]; [by right|by left].
    + intros [Hin|?]; [|by left].
      destruct (decide (k = pretty t)) as [->|Hne]; [left|by right].
      split; [done|]. destruct (Hshape _ _ Hin) as (e & He & ->).
      by apply (inj pretty) in He as ->.
Qed.

Lemma thumbs_of_list_spec l acc :
  square_specs acc →
  square_specs (thumbs_of_list acc l)
  ∧ ∀ k size, (k, size) ∈ thumbs_of_list acc l
              ↔ (k, size) ∈ acc ∨ ∃ e, e ∈ l ∧ k = pretty e ∧ size = (e, e).
Proof.
  revert acc. induction l as [|t l IH]; intros acc Hacc.
  { split; [done|]. intros k size. split; [by left|].
    intros [?|(e & []%elem_of_nil & _)]. done. }
  cbn [thumbs_of_list foldl].
  destruct (thumbs_of_list_step acc t "" (0, 0) Hacc) as [Hacc' _].
  destruct (IH _ Hacc') as [Hsh Hel]. split; [done|].
  intros k size. unfold thumbs_of_list in Hel. rewrite Hel.
  destruct (thumbs_of_list_step acc t k size Hacc) as [_ ->]. split.
  - intros [[?|[-> ->]]|(e & ? & ? & ?)]; [by left| |].
    + right. exists t. split; [by left|done].
    + right. exists e. split; [by right|done].
  - intros [?|(e & [->|?]%elem_of_cons & -> & ->)];
      [by left; left|by left; right|].
    right. by exists e.
Qed.

Lemma thumbs_of_list_NoDup l acc :
  NoDup (acc.*1 ++ (pretty <$> l)) →
  thumbs_of_list acc l = acc ++ ((λ e, (pretty e, (e, e))) <$> l).
Proof.
  revert acc. induction l as [|t l IH]; intros acc Hnd.
  { cbn. by rewrite app_nil_r. }
  cbn [thumbs_of_list foldl fmap list_fmap] in *.
  apply NoDup_app in Hnd as (Hacc & Hdisj & Ht).
  apply NoDup_cons in Ht as [Hnin Hl].
  rewrite dict_set_fresh; cycle 1.
  { intros Hin. apply (Hdisj _ Hin). by left. }
  unfold thumbs_of_list in IH. rewrite IH; [by rewrite <- app_assoc|].
  rewrite fmap_app. cbn. rewrite <- app_assoc. cbn.
  apply NoDup_app. split; [done|]. split; [|by apply NoDup_cons].
  intros x Hx. apply Hdisj in Hx. done.
Qed.



(** X10: given a list of edge lengths as [thumbs_size], the constructor
    keeps one spec per distinct length [e], named by its decimal numeral
    and asking for the square box [e] x [e]; the specs come in the order
    in which the lengths first occur in the list. *)
Theorem X10_thumbs_list_normalised (store_path : Path) (n_workers : Z)
    (l : list Z) (timeout min_wait max_wait : Q) (proxies : ProxiesArg)
    (headers : Headers) (user_agent : option string) (notebook : bool)
    (self : Imagedownloader.ImageDownloader) :
  Imagedownloader.__init__ store_path n_workers true (ThumbsList l) timeout
    min_wait max_wait proxies headers user_agent notebook = Ok self →
  NoDup (Imagedownloader.thumbs_size self).*1
  ∧ (∀ k size, (k, size) ∈ Imagedownloader.thumbs_size self
               ↔ ∃ e, e ∈ l ∧ k = pretty e ∧ size = (e, e))
  ∧ (NoDup l →
     Imagedownloader.thumbs_size self = (λ e, (pretty e, (e, e))) <$> l).
Proof.
  intros Hinit.
  assert (Hts : Imagedownloader.thumbs_size self
                = foldl (λ d thumb, dict_set (pretty thumb) (thumb, thumb) d)
                        [] l).
  { unfold Imagedownloader.__init__ in Hinit.
    destruct proxies as [|s|lp|d], l as [|? ?]; simplify_eq/=; done. }
  rewrite Hts. fold (thumbs_of_list [] l).
  destruct (thumbs_of_list_spec l []) as [[Hnd _] Hel].
  { split; [constructor|]. by intros ?? []%elem_of_nil. }
  split; [done|]. split.
  - intros k size. rewrite Hel. split; [|by right].
    by intros [[]%elem_of_nil|?].
  - intros Hl. rewrite thumbs_of_list_NoDup; [done|]. cbn.
    by apply (NoDup_fmap_2 _).
Qed.

Lemma X10_thumbs_list_normalised_witness :
  Imagedownloader.thumbs_size
    (Imagedownloader.mkImageDownloader ["imgs"%string] 5 0 0 2 false ∅
       (AttrList []) [("100"%string, (100, 100)); ("50"%string, (50, 50))])
  = (λ e, (pretty e, (e, e))) <$> [100; 50].
Proof.
  apply (X10_thumbs_list_normalised ["imgs"%string] 2 [100; 50] 5 0 0
           (ProxiesList []) ∅ None false _ eq_refl).
  apply NoDup_cons. split; [|apply NoDup_singleton].
  intros [[=]|[]%elem_of_nil]%elem_of_cons.
Defined.

(** X11: an empty list of proxies passes the constructor of
    [imagedownloader] (when [thumbs_size] is a list, which is when it
    looks at the proxies at all), and from then on every task that has to
    fetch raises [IndexError] before any request is made: nothing is
    requested, written or slept. *)
Theorem X11_empty_proxy_list (env : Env) (store_path : Path) (n_workers : Z)
    (thumbs : bool) (l : list Z) (timeout min_wait max_wait : Q)
    (headers : Headers) (user_agent : option string) (notebook : bool)
    (url : string) (force : bool) (st : State) :
  let built :=
    Imagedownloader.__init__ store_path n_workers thumbs (ThumbsList l)
      timeout min_wait max_wait (ProxiesList []) headers user_agent notebook in
  (∃ self, built = Ok self)
  ∧ ∀ self, built = Ok self →
      fs st !! Imagedownloader.file_path self url = None ∨ force = true →
      Imagedownloader.download_image env self url force st
      = (st, Raise IndexError).
Proof.
  cbn zeta. unfold Imagedownloader.__init__.
  cbn [is_none is_list is_dict orb thumbs_is_list mbind Result_bind fmap
       list_fmap].
  split; [destruct thumbs, l; by eexists|].
  intros self Hself Hgate%gate_spec.
  assert (Hp : Imagedownloader.proxies self = AttrList []).
  { destruct thumbs, l; by simplify_eq/=. }
  rewrite download_image_unfold. cbn zeta. rewrite Hgate.
  unfold Imagedownloader.get_proxy. by rewrite Hp.
Qed.

Lemma X11_empty_proxy_list_witness :
  Imagedownloader.download_image Samples.env
    (Imagedownloader.mkImageDownloader ["imgs"%string] 5 0 0 2 false ∅
       (AttrList []) [("100"%string, (100, 100))])
    "https://x/b.jpg" false Samples.st0
  = (Samples.st0, Raise IndexError).
Proof.
  destruct (X11_empty_proxy_list Samples.env ["imgs"%string] 2 true [100]
              5 0 0 ∅ None false "https://x/b.jpg" false Samples.st0)
    as [_ H].
  apply H; [reflexivity|]. left. apply lookup_empty.
Defined.
(** ** The module-level [download] of [imagedownloader] *)

Lemma dict_set_to_map {V} (k : string) (v : V) (d : list (string * V)) :
  NoDup d.*1 →
  (list_to_map (dict_set k v d) : gmap string V) = <[k := v]> (list_to_map d).
Proof.
  intros Hnd. apply map_eq. intros k'. apply option_eq. intros v'.
  rewrite <- elem_of_list_to_map by by apply dict_set_NoDup.
  rewrite dict_set_elem_of by done.
  destruct (decide (k' = k)) as [->|Hne].
  - rewrite lookup_insert_eq. split; [by intros [[_ ->]|[? _]]|].
    intros [= ->]. by left.
  - rewrite lookup_insert_ne by done.
    rewrite <- elem_of_list_to_map by done. split; [by intros [[? _]|[_ ?]]|].
    intros ?. by right.
Qed.

Section CollectItems.
Context (urls : list string) (futures : gmap nat (Result Path)).

Lemma collect_items_acc order acc :
  NoDup acc.*1 →
  NoDup (foldl (items_step urls futures) acc order).*1
  ∧ (list_to_map (foldl (items_step urls futures) acc order) : gmap string (option Path))
    = foldl (paths_step urls futures) (list_to_map acc) order.
Proof.
  revert acc. induction order as [|i order IH]; intros acc Hnd; [done|].
  cbn [foldl].
  assert (Hstep : NoDup (items_step urls futures acc i).*1
                  ∧ (list_to_map (items_step urls futures acc i) : gmap string (option Path))
                    = paths_step urls futures (list_to_map acc) i).
  { unfold items_step, paths_step. destruct (urls !! i) as [url|]; [|done].
    destruct (futures !! i) as [[p|e]|]; [| |done];
      (split; [by apply dict_set_NoDup|by apply dict_set_to_map]). }
  destruct Hstep as [Hnd' Hmap]. destruct (IH _ Hnd') as [? ->].
  by rewrite Hmap.
Qed.

Lemma collect_items_spec order :
  NoDup (Imagedownloader.collect_items urls futures order).*1
  ∧ (list_to_map (Imagedownloader.collect_items urls futures order)
       : gmap string (option Path))
    = Imagedownloader.collect urls futures order.
Proof. apply (collect_items_acc order []). constructor. Qed.

Lemma collect_items_fresh order acc :
  NoDup order →
  NoDup urls →
  (∀ i, i ∈ order → is_Some (urls !! i) ∧ is_Some (futures !! i)) →
  (∀ i url, i ∈ order → urls !! i = Some url → url ∉ acc.*1) →
  ∃ new,
    foldl (items_step urls futures) acc order = acc ++ new
    ∧ Forall2 (λ i item, urls !! i = Some item.1
                         ∧ ∃ r, futures !! i = Some r ∧ item.2 = outcome r)
              order new.
Proof.
  intros Hord Hurls. revert acc.
  induction Hord as [|i order Hnin Hord IH]; intros acc Hdef Hfresh.
  { exists []. by rewrite app_nil_r. }
  cbn [foldl].
  destruct (Hdef i) as [[url Hu] [r Hr]]; [by left|].
  assert (Hstep : items_step urls futures acc i = acc ++ [(url, outcome r)]).
  { unfold items_step. rewrite Hu, Hr.
    destruct r as [p|e]; apply dict_set_fresh; (eapply Hfresh; [by left|done]). }
  rewrite Hstep.
  destruct (IH (acc ++ [(url, outcome r)])) as (new & -> & Hnew).
  - intros j Hj. apply Hdef. by right.
  - intros j u Hj Hju. rewrite fmap_app. cbn.
    rewrite elem_of_app, list_elem_of_singleton. intros [Hin| ->].
    + eapply Hfresh; [by right|done|done].
    + assert (j = i) as -> by by eapply NoDup_lookup. done.
  - exists ((url, outcome r) :: new). split; [by rewrite <- app_assoc|].
    constructor; [|done]. split; [done|]. by exists r.
Qed.

End CollectItems.

(** X12: what the module-level [download] of [imagedownloader] gives back.
    On a list it returns a list with one entry per distinct URL (not per
    position of the input); with no URL given twice, the entries are the
    outcomes of the tasks in the order in which the tasks completed, not
    in the order of the input.  On a single URL it never returns: when the
    task has stored the image, [results.items()] raises
    [AttributeError]. *)
Theorem X12_download_result (env : Env) (store_path : Path) (thumbs : bool)
    (thumbs_size : ThumbsArg) (n_workers : Z) (timeout min_wait max_wait : Q)
    (proxies : ProxiesArg) (headers : Headers) (user_agent : option string)
    (force notebook : bool) (pool : Pool) (st : State)
    (self : Imagedownloader.ImageDownloader) :
  Imagedownloader.__init__ store_path n_workers thumbs thumbs_size timeout
    min_wait max_wait proxies headers user_agent notebook = Ok self →
  let download urls :=
    Imagedownloader.download env urls store_path thumbs thumbs_size
      n_workers timeout min_wait max_wait proxies headers user_agent force
      notebook pool st in
  (∀ url,
     ∃ st' r,
       Imagedownloader.download_image env self url force st = (st', r)
       ∧ ∃ exc,
           download (UrlsStr url) = (st', inl exc)
           ∧ match r with
             | Ok p => ∃ msg, exc = Imagedownloader.AttributeError msg
             | Raise e => exc = Imagedownloader.Raised e
             end)
  ∧ (∀ urls,
       sched pool ≡ₚ seq 0 (length urls) →
       done_order pool ≡ₚ seq 0 (length urls) →
       ∃ st' futures paths,
         run_pool (λ url, Imagedownloader.download_image env self url force)
                  urls (sched pool) ∅ st = (st', futures)
         ∧ download (UrlsList urls) = (st', inr paths)
         ∧ length paths = length (remove_dups urls)
         ∧ (NoDup urls →
            Forall2 (λ i o, ∃ r, futures !! i = Some r
                                 ∧ o = Path_str <$> outcome r)
                    (done_order pool) paths)).
Proof.
  intros Hinit. cbn zeta. unfold Imagedownloader.download. rewrite Hinit.
  split.
  - intros url.
    destruct (Imagedownloader.download_image env self url force st)
      as [st' [p|e]]; eexists _, _; (split; [reflexivity|]); eauto.
  - intros urls Hsched Hdone.
    destruct (run_pool _ urls (sched pool) ∅ st) as [st' futures] eqn:Hrun.
    eexists _, _, _. split; [reflexivity|]. split; [reflexivity|].
    assert (Hdef : ∀ i, i ∈ done_order pool →
              is_Some (urls !! i) ∧ is_Some (futures !! i)).
    { intros i Hi. rewrite Hdone in Hi. apply elem_of_seq in Hi.
      split; [apply lookup_lt_is_Some; lia|].
      apply (run_pool_dom _ _ _ _ _ _ _ Hrun). right. split; [|lia].
      rewrite Hsched. apply elem_of_seq. lia. }
    destruct (collect_items_spec urls futures (done_order pool))
      as [Hnd Hmap].
    split.
    + rewrite length_fmap, <- (length_fmap fst). apply Permutation_length.
      apply NoDup_Permutation; [done|apply NoDup_remove_dups|].
      intros url. rewrite elem_of_remove_dups.
      destruct (decide (url ∈ (Imagedownloader.collect_items urls futures
                                 (done_order pool)).*1)) as [Hin|Hnin].
      * split; [intros _|done].
        apply list_elem_of_fmap in Hin as ([u o] & -> & Hin).
        apply (elem_of_list_to_map (M := gmap string)) in Hin; [|done].
        rewrite Hmap in Hin. apply collect_sound in Hin as (i & r & Hi & _).
        by eapply list_elem_of_lookup_2.
      * split; [done|]. intros [i Hi]%list_elem_of_lookup_1. exfalso.
        apply (not_elem_of_list_to_map (M := gmap string)) in Hnin.
        rewrite Hmap in Hnin.
        destruct (collect_complete urls futures (done_order pool) i url)
          as [o Ho]; [|done| |congruence].
        -- rewrite Hdone. apply elem_of_seq. apply lookup_lt_Some in Hi. lia.
        -- apply Hdef. rewrite Hdone. apply elem_of_seq.
           apply lookup_lt_Some in Hi. lia.
    + intros Hurls.
      destruct (collect_items_fresh urls futures (done_order pool) [])
        as (new & Hnew & Hall); [|done|done|by intros; apply not_elem_of_nil|].
      { rewrite Hdone. apply NoDup_seq. }
      cbn [app] in Hnew.
      change (Imagedownloader.collect_items urls futures (done_order pool))
        with (foldl (items_step urls futures) [] (done_order pool)).
      rewrite Hnew.
      apply Forall2_fmap_r. eapply Forall2_impl; [exact Hall|].
      intros i [u o] (_ & r & Hr & Ho). cbn in *. exists r. by subst.
Qed.

Lemma X12_download_result_witness :
  ∃ st' paths,
    Imagedownloader.download Samples.env (UrlsList Samples.batch)
      ["imgs"%string] false (ThumbsDict []) 2 5 0 0 ProxiesNone ∅ None false
      false Samples.pool Samples.st0
    = (st', inr paths)
    ∧ length paths = 3%nat.
Proof.
  destruct (X12_download_result Samples.env ["imgs"%string] false
              (ThumbsDict []) 2 5 0 0 ProxiesNone ∅ None false false
              Samples.pool Samples.st0 Samples.dl eq_refl) as [_ H].
  destruct (H Samples.batch (Permutation_app_comm [2%nat] [0%nat; 1%nat])
              (Permutation_app_comm [1%nat; 2%nat] [0%nat]))
    as (st' & futures & paths & _ & Hd & Hlen & _).
  exists st', paths. split; [exact Hd|]. rewrite Hlen. vm_compute. reflexivity.
Defined.
(** ** The proxy of a request of [imagedownloader] *)

Lemma download_image_gets (env : Env) (self : Imagedownloader.ImageDownloader)
    (url : string) (force : bool) (st st' : State) (r : Result Path) :
  Imagedownloader.download_image env self url force st = (st', r) →
  ∃ evs, trace st' = trace st ++ evs
         ∧ ∀ u p, EvGet u p ∈ evs →
             u = url
             ∧ ∃ st1, Imagedownloader.get_proxy env self st = (st1, Ok p).
Proof.
  intros Hrun.
  destruct (Imagedownloader.get_proxy env self st) as [st1 [proxy|e]] eqn:Hp.
  2: { pose proof (download_image_inv env _ _ _ _ _ _ Hrun) as Hinv.
       cbn zeta in Hinv. destruct (negb _ || force).
       - destruct Hinv as (st1' & rp & Hp' & Hinv). rewrite Hp in Hp'.
         injection Hp' as <- <-. destruct Hinv as [-> _].
         apply get_proxy_frame in Hp as (_ & _ & Htr).
         exists []. rewrite app_nil_r. split; [done|].
         by intros ?? []%elem_of_nil.
       - destruct Hinv as (rt & Hloop & _).
         apply thumbs_loop_touches in Hloop as (_ & _ & evs & Htr & Hev).
         exists evs. split; [done|]. intros u p Hin.
         rewrite Forall_forall in Hev.
         by destruct (Hev _ Hin) as (? & ? & [=]). }
  destruct (download_image_trace env _ _ _ _ _ _ _ _ Hp Hrun)
    as (evs_f & evs_t & Htr & Hthumb & _ & Hcase).
  exists (evs_f ++ evs_t). split; [done|]. intros u p Hin.
  apply elem_of_app in Hin as [Hin|Hin]; cycle 1.
  { rewrite Forall_forall in Hthumb.
    by destruct (Hthumb _ Hin) as (? & ? & [=]). }
  assert (Hall : ∀ l : list Event,
            evs_f = l →
            (∀ ev, ev ∈ l → ev = EvGet url proxy ∨ ∀ u p, ev ≠ EvGet u p) →
            u = url ∧ ∃ st1', (st1, @Ok (option Proxy) proxy) = (st1', Ok p)).
  { intros l -> Hl. destruct (Hl _ Hin) as [[= -> ->]|Hne]; [by eauto|].
    by destruct (Hne u p). }
  assert (Hl3 : ∀ ev (b : bytes) (d : Q) path,
            ev ∈ [EvGet url proxy; EvWrite path b; EvSleep d] →
            ev = EvGet url proxy ∨ ∀ u p, ev ≠ EvGet u p).
  { intros ev b d path H.
    repeat (apply elem_of_cons in H as [->|H]; [by auto|]).
    by apply elem_of_nil in H. }
  assert (Hl2 : ∀ ev (b : bytes) path,
            ev ∈ [EvGet url proxy; EvWrite path b] →
            ev = EvGet url proxy ∨ ∀ u p, ev ≠ EvGet u p).
  { intros ev b path H.
    repeat (apply elem_of_cons in H as [->|H]; [by auto|]).
    by apply elem_of_nil in H. }
  assert (Hl1 : ∀ ev,
            ev ∈ [EvGet url proxy] →
            ev = EvGet url proxy ∨ ∀ u p, ev ≠ EvGet u p).
  { intros ev H.
    repeat (apply elem_of_cons in H as [->|H]; [by auto|]).
    by apply elem_of_nil in H. }
  cbn zeta in Hcase. destruct (negb _ || force).
  2: { subst evs_f. by apply elem_of_nil in Hin. }
  destruct (fresh_jpeg env url _ _ _) as [buf|e].
  2: { destruct Hcase as (Hev & _). by eapply Hall. }
  destruct (persist_mode env _ buf).
  - destruct Hcase as (Hev & _). by eapply Hall.
  - destruct Hcase as (Hev & _). by eapply Hall.
  - destruct Hcase as (_ & Hcase). destruct (Qle_bool 0 _).
    + eapply Hall; [exact Hcase|]. eauto.
    + destruct Hcase as (Hev & _). eapply Hall; [exact Hev|]. eauto.
Qed.

(** X13: which proxy the requests of [imagedownloader] go through, for
    every way of giving [proxies] the constructor accepts.  A dict is
    used as it is for every request.  A list of proxy strings is used (one
    of them per request, as ["http": p, "https": p]) only when
    [thumbs_size] is a list as well; with [thumbs_size] a dict or [None]
    the list is dropped and every request goes out direct, as it does when
    no proxy is given. *)
Theorem X13_requests_proxy (env : Env) (store_path : Path) (n_workers : Z)
    (thumbs : bool) (thumbs_size : ThumbsArg) (timeout min_wait max_wait : Q)
    (proxies : ProxiesArg) (headers : Headers) (user_agent : option string)
    (notebook : bool) (self : Imagedownloader.ImageDownloader)
    (url : string) (force : bool) (st st' : State) (r : Result Path) :
  Imagedownloader.__init__ store_path n_workers thumbs thumbs_size timeout
    min_wait max_wait proxies headers user_agent notebook = Ok self →
  Imagedownloader.download_image env self url force st = (st', r) →
  ∃ evs,
    trace st' = trace st ++ evs
    ∧ ∀ u proxy, EvGet u proxy ∈ evs →
        u = url
        ∧ match proxies with
          | ProxiesDict d => proxy = Some d
          | ProxiesList l =>
              if thumbs_is_list thumbs_size
              then ∃ p, p ∈ l ∧ proxy = Some (format_as_dict p)
              else proxy = None
          | _ => proxy = None
          end.
Proof.
  intros Hinit Hrun.
  destruct (download_image_gets env _ _ _ _ _ _ Hrun) as (evs & Htr & Hev).
  exists evs. split; [done|]. intros u proxy Hin.
  destruct (Hev _ _ Hin) as (-> & st1 & Hp). split; [done|].
  assert (Hproxies :
    Imagedownloader.proxies self
    = match proxies with
      | ProxiesDict d => AttrDict d
      | ProxiesList l =>
          if thumbs_is_list thumbs_size then AttrList (format_as_dict <$> l)
          else AttrNone
      | _ => AttrNone
      end).
  { unfold Imagedownloader.__init__ in Hinit.
    destruct proxies as [|s|l|d], thumbs_size as [|[|??]|[|??]|], thumbs;
      by simplify_eq/=. }
  unfold Imagedownloader.get_proxy in Hp. rewrite Hproxies in Hp.
  assert (Hnone : ∀ q : option Proxy,
            (mret q : M (option Proxy)) st = (st1, Ok proxy) → proxy = q).
  { intros q Hq. unfold mret, M_ret, ret in Hq. by injection Hq. }
  destruct proxies as [|s|l|d]; try by apply Hnone.
  destruct (thumbs_is_list thumbs_size); [|by apply Hnone].
  unfold mbind, M_bind, bind in Hp.
  destruct (random_choice env (format_as_dict <$> l) st) as [s1 [x|e]] eqn:Hc;
    [|done].
  injection Hp as -> <-. unfold random_choice in Hc.
  destruct (format_as_dict <$> l) as [|a l'] eqn:Hl; [done|].
  unfold mbind, M_bind, bind, next_random in Hc. cbn beta iota in Hc.
  destruct (_ !! _) as [y|] eqn:Hy; [|done]. injection Hc as _ ->.
  apply list_elem_of_lookup_2 in Hy. rewrite <- Hl in Hy.
  apply list_elem_of_fmap in Hy as (p & -> & Hp). by exists p.
Qed.

Lemma X13_requests_proxy_witness :
  ∃ evs,
    trace (Imagedownloader.download_image Samples.env Samples.dl
             "https://x/b.jpg" false Samples.st0).1
    = trace Samples.st0 ++ evs
    ∧ ∀ u proxy, EvGet u proxy ∈ evs →
        u = "https://x/b.jpg"%string ∧ proxy = None.
Proof.
  destruct (X13_requests_proxy Samples.env ["imgs"%string] 2 false
              (ThumbsDict []) 5 0 0
              (ProxiesList ["http://10.0.0.1:3128"%string]) ∅ None false
              Samples.dl "https://x/b.jpg" false Samples.st0 _ _ eq_refl
              (surjective_pairing _)) as (evs & Htr & Hev).
  exists evs. split; [exact Htr|exact Hev].
Defined.
(** ** The two downloaders side by side *)

(** X15: with no thumbnail spec and no proxy configured, the task of
    [imagedownloader] and the task of [imgdl] are the same function of the
    URL and the state: same files, same requests and sleeps, same image
    objects, same result. *)
Theorem X15_downloaders_agree (env : Env)
    (self : Imagedownloader.ImageDownloader) (self' : Imgdl.ImageDownloader)
    (url : string) (force : bool) (st : State) :
  Imagedownloader.thumbs_size self = [] →
  Imagedownloader.proxies self = AttrNone →
  Imgdl.proxies self' = None →
  Imagedownloader.store_path self = Imgdl.store_path self' →
  Imagedownloader.timeout self = Imgdl.timeout self' →
  Imagedownloader.headers self = Imgdl.headers self' →
  Imagedownloader.min_wait self = Imgdl.min_wait self' →
  Imagedownloader.max_wait self = Imgdl.max_wait self' →
  Imagedownloader.download_image env self url force st
  = Imgdl._download_image env self' url force None None st.
Proof.
  intros Hthumbs Hproxies Hproxies' Hstore Htimeout Hheaders Hmin Hmax.
  rewrite download_image_unfold, _download_image_unfold. cbn zeta.
  unfold Imagedownloader.get_proxy, Imgdl.get_proxy.
  rewrite Hproxies, Hproxies', Hthumbs.
  unfold Imagedownloader.file_path, Imgdl.file_path.
  rewrite Hstore, Htimeout, Hheaders, Hmin, Hmax.
  unfold mret, M_ret, ret. cbn iota.
  change (session_proxy None) with (@None Proxy).
  destruct (negb _ || force); [|done].
  by destruct (fetch_core env url _ None _ _ _ _ st) as [st2 [orig|e]].
Qed.

Lemma X15_downloaders_agree_witness :
  Imagedownloader.download_image Samples.env Samples.dl "https://x/a.png"
    false Samples.st0
  = Imgdl._download_image Samples.env Samples.imgdl "https://x/a.png" false
      None None Samples.st0.
Proof.
  apply (X15_downloaders_agree Samples.env Samples.dl Samples.imgdl);
    reflexivity.
Defined.
(** ** The order of the pool does not matter *)

Section PoolLocal.
Context {A : Type} (task : string → M A) (urls : list string)
        (path_of : string → Path)
        (R : string → option bytes → Result A)
        (W : string → option bytes → option bytes).
Hypothesis Htask : ∀ url s s' r,
  task url s = (s', r) →
  r = R url (fs s !! path_of url)
  ∧ fs s' !! path_of url = W url (fs s !! path_of url)
  ∧ ∀ p, p ≠ path_of url → fs s' !! p = fs s !! p.
Hypothesis Hinj : ∀ i j u v,
  urls !! i = Some u → urls !! j = Some v → path_of u = path_of v → i = j.

Lemma run_pool_local order futures st st' futures' :
  NoDup order →
  run_pool task urls order futures st = (st', futures') →
  (∀ i url, i ∈ order → urls !! i = Some url →
     futures' !! i = Some (R url (fs st !! path_of url))
     ∧ fs st' !! path_of url = W url (fs st !! path_of url))
  ∧ (∀ i, i ∉ order → futures' !! i = futures !! i)
  ∧ (∀ p, (∀ i url, i ∈ order → urls !! i = Some url → p ≠ path_of url) →
          fs st' !! p = fs st !! p).
Proof.
  intros Hnd. revert futures st.
  induction Hnd as [|j order Hnin Hnd IH]; intros futures st.
  { intros [= <- <-]. split; [by intros ?? []%elem_of_nil|]. done. }
  cbn [run_pool]. destruct (urls !! j) as [u|] eqn:Hj.
  2: { intros Hrun. destruct (IH _ _ Hrun) as (H1 & H2 & H3).
       split; [|split].
       - intros i url [->|Hi]%elem_of_cons Hu; [congruence|by apply H1].
       - intros i [_ Hi]%not_elem_of_cons. by apply H2.
       - intros p Hp. apply H3. intros i url Hi. apply Hp. by right. }
  destruct (task u st) as [st1 r1] eqn:Hr. intros Hrun.
  destruct (Htask _ _ _ _ Hr) as (-> & Hw & Hframe).
  destruct (IH _ _ Hrun) as (H1 & H2 & H3).
  assert (Hother : ∀ i url, i ∈ order → urls !! i = Some url →
            path_of url ≠ path_of u).
  { intros i url Hi Hu Heq. apply Hnin.
    by rewrite <- (Hinj i j url u Hu Hj Heq). }
  split; [|split].
  - intros i url [->|Hi]%elem_of_cons Hu.
    + rewrite Hj in Hu. injection Hu as <-. split.
      * by rewrite (H2 j Hnin), lookup_insert_eq.
      * rewrite H3; [done|]. intros i url Hi Hu Heq.
        by eapply Hother.
    + destruct (H1 i url Hi Hu) as [Hf Hfs].
      rewrite Hframe in Hf, Hfs by by eapply Hother. done.
  - intros i [Hne Hi]%not_elem_of_cons.
    by rewrite (H2 i Hi), lookup_insert_ne.
  - intros p Hp. rewrite H3.
    + apply Hframe. eapply Hp; [by left|done].
    + intros i url Hi. apply Hp. by right.
Qed.

End PoolLocal.

Section Direct.
Context (env : Env) (self : Imgdl.ImageDownloader) (force : bool).
Hypothesis Hproxies : Imgdl.proxies self = None.
Hypothesis Hmin : (0 <= Imgdl.min_wait self)%Q.
Hypothesis Hmax : (Imgdl.min_wait self <= Imgdl.max_wait self)%Q.

Lemma _download_image_direct url st st' r :
  Imgdl._download_image env self url force None None st = (st', r) →
  r = direct_result env self url force (fs st !! Imgdl.file_path self url)
  ∧ fs st' !! Imgdl.file_path self url
    = direct_file env self url force (fs st !! Imgdl.file_path self url)
  ∧ ∀ p, p ≠ Imgdl.file_path self url → fs st' !! p = fs st !! p.
Proof.
  intros Hrun.
  assert (Hp : Imgdl.get_proxy env self st = (st, Ok None)).
  { unfold Imgdl.get_proxy. by rewrite Hproxies. }
  destruct (_download_image_trace env _ _ _ _ _ _ _ _ Hp Hrun)
    as (evs & _ & Hframe & _ & Hcase).
  split; [|split; [|done]]; unfold direct_result, direct_file; cbn zeta in *.
  all: change (session_proxy None) with (@None Proxy) in Hcase.
  all: destruct (negb _ || force);
         [|destruct Hcase as (_ & Hr & Hfs); by rewrite ?Hr, ?Hfs].
  all: destruct (fresh_jpeg env url _ None _) as [buf|e];
         [|destruct Hcase as (_ & Hr & Hfs); by rewrite ?Hr, ?Hfs].
  all: cbn [mbind Result_bind].
  all: destruct (persist_mode env _ buf).
  all: try (destruct Hcase as (_ & Hr & Hfs);
            by rewrite ?Hr, ?Hfs, ?lookup_insert_eq).
  all: destruct Hcase as (Hfs & Hcase);
    destruct (wait_of_range env _ _ st Hmin Hmax) as [Hw _];
    rewrite Hw in Hcase; destruct Hcase as (_ & Hr);
    by rewrite ?Hr, ?Hfs, ?lookup_insert_eq.
Qed.

Lemma imgdl_batch_direct urls pool st st' paths :
  NoDup ((λ url, SHA1.hexdigest (to_bytes url)) <$> urls) →
  sched pool ≡ₚ seq 0 (length urls) →
  done_order pool ≡ₚ seq 0 (length urls) →
  Imgdl.__call__ env self (UrlsList urls) force pool st
  = (st', Ok (Imgdl.RList paths)) →
  paths = (λ url, Path_str <$> outcome
                    (direct_result env self url force
                       (fs st !! Imgdl.file_path self url))) <$> urls
  ∧ (∀ url, url ∈ urls →
       fs st' !! Imgdl.file_path self url
       = direct_file env self url force (fs st !! Imgdl.file_path self url))
  ∧ (∀ p, p ∉ Imgdl.file_path self <$> urls → fs st' !! p = fs st !! p).
Proof.
  intros Hdig Hsched Hdone Hcall. cbn [Imgdl.__call__] in Hcall.
  destruct (run_pool _ urls (sched pool) ∅ st) as [s1 futures] eqn:Hrun.
  injection Hcall as -> <-.
  assert (Hinj : ∀ i j u v, urls !! i = Some u → urls !! j = Some v →
            Imgdl.file_path self u = Imgdl.file_path self v → i = j).
  { intros i j u v Hi Hj Heq%file_path_inj.
    eapply (NoDup_lookup _ i j); [exact Hdig| |].
    - by rewrite list_lookup_fmap, Hi.
    - by rewrite list_lookup_fmap, Hj, Heq. }
  assert (Hnd : NoDup (sched pool)) by (rewrite Hsched; apply NoDup_seq).
  assert (Hin : ∀ i, (i < length urls)%nat → i ∈ sched pool).
  { intros i Hi. rewrite Hsched. apply elem_of_seq. lia. }
  destruct (run_pool_local
              (λ url, Imgdl._download_image env self url force None None)
              urls (Imgdl.file_path self)
              (λ url file, direct_result env self url force file)
              (λ url file, direct_file env self url force file)
              (λ url s s' r, _download_image_direct url s s' r) Hinj
              (sched pool) ∅ st st' futures Hnd Hrun) as (H1 & _ & H3).
  split; [|split].
  - apply list_eq. intros i. rewrite list_lookup_fmap.
    destruct (urls !! i) as [url|] eqn:Hi; cbn [fmap option_fmap option_map].
    + pose proof (lookup_lt_Some _ _ _ Hi) as Hlt.
      destruct (H1 i url (Hin i Hlt) Hi) as [Hf _].
      rewrite imgdl_collect_lookup by by rewrite length_replicate.
      rewrite Hf.
      destruct (direct_result env self url force _) as [p|e]; cbn.
      * rewrite bool_decide_eq_true_2; [done|].
        rewrite Hdone. apply elem_of_seq. lia.
      * by apply lookup_replicate.
    + apply lookup_ge_None. rewrite imgdl_collect_length, length_replicate.
      by apply lookup_ge_None.
  - intros url [i Hi]%list_elem_of_lookup_1.
    apply (H1 i url); [|done]. apply Hin. by eapply lookup_lt_Some.
  - intros p Hp. apply H3. intros i url _ Hi ->. apply Hp.
    apply list_elem_of_fmap. exists url. split; [done|].
    by eapply list_elem_of_lookup_2.
Qed.

End Direct.

(** X16: the list a batch of [imgdl] returns, and the files it leaves, do
    not depend on the order in which the pool runs the tasks nor on the
    order in which they complete.  This holds when the tasks go out direct
    (no proxy is drawn) with waits that are not negative, for URLs with
    pairwise distinct digests: entry [i] is then what the task of URL
    [i] gives on the store the batch started from. *)
Theorem X16_batch_is_schedule_independent (env : Env)
    (self : Imgdl.ImageDownloader) (urls : list string) (force : bool)
    (pool1 pool2 : Pool) (st : State) :
  Imgdl.proxies self = None →
  (0 <= Imgdl.min_wait self)%Q →
  (Imgdl.min_wait self <= Imgdl.max_wait self)%Q →
  NoDup ((λ url, SHA1.hexdigest (to_bytes url)) <$> urls) →
  sched pool1 ≡ₚ seq 0 (length urls) →
  done_order pool1 ≡ₚ seq 0 (length urls) →
  sched pool2 ≡ₚ seq 0 (length urls) →
  done_order pool2 ≡ₚ seq 0 (length urls) →
  ∃ st1 st2 paths,
    Imgdl.__call__ env self (UrlsList urls) force pool1 st
    = (st1, Ok (Imgdl.RList paths))
    ∧ Imgdl.__call__ env self (UrlsList urls) force pool2 st
      = (st2, Ok (Imgdl.RList paths))
    ∧ fs st1 = fs st2
    ∧ paths = (λ url, Path_str <$> outcome
                        (direct_result env self url force
                           (fs st !! Imgdl.file_path self url))) <$> urls.
Proof.
  intros Hproxies Hmin Hmax Hdig Hs1 Hd1 Hs2 Hd2.
  assert (Hcall : ∀ pool, ∃ st' paths,
            Imgdl.__call__ env self (UrlsList urls) force pool st
            = (st', Ok (Imgdl.RList paths))).
  { intros pool. cbn [Imgdl.__call__].
    destruct (run_pool _ urls (sched pool) ∅ st). by eexists _, _. }
  destruct (Hcall pool1) as (st1 & paths1 & Hc1).
  destruct (Hcall pool2) as (st2 & paths2 & Hc2).
  destruct (imgdl_batch_direct env self force Hproxies Hmin Hmax
              urls pool1 st st1 paths1 Hdig Hs1 Hd1 Hc1) as (Hp1 & Hw1 & Ho1).
  destruct (imgdl_batch_direct env self force Hproxies Hmin Hmax
              urls pool2 st st2 paths2 Hdig Hs2 Hd2 Hc2) as (Hp2 & Hw2 & Ho2).
  exists st1, st2, paths1. split; [done|]. split; [by rewrite Hp1, <- Hp2|].
  split; [|done]. apply map_eq. intros p.
  destruct (decide (p ∈ Imgdl.file_path self <$> urls)) as [Hin|Hnin].
  - apply list_elem_of_fmap in Hin as (url & -> & Hin).
    by rewrite Hw1, Hw2.
  - by rewrite Ho1, Ho2.
Qed.

Lemma X16_batch_is_schedule_independent_witness :
  ∃ st1 st2 paths,
    Imgdl.__call__ Samples.env Samples.imgdl (UrlsList Samples.batch) false
      Samples.pool Samples.st0
    = (st1, Ok (Imgdl.RList paths))
    ∧ Imgdl.__call__ Samples.env Samples.imgdl (UrlsList Samples.batch) false
        (mkPool [0; 1; 2]%nat [2; 1; 0]%nat) Samples.st0
      = (st2, Ok (Imgdl.RList paths))
    ∧ fs st1 = fs st2.
Proof.
  destruct (X16_batch_is_schedule_independent Samples.env Samples.imgdl
              Samples.batch false Samples.pool
              (mkPool [0; 1; 2]%nat [2; 1; 0]%nat) Samples.st0)
    as (st1 & st2 & paths & H1 & H2 & Hfs & _).
  - reflexivity.
  - done.
  - done.
  - apply (bool_decide_unpack _). vm_compute. reflexivity.
  - exact (Permutation_app_comm [2%nat] [0%nat; 1%nat]).
  - exact (Permutation_app_comm [1%nat; 2%nat] [0%nat]).
  - reflexivity.
  - apply (Permutation_rev [2; 1; 0]%nat).
  - exists st1, st2, paths. split; [exact H1|]. split; [exact H2|exact Hfs].
Defined.
(** ** The footprint of a batch *)

Lemma run_pool_touches {A} (task : string → M A) (urls : list string)
    (P : string → Path → Prop) (E : string → Event → Prop) :
  (∀ url s s' r, task url s = (s', r) → touches (P url) (E url) s s') →
  ∀ order futures st st' futures',
    run_pool task urls order futures st = (st', futures') →
    touches (λ p, ∃ url, url ∈ urls ∧ P url p)
            (λ ev, ∃ url, url ∈ urls ∧ E url ev) st st'.
Proof.
  intros Htask order.
  induction order as [|j order IH]; intros futures st st' futures'.
  { intros [= <- <-]. apply touches_refl. }
  cbn [run_pool]. destruct (urls !! j) as [url|] eqn:Hj; [|by apply IH].
  destruct (task url st) as [st1 r1] eqn:Hr. intros Hrun%IH.
  eapply touches_trans; [|exact Hrun].
  eapply touches_weaken; [| |by eapply Htask].
  - intros p Hp. exists url. split; [by eapply list_elem_of_lookup_2|done].
  - intros ev Hev. exists url. split; [by eapply list_elem_of_lookup_2|done].
Qed.

(** X17: a batch touches nothing but what belongs to its input.  Whatever
    the tasks do and in whatever order, a file that is neither the
    original nor a thumbnail of a URL of the list is left as it is, no file
    is removed, and every request, write and sleep logged is one of a task
    of a URL of the list. *)
Theorem X17_batch_footprint (env : Env)
    (self : Imagedownloader.ImageDownloader) (self' : Imgdl.ImageDownloader)
    (urls : list string) (force : bool) (pool : Pool) (st : State) :
  (∀ st' r,
     Imagedownloader.__call__ env self (UrlsList urls) force pool st
     = (st', r) →
     touches (λ p, ∃ url, url ∈ urls ∧ url_file self url p)
             (λ ev, ∃ url, url ∈ urls ∧ url_event self url ev) st st')
  ∧ (∀ st' r,
       Imgdl.__call__ env self' (UrlsList urls) force pool st = (st', r) →
       touches (λ p, ∃ url, url ∈ urls ∧ p = Imgdl.file_path self' url)
               (λ ev, ∃ url, url ∈ urls
                             ∧ fetch_event url (Imgdl.file_path self' url) ev)
               st st').
Proof.
  split; intros st' r Hcall.
  - cbn [Imagedownloader.__call__] in Hcall.
    destruct (run_pool _ urls (sched pool) ∅ st) as [s1 futures] eqn:Hrun.
    injection Hcall as <- _.
    eapply (run_pool_touches _ urls (url_file self) (url_event self));
      [|exact Hrun].
    intros url s s' r0 Hr. cbn beta in Hr.
    by apply download_image_touches in Hr as [? _].
  - cbn [Imgdl.__call__] in Hcall.
    destruct (run_pool _ urls (sched pool) ∅ st) as [s1 futures] eqn:Hrun.
    injection Hcall as <- _.
    eapply (run_pool_touches _ urls
              (λ url p, p = Imgdl.file_path self' url)
              (λ url, fetch_event url (Imgdl.file_path self' url)));
      [|exact Hrun].
    intros url s s' r0 Hr. cbn beta in Hr.
    by apply _download_image_touches in Hr as [? _].
Qed.

Lemma X17_batch_footprint_witness :
  fs (Imagedownloader.__call__ Samples.env Samples.dl_ab
        (UrlsList ["https://x/a.png"; "https://x/b.jpg"]%string) true
        Samples.pool Samples.st_old).1
    !! Imagedownloader.file_path Samples.dl "https://x/junk"
  = Some [9].
Proof.
  destruct (X17_batch_footprint Samples.env Samples.dl_ab Samples.imgdl
              ["https://x/a.png"; "https://x/b.jpg"]%string true
              Samples.pool Samples.st_old) as [H _].
  destruct (H _ _ (surjective_pairing _)) as (Hother & _ & _).
  rewrite Hother; [apply lookup_singleton_eq|].
  intros (url & Hin & [Hfile|[thumb_id Hthumb]]).
  - apply file_path_inj in Hfile.
    repeat (apply elem_of_cons in Hin as [->|Hin];
            [by vm_compute in Hfile|]).
    by apply elem_of_nil in Hin.
  - apply (file_not_thumb Samples.dl_ab "https://x/junk" url).
    exists thumb_id. exact Hthumb.
Defined.
(** ** A box with a side that is not positive *)



(** ** Waits below zero, and a write that fails *)

Lemma wait_of_negative (env : Env) (min_wait max_wait : Q) (st : State) :
  (min_wait < 0)%Q → (max_wait < 0)%Q →
  Qle_bool 0 (wait_of env min_wait max_wait st) = false.
Proof.
  intros Hmin Hmax. unfold wait_of.
  set (r := random_bits env (rng st) mod 2 ^ 53).
  assert (Hr : 0 ≤ r < 2 ^ 53) by (apply Z.mod_pos_bound; lia).
  set (t := (r # 9007199254740992)%Q).
  assert (Ht0 : (0 <= t)%Q) by (unfold Qle; cbn; lia).
  assert (Ht1 : (t <= 1)%Q) by (unfold Qle; cbn; lia).
  destruct (Qle_bool 0 _) eqn:Hle; [|done].
  apply Qle_bool_iff in Hle.
  assert (H1 : (0 <= (1 - t) * - min_wait)%Q) by nra.
  assert (H2 : (0 <= t * - max_wait)%Q) by nra.
  assert (Heq : (min_wait + (max_wait - min_wait) * t
                 == - ((1 - t) * - min_wait) - t * - max_wait)%Q) by ring.
  rewrite Heq in Hle.
  assert (Hz : ((1 - t) * - min_wait == 0)%Q) by lra.
  assert (Hz' : (t * - max_wait == 0)%Q) by lra.
  nra.
Qed.

(** X19: with [min_wait] and [max_wait] both below zero, a task that
    fetches and writes its file fails all the same: [sleep] refuses the
    negative duration after the file has been written.  The task raises
    [ValueError], the file stays on disk, and no thumbnail is attempted. *)
Theorem X19_negative_wait_fails_after_write (env : Env)
    (self : Imagedownloader.ImageDownloader) (url : string) (force : bool)
    (st st1 st' : State) (proxy : option Proxy) (r : Result Path)
    (buf : bytes) :
  (Imagedownloader.min_wait self < 0)%Q →
  (Imagedownloader.max_wait self < 0)%Q →
  let path := Imagedownloader.file_path self url in
  fs st !! path = None ∨ force = true →
  Imagedownloader.get_proxy env self st = (st1, Ok proxy) →
  fresh_jpeg env url (Imagedownloader.timeout self) proxy
    (Imagedownloader.headers self) = Ok buf →
  persist_mode env path buf = WriteOk →
  Imagedownloader.download_image env self url force st = (st', r) →
  r = Raise (ValueError "sleep length must be non-negative")
  ∧ fs st' !! path = Some buf
  ∧ trace st' = trace st ++ [EvGet url proxy; EvWrite path buf].
Proof.
  intros Hmin Hmax path Hgate%gate_spec Hp Hfresh Hmode Hrun.
  destruct (download_image_trace env _ _ _ _ _ _ _ _ Hp Hrun)
    as (evs_f & evs_t & Htr & _ & _ & Hcase).
  cbn zeta in Hcase. fold path in Hcase.
  rewrite Hgate, Hfresh, Hmode in Hcase.
  rewrite (wait_of_negative env _ _ st1 Hmin Hmax) in Hcase.
  destruct Hcase as (Hfile & -> & -> & ->).
  by rewrite Htr, app_nil_r.
Qed.

Lemma X19_negative_wait_fails_after_write_witness :
  (Imagedownloader.download_image Samples.env
     (Imagedownloader.mkImageDownloader ["imgs"%string] 5 (-2) (-1) 2 false ∅
        AttrNone [("a"%string, (100, 100))])
     "https://x/b.jpg" false Samples.st0).2
  = Raise (ValueError "sleep length must be non-negative").
Proof.
  eapply (X19_negative_wait_fails_after_write Samples.env
            (Imagedownloader.mkImageDownloader ["imgs"%string] 5 (-2) (-1) 2
               false ∅ AttrNone [("a"%string, (100, 100))])
            "https://x/b.jpg" false Samples.st0 Samples.st0 _ None _
            [74; 500; 300]).
  - reflexivity.
  - reflexivity.
  - left. apply lookup_empty.
  - reflexivity.
  - vm_compute. reflexivity.
  - reflexivity.
  - apply surjective_pairing.
Defined.

(** X20: a write that fails once the file has been opened leaves a file
    at the URL's path, and that file counts as the stored image from then
    on: the task raises, but the same task run again without [force]
    returns the path without requesting anything, although the file does
    not hold the JPEG. *)
Theorem X20_failed_write_counts_as_stored (env : Env)
    (self : Imgdl.ImageDownloader) (url : string) (force : bool)
    (st st1 st' : State) (proxy : option Proxy) (r : Result Path)
    (buf : bytes) :
  let path := Imgdl.file_path self url in
  fs st !! path = None ∨ force = true →
  Imgdl.get_proxy env self st = (st1, Ok proxy) →
  fresh_jpeg env url (Imgdl.timeout self) (session_proxy proxy)
    (Imgdl.headers self) = Ok buf →
  persist_mode env path buf = WriteFails →
  Imgdl._download_image env self url force None None st = (st', r) →
  (∃ e, r = Raise e)
  ∧ fs st' !! path = Some []
  ∧ ∃ st'',
      Imgdl._download_image env self url false None None st'
      = (st'', Ok path)
      ∧ fs st'' = fs st' ∧ trace st'' = trace st'.
Proof.
  intros path Hgate%gate_spec Hp Hfresh Hmode Hrun.
  destruct (_download_image_trace env _ _ _ _ _ _ _ _ Hp Hrun)
    as (evs & Htr & _ & _ & Hcase).
  cbn zeta in Hcase. fold path in Hcase.
  rewrite Hgate, Hfresh, Hmode in Hcase. destruct Hcase as (_ & -> & Hfs).
  split; [by eexists|].
  assert (Hfile : fs st' !! path = Some []).
  { rewrite Hfs. apply lookup_insert_eq. }
  split; [done|].
  assert (Hne : Imgdl.proxies self ≠ Some []).
  { intros Hl. unfold Imgdl.get_proxy in Hp. by rewrite Hl in Hp. }
  destruct (_download_image_cached env self url st' Hne)
    as (st'' & Hrun' & Hfs' & _ & Htr'); [by exists []|].
  by exists st''.
Qed.

Lemma X20_failed_write_counts_as_stored_witness :
  ∃ st' st'',
    Imgdl._download_image Samples.env_full Samples.imgdl "https://x/b.jpg"
      false None None st'
    = (st'', Ok (Imgdl.file_path Samples.imgdl "https://x/b.jpg"))
    ∧ fs st' !! Imgdl.file_path Samples.imgdl "https://x/b.jpg" = Some [].
Proof.
  assert (Hgate : fs Samples.st0
                    !! Imgdl.file_path Samples.imgdl "https://x/b.jpg" = None
                  ∨ false = true) by (left; apply lookup_empty).
  assert (Hfresh : fresh_jpeg Samples.env_full "https://x/b.jpg"
                     (Imgdl.timeout Samples.imgdl) (session_proxy None)
                     (Imgdl.headers Samples.imgdl) = Ok [74; 500; 300])
    by (vm_compute; reflexivity).
  destruct (X20_failed_write_counts_as_stored Samples.env_full Samples.imgdl
              "https://x/b.jpg" false Samples.st0 Samples.st0 _ None _
              [74; 500; 300] Hgate eq_refl Hfresh eq_refl
              (surjective_pairing _))
    as (_ & Hfile & st'' & Hrun & _).
  eexists _, st''. split; [exact Hrun|exact Hfile].
Defined.
(** ** Directories *)

Lemma split_slash_plain (s : string) :
  "/"%char ∉ list_ascii_of_string s → split_slash s = [s].
Proof.
  induction s as [|c s IH]; [done|]. cbn [list_ascii_of_string split_slash].
  intros [Hc Hs]%not_elem_of_cons.
  destruct (Ascii.eqb_spec c "/") as [->|_]; [done|]. by rewrite IH.
Qed.

Lemma Path_parts_thumbs (thumb_id : string) :
  plain_name thumb_id →
  Path_parts ("thumbs/" +:+ thumb_id) = ["thumbs"%string; thumb_id].
Proof.
  intros (Hne & Hdot & Hslash). unfold Path_parts.
  change ("thumbs/" +:+ thumb_id)
    with (String "t" (String "h" (String "u" (String "m" (String "b"
            (String "s" (String "/" thumb_id))))))).
  cbn [split_slash Ascii.eqb Bool.eqb]. rewrite split_slash_plain by done.
  cbn [filter list_filter].
  rewrite !decide_True; [done|done|by split].
Qed.

Section Mkdir.
Context (files : gmap Path bytes) (denied : Path → bool).

Lemma is_dir_mono (dirs dirs' : gset Path) (p : Path) :
  dirs ⊆ dirs' → is_dir dirs p = true → is_dir dirs' p = true.
Proof.
  unfold is_dir. rewrite !bool_decide_eq_true. intros Hsub [?|?]; [by left|].
  right. by apply Hsub.
Qed.

Lemma mkdir_from_ok base segs dirs dirs' u :
  mkdir_from files denied base segs dirs = (dirs', Ok u) →
  dirs ⊆ dirs'
  ∧ ∀ k, (1 ≤ k ≤ length segs)%nat → is_dir dirs' (base ++ take k segs) = true.
Proof.
  revert base dirs. induction segs as [|seg segs IH]; intros base dirs.
  { intros [= <- _]. split; [done|]. cbn. lia. }
  cbn [mkdir_from].
  assert (Hstep : ∀ dirs1, dirs ⊆ dirs1 →
            is_dir dirs1 (base ++ [seg]) = true →
            mkdir_from files denied (base ++ [seg]) segs dirs1 = (dirs', Ok u) →
            dirs ⊆ dirs'
            ∧ ∀ k, (1 ≤ k ≤ length (seg :: segs))%nat →
                   is_dir dirs' (base ++ take k (seg :: segs)) = true).
  { intros dirs1 Hsub Hdir [Hsub' Hall]%IH. split; [by etrans|].
    intros [|[|k]] Hk; [lia| |].
    - cbn. by eapply is_dir_mono.
    - cbn [take]. rewrite (cons_middle seg), app_assoc. apply Hall.
      cbn in Hk. cbn. lia. }
  destruct (is_dir dirs (base ++ [seg])) eqn:Hdir; [by apply Hstep|].
  case_bool_decide; [done|]. destruct (denied _); [done|].
  apply Hstep; [apply union_subseteq_r|]. unfold is_dir.
  apply bool_decide_eq_true. right. apply elem_of_union_l.
  by apply elem_of_singleton.
Qed.

Lemma mkdir_from_noop base segs dirs :
  (∀ k, (1 ≤ k ≤ length segs)%nat → is_dir dirs (base ++ take k segs) = true) →
  mkdir_from files denied base segs dirs = (dirs, Ok tt).
Proof.
  revert base. induction segs as [|seg segs IH]; intros base Hall; [done|].
  cbn [mkdir_from]. pose proof (Hall 1%nat) as H1. cbn [take length] in H1.
  rewrite take_0 in H1. rewrite H1 by lia. apply IH.
  intros k Hk. rewrite <- app_assoc. apply (Hall (S k)). cbn. lia.
Qed.

Lemma mkdir_all_ok paths dirs dirs' u :
  mkdir_all files denied paths dirs = (dirs', Ok u) →
  dirs ⊆ dirs'
  ∧ ∀ p k, p ∈ paths → is_dir dirs' (take k p) = true.
Proof.
  revert dirs. induction paths as [|p paths IH]; intros dirs.
  { intros [= <- _]. split; [done|]. by intros ?? []%elem_of_nil. }
  cbn [mkdir_all]. unfold mkdir.
  destruct (mkdir_from files denied [] p dirs) as [dirs1 [u1|e]] eqn:Hp;
    [|done].
  apply mkdir_from_ok in Hp as [Hsub1 Hp]. intros [Hsub' Hall]%IH.
  split; [by etrans|]. intros q k Hq.
  apply elem_of_cons in Hq as [Heq|Hq]; [subst q|by apply Hall].
  destruct (decide (k = 0%nat)) as [->|Hk0]; [done|].
  eapply is_dir_mono; [exact Hsub'|].
  destruct (decide (k ≤ length p)%nat) as [Hle|Hgt].
  - apply (Hp k). lia.
  - rewrite take_ge by lia. destruct p as [|s p]; [done|].
    rewrite <- (firstn_all (s :: p)). apply (Hp (length (s :: p))). cbn. lia.
Qed.

Lemma mkdir_all_noop paths dirs :
  (∀ p k, p ∈ paths → is_dir dirs (take k p) = true) →
  mkdir_all files denied paths dirs = (dirs, Ok tt).
Proof.
  induction paths as [|p paths IH]; intros Hall; [done|].
  cbn [mkdir_all]. unfold mkdir. rewrite mkdir_from_noop.
  - apply IH. intros q k Hq. apply Hall. by right.
  - intros k _. apply Hall. by left.
Qed.

End Mkdir.

(** X21: when [_makedirs] returns, the store root exists, and with it the
    directory every path the downloader derives is to be written in: the
    root for the original of any URL, and [thumbs/<name>] under the root
    for the thumbnails of every configured spec whose name is a plain
    directory name.  Directories that were there are kept, and a second
    call finds everything in place and changes nothing. *)
Theorem X21_makedirs_prepares_the_store
    (self : Imagedownloader.ImageDownloader) (files : gmap Path bytes)
    (denied : Path → bool) (dirs dirs' : gset Path) :
  Imagedownloader._makedirs self files denied dirs = (dirs', Ok tt) →
  dirs ⊆ dirs'
  ∧ is_dir dirs' (Imagedownloader.store_path self) = true
  ∧ (∀ url, is_dir dirs' (Path_parent (Imagedownloader.file_path self url))
            = true)
  ∧ (∀ url thumb_id size,
       (thumb_id, size) ∈ Imagedownloader.thumbs_size self →
       plain_name thumb_id →
       is_dir dirs'
         (Path_parent (Imagedownloader.thumb_path self url thumb_id)) = true)
  ∧ Imagedownloader._makedirs self files denied dirs' = (dirs', Ok tt).
Proof.
  unfold Imagedownloader._makedirs. cbn zeta.
  set (paths := _ <$> _). intros Hrun.
  pose proof (mkdir_all_ok files denied paths dirs dirs' tt Hrun)
    as [Hsub Hall].
  assert (Hroot : Imagedownloader.store_path self ∈ paths).
  { subst paths. cbn [fmap list_fmap]. apply elem_of_cons. left.
    unfold Path_join. replace (Path_parts ".") with (@nil string) by done.
    by rewrite app_nil_r. }
  assert (Hdir : ∀ p, p ∈ paths → is_dir dirs' p = true).
  { intros p Hp. rewrite <- (firstn_all p). by apply Hall. }
  split; [done|]. split; [by apply Hdir|]. split; [|split].
  - intros url. unfold Imagedownloader.file_path, file_path_of, Path_join,
      Path_parent. rewrite removelast_last. by apply Hdir.
  - intros url thumb_id size Hin Hplain.
    unfold Imagedownloader.thumb_path, Path_join, Path_parent.
    change (Imagedownloader.store_path self
            ++ ["thumbs"%string; thumb_id;
                SHA1.hexdigest (to_bytes url) +:+ ".jpg"])
      with (Imagedownloader.store_path self
            ++ ["thumbs"%string; thumb_id]
            ++ [SHA1.hexdigest (to_bytes url) +:+ ".jpg"]).
    rewrite app_assoc, removelast_last. apply Hdir.
    subst paths. cbn [fmap list_fmap]. apply elem_of_cons. right.
    apply list_elem_of_fmap. exists ("thumbs/" +:+ thumb_id).
    split; [by rewrite Path_parts_thumbs|].
    apply list_elem_of_fmap. exists thumb_id. split; [done|].
    apply list_elem_of_fmap. by exists (thumb_id, size).
  - by apply mkdir_all_noop.
Qed.

Lemma X21_makedirs_prepares_the_store_witness :
  is_dir (Imagedownloader._makedirs Samples.dl_ab ∅ (λ _, false) ∅).1
         (Path_parent (Imagedownloader.thumb_path Samples.dl_ab
                         "https://x/b.jpg" "a"))
  = true.
Proof.
  destruct (Imagedownloader._makedirs Samples.dl_ab ∅ (λ _, false) ∅)
    as [dirs' r] eqn:Hrun.
  assert (Hr : r = Ok tt).
  { apply (f_equal snd) in Hrun. cbn [snd] in Hrun. rewrite <- Hrun.
    vm_compute. reflexivity. }
  subst r.
  destruct (X21_makedirs_prepares_the_store _ _ _ _ _ Hrun)
    as (_ & _ & _ & Hthumbs & _).
  apply (Hthumbs "https://x/b.jpg"%string "a"%string (100, 100)).
  - by left.
  - split; [done|]. split; [done|].
    intros [[=]|[]%elem_of_nil]%elem_of_cons.
Defined.
(** ** Reading the list of URLs *)

Section ReadUrls.
Import Cli.

Lemma lstrip_cons (c : ascii) (s : string) :
  c ≠ newline → lstrip (String c s) = String c s.
Proof. intros Hc. cbn [lstrip]. by destruct (Ascii.eqb_spec c newline). Qed.

Lemma rstrip_cons (c : ascii) (s : string) :
  c ≠ newline → rstrip (String c s) = String c (rstrip s).
Proof.
  intros Hc. cbn [rstrip]. destruct (rstrip s); [|done].
  by destruct (Ascii.eqb_spec c newline).
Qed.

Lemma rstrip_clean (s : string) :
  newline ∉ list_ascii_of_string s → rstrip s = s.
Proof.
  induction s as [|c s IH]; [done|]. cbn [list_ascii_of_string].
  intros [Hc Hs]%not_elem_of_cons. rewrite rstrip_cons by by intros ->.
  by rewrite IH.
Qed.

Lemma rstrip_line (body : string) :
  newline ∉ list_ascii_of_string body →
  rstrip (String.append body (String newline EmptyString)) = body.
Proof.
  induction body as [|c body IH]; [done|]. cbn [list_ascii_of_string].
  intros [Hc Hs]%not_elem_of_cons.
  change (String.append (String c body) ?t) with (String c (String.append body t)).
  rewrite rstrip_cons by by intros ->. by rewrite IH.
Qed.

Lemma strip_line (body : string) :
  newline ∉ list_ascii_of_string body →
  strip body = body
  ∧ strip (String.append body (String newline EmptyString)) = body.
Proof.
  intros Hbody. unfold strip. destruct body as [|c body]; [done|].
  cbn [list_ascii_of_string] in Hbody.
  pose proof Hbody as [Hc _]%not_elem_of_cons.
  change (String.append (String c body) ?t) with (String c (String.append body t)).
  rewrite !lstrip_cons by by intros ->.
  split; [by apply rstrip_clean|].
  by apply (rstrip_line (String c body)).
Qed.

(** A line of [readlines] has no newline but, possibly, at its end, and
    [strip] takes that one off. *)
Lemma readlines_line (text line : string) :
  line ∈ readlines text →
  ∃ body, (newline ∉ list_ascii_of_string body)
          ∧ (line = body ∨ line = String.append body (String newline EmptyString))
          ∧ strip line = body.
Proof.
  assert (Hpack : ∀ body line,
            newline ∉ list_ascii_of_string body →
            line = body ∨ line = String.append body (String newline EmptyString) →
            ∃ body, (newline ∉ list_ascii_of_string body)
                    ∧ (line = body
                       ∨ line = String.append body (String newline EmptyString))
                    ∧ strip line = body).
  { intros body l Hbody Hcase. exists body. split; [done|]. split; [done|].
    destruct (strip_line body Hbody) as [H1 H2].
    by destruct Hcase as [->| ->]. }
  revert line. induction text as [|c text IH]; intros line.
  { by intros []%elem_of_nil. }
  cbn [readlines]. destruct (Ascii.eqb_spec c newline) as [->|Hc].
  - intros [->|Hin]%elem_of_cons; [|by apply IH].
    apply (Hpack EmptyString); [apply not_elem_of_nil|by right].
  - assert (Hcons : ∀ body, newline ∉ list_ascii_of_string body →
              newline ∉ list_ascii_of_string (String c body)).
    { intros body Hbody. cbn [list_ascii_of_string]. apply not_elem_of_cons.
      split; [by intros Heq; apply Hc|done]. }
    destruct (readlines text) as [|l ls] eqn:Hl.
    + intros [->|[]%elem_of_nil]%elem_of_cons.
      apply (Hpack (String c EmptyString)); [|by left].
      apply Hcons, not_elem_of_nil.
    + intros [->|Hin]%elem_of_cons; [|apply IH; by right].
      destruct (IH l) as (body & Hbody & Hcase & _); [by left|].
      apply (Hpack (String c body)); [by apply Hcons|].
      destruct Hcase as [->| ->]; [by left|by right].
Qed.

Lemma read_urls_newline (text : string) :
  read_urls (String newline text) = EmptyString :: read_urls text.
Proof. reflexivity. Qed.

Lemma read_urls_cons (c : ascii) (text : string) :
  c ≠ newline →
  read_urls (String c text)
  = match read_urls text with
    | [] => [String c EmptyString]
    | url :: urls => String c url :: urls
    end.
Proof.
  intros Hc. unfold read_urls. cbn [readlines].
  destruct (Ascii.eqb_spec c newline); [done|].
  assert (Hone : strip (String c EmptyString) = String c EmptyString).
  { unfold strip. by rewrite lstrip_cons, rstrip_cons. }
  destruct (readlines text) as [|l ls] eqn:Hl; cbn [fmap list_fmap];
    [by rewrite Hone|].
  f_equal. destruct (readlines_line text l) as (body & Hbody & Hcase & ->).
  { rewrite Hl. by left. }
  assert (Hcb : newline ∉ list_ascii_of_string (String c body)).
  { cbn [list_ascii_of_string]. apply not_elem_of_cons.
    split; [by intros Heq; apply Hc|done]. }
  destruct (strip_line (String c body) Hcb) as [H1 H2].
  by destruct Hcase as [->| ->].
Qed.

Lemma read_urls_clean (text : string) :
  Forall (λ url, newline ∉ list_ascii_of_string url) (read_urls text).
Proof.
  apply Forall_forall. intros url (line & -> & Hin)%list_elem_of_fmap.
  by destruct (readlines_line text line Hin) as (body & Hbody & _ & ->).
Qed.

Lemma read_urls_join (text : string) :
  text
  = String.append
      (String.concat (String newline EmptyString) (read_urls text))
      (if bool_decide (last (list_ascii_of_string text) = Some newline)
       then String newline EmptyString else EmptyString).
Proof.
  induction text as [|c text IH]; [done|].
  assert (Hlast : text ≠ EmptyString →
            last (list_ascii_of_string (String c text))
            = last (list_ascii_of_string text)).
  { destruct text; [done|]. by intros _. }
  destruct (Ascii.eqb_spec c newline) as [->|Hc].
  - rewrite read_urls_newline. destruct text as [|c' text]; [done|].
    rewrite Hlast by done.
    destruct (read_urls (String c' text)) as [|url urls] eqn:Hurls.
    { unfold read_urls in Hurls. cbn [readlines] in Hurls.
      destruct (Ascii.eqb c' newline); [done|].
      by destruct (readlines text). }
    rewrite IH at 1. reflexivity.
  - rewrite read_urls_cons by done. destruct text as [|c' text].
    { cbn. rewrite bool_decide_eq_false_2; [done|]. by intros [= ->]. }
    rewrite Hlast by done.
    destruct (read_urls (String c' text)) as [|url urls] eqn:Hurls.
    { unfold read_urls in Hurls. cbn [readlines] in Hurls.
      destruct (Ascii.eqb c' newline); [done|].
      by destruct (readlines text). }
    rewrite IH at 1. by destruct urls.
Qed.

End ReadUrls.

(** X22: the list of URLs [main] reads from the file is the text cut at
    its newlines: no URL holds a newline, and joined by newlines the URLs
    give the text back, but for the newline that ends it when it ends in
    one.  So every line counts, an empty one as the empty URL. *)
Theorem X22_read_urls (text : string) :
  Forall (λ url, Cli.newline ∉ list_ascii_of_string url) (Cli.read_urls text)
  ∧ text
    = String.append
        (String.concat (String Cli.newline EmptyString) (Cli.read_urls text))
        (if bool_decide (last (list_ascii_of_string text) = Some Cli.newline)
         then String Cli.newline EmptyString else EmptyString)
  ∧ (Cli.read_urls text = [] ↔ text = EmptyString)
  ∧ ∀ rest, Cli.read_urls (String Cli.newline rest)
            = EmptyString :: Cli.read_urls rest.
Proof.
  split; [apply read_urls_clean|]. split; [apply read_urls_join|].
  split; [|by intros].
  split; [|by intros ->].
  destruct text as [|c text]; [done|]. unfold Cli.read_urls.
  cbn [Cli.readlines]. destruct (Ascii.eqb c Cli.newline); [done|].
  by destruct (Cli.readlines text).
Qed.
